(** * f2: discovery and transactional rename engine

    A shallow embedding of the Go packages [find], [rename] and
    [internal/json] of f2, together with the parts of the Go standard
    library and of the operating system they call.

    Conventions of the embedding:
    - Go strings are [string]; paths stay strings, as in the source, and are
      only split into components inside the model of the operating system.
    - The target platform is a POSIX one: the separator is [/] and
      [runtime.GOOS == internalos.Windows] is [false].
    - The file tree is a tree of directories and files without symbolic
      links or permission bits; the working directory of the process is the
      root of the tree.
    - A Go [error] is a value of [error]; [nil] is [None].
    - Every function that touches the outside world takes the state it reads
      and returns the state it leaves. *)

From Stdlib Require Import Ascii ZArith.
From stdpp Require Import gmap strings list fin_maps pretty sorting.

#[local] Set Warnings "-register-all".
#[local] Open Scope string_scope.
#[local] Open Scope list_scope.

(** ** Errors *)

Inductive error :=
| ENOENT | ENOTDIR | EISDIR | ENOTEMPTY | EINVAL | EBUSY | EACCES
| errJSONSyntax
| errRenameFailed
| errUndoFailed
| errNothingToUndo
| errBackupFileRemovalFailed (backupFilePath : string).

#[global] Instance error_eq_dec : EqDecision error.
Proof. solve_decision. Defined.

(** ** Package strings *)

Module strings.

Fixpoint Contains_char (s : string) (c : ascii) : bool :=
  match s with
  | EmptyString => false
  | String a s' => if decide (a = c) then true else Contains_char s' c
  end.

(** [strings.Contains(s, substr)] for a one-character [substr], the only
    use the sources make of it. *)
Definition Contains (s : string) (substr : ascii) : bool := Contains_char s substr.

(** [strings.ReplaceAll(s, old, new)] for one-character [old] and [new]. *)
Fixpoint ReplaceAll (s : string) (old new : ascii) : string :=
  match s with
  | EmptyString => EmptyString
  | String a s' => String (if decide (a = old) then new else a) (ReplaceAll s' old new)
  end.

(** Case folding of one byte: upper-case ASCII letters are mapped to lower
    case, every other byte is left alone.  Go folds all of Unicode. *)
Definition fold_ascii (a : ascii) : ascii :=
  let n := nat_of_ascii a in
  if (65 <=? n)%nat && (n <=? 90)%nat then ascii_of_nat (n + 32) else a.

Fixpoint EqualFold (s t : string) : bool :=
  match s, t with
  | EmptyString, EmptyString => true
  | String a s', String b t' =>
      if decide (fold_ascii a = fold_ascii b) then EqualFold s' t' else false
  | _, _ => false
  end.

(** [strings.Join(elems, "/")]. *)
Fixpoint Join (elems : list string) (sep : string) : string :=
  match elems with
  | [] => EmptyString
  | [e] => e
  | e :: rest => e +:+ sep +:+ Join rest sep
  end.

(** [strings.Split(s, "/")], with the component being read in [cur]. *)
Fixpoint Split_from (cur : string) (s : string) (sep : ascii) : list string :=
  match s with
  | EmptyString => [String.rev cur]
  | String a s' =>
      if decide (a = sep) then String.rev cur :: Split_from EmptyString s' sep
      else Split_from (String a cur) s' sep
  end.

Definition Split (s : string) (sep : ascii) : list string := Split_from EmptyString s sep.

End strings.

(** ** Package path/filepath (POSIX) *)

Module filepath.

Definition Separator : ascii := "/"%char.

Definition rooted (path : string) : bool :=
  match path with
  | String a _ => bool_decide (a = Separator)
  | EmptyString => false
  end.

(** One step of the lexical processing of [Clean]: [out] holds the cleaned
    components read so far, last one first. *)
Definition clean_step (is_rooted : bool) (out : list string) (c : string) : list string :=
  if decide (c = EmptyString) then out
  else if decide (c = ".") then out
  else if decide (c = "..") then
    match out with
    | top :: out' => if decide (top = "..") then c :: out else out'
    | [] => if is_rooted then [] else [c]
    end
  else c :: out.

Definition clean_components (is_rooted : bool) (path : string) : list string :=
  rev (foldl (clean_step is_rooted) [] (strings.Split path Separator)).

Definition Clean (path : string) : string :=
  let cs := clean_components (rooted path) path in
  if rooted path then String Separator (strings.Join cs "/")
  else match cs with
       | [] => "."
       | _ => strings.Join cs "/"
       end.

(** [filepath.Join]: the elements before the first non-empty one are
    dropped, the rest is joined with separators and cleaned; joining
    nothing but empty elements gives the empty string. *)
Fixpoint Join (elem : list string) : string :=
  match elem with
  | [] => EmptyString
  | e :: rest => if decide (e = EmptyString) then Join rest else Clean (strings.Join elem "/")
  end.

(** The prefix of [path] up to and including its last separator. *)
Fixpoint dir_prefix (path : string) : string :=
  match path with
  | EmptyString => EmptyString
  | String a s' =>
      if strings.Contains s' Separator then String a (dir_prefix s')
      else if decide (a = Separator) then String a EmptyString
      else EmptyString
  end.

Definition Dir (path : string) : string := Clean (dir_prefix path).

Definition IsAbs (path : string) : bool := rooted path.

(** [filepath.Abs]: a path that is not absolute is joined to the working
    directory, which is the root of the tree and is always known. *)
Definition Abs (path : string) : string * option error :=
  if IsAbs path then (Clean path, None)
  else (Join [String Separator EmptyString; path], None).

End filepath.

(** ** Package os: the file tree and the calls the sources make on it *)

Module os.

(** A file with its contents, or a directory with its entries by name. *)
Inductive node :=
| File (data : string)
| Dir (entries : gmap string node).

Definition IsDir (n : node) : bool :=
  match n with Dir _ => true | File _ => false end.

(** What [ReadDir] reports of one entry, [fs.DirEntry]; [os.FileInfo] has
    the same two fields here. *)
Record DirEntry := { Name : string; EntryIsDir : bool }.

#[global] Instance DirEntry_eq_dec : EqDecision DirEntry.
Proof. solve_decision. Defined.

(** The components a path names, from the root: the process runs in the
    root directory, so a relative and an absolute path resolve alike, and
    [..] at the root stays at the root. *)
Definition resolve (name : string) : list string :=
  filepath.clean_components true name.

(** Path lookup, with the error of the system call that fails. *)
Fixpoint stat (n : node) (p : list string) {struct p} : error + node :=
  match p with
  | [] => inr n
  | c :: p' =>
      match n with
      | File _ => inl ENOTDIR
      | Dir es =>
          match es !! c with
          | None => inl ENOENT
          | Some n' => stat n' p'
          end
      end
  end.

(** The tree without the entry at [p]. *)
Fixpoint remove (n : node) (p : list string) {struct p} : node :=
  match p with
  | [] => n
  | c :: p' =>
      match n with
      | File _ => n
      | Dir es =>
          match p' with
          | [] => Dir (delete c es)
          | _ :: _ =>
              match es !! c with
              | None => n
              | Some n' => Dir (<[c := remove n' p']> es)
              end
          end
      end
  end.

(** The tree with [x] as the entry at [p]; the parent of [p] must exist. *)
Fixpoint place (n : node) (p : list string) (x : node) {struct p} : node :=
  match p with
  | [] => x
  | c :: p' =>
      match n with
      | File _ => n
      | Dir es =>
          match p' with
          | [] => Dir (<[c := x]> es)
          | _ :: _ =>
              match es !! c with
              | None => n
              | Some n' => Dir (<[c := place n' p' x]> es)
              end
          end
      end
  end.

Definition parent (p : list string) : list string := removelast p.

(** [rename(2)]: the source must exist, the parent of the target must be a
    directory, a directory cannot move below itself, and an existing
    target is replaced when it is a file (by a file) or an empty directory
    (by a directory). *)
Definition Rename (fs : node) (oldpath newpath : string) : node * option error :=
  let p := resolve oldpath in
  let q := resolve newpath in
  match stat fs p with
  | inl e => (fs, Some e)
  | inr x =>
      if decide (p = q) then (fs, None)
      else if decide (p = [] ∨ q = []) then (fs, Some EBUSY)
      else
        match stat fs (parent q) with
        | inl e => (fs, Some e)
        | inr (File _) => (fs, Some ENOTDIR)
        | inr (Dir _) =>
            if IsDir x && bool_decide (p `prefix_of` q) then (fs, Some EINVAL)
            else
              match stat fs q, x with
              | inr (File _), Dir _ => (fs, Some ENOTDIR)
              | inr (Dir _), File _ => (fs, Some EISDIR)
              | inr (Dir es), Dir _ =>
                  if decide (es = ∅) then (place (remove fs p) q x, None)
                  else (fs, Some ENOTEMPTY)
              | _, _ => (place (remove fs p) q x, None)
              end
        end
  end.

(** [mkdir -p]: every missing directory on the way is created; a file on
    the way is an error, met before anything is created. *)
Fixpoint mkdir_all (n : node) (p : list string) {struct p} : error + node :=
  match n with
  | File _ => inl ENOTDIR
  | Dir es =>
      match p with
      | [] => inr n
      | c :: p' =>
          match mkdir_all (default (Dir ∅) (es !! c)) p' with
          | inl e => inl e
          | inr n' => inr (Dir (<[c := n']> es))
          end
      end
  end.

Definition MkdirAll (fs : node) (path : string) : node * option error :=
  match mkdir_all fs (resolve path) with
  | inl e => (fs, Some e)
  | inr fs' => (fs', None)
  end.

Definition entry_of (kv : string * node) : DirEntry :=
  {| Name := kv.1; EntryIsDir := IsDir kv.2 |}.

Definition name_le (e1 e2 : DirEntry) : Prop :=
  Is_true (String.leb (Name e1) (Name e2)).

#[global] Instance name_le_dec e1 e2 : Decision (name_le e1 e2).
Proof. unfold name_le. apply _. Defined.

(** [os.ReadDir]: the entries of a directory, sorted by file name. *)
Definition ReadDir (fs : node) (name : string) : list DirEntry * option error :=
  match stat fs (resolve name) with
  | inl e => ([], Some e)
  | inr (File _) => ([], Some ENOTDIR)
  | inr (Dir es) => (merge_sort name_le (entry_of <$> map_to_list es), None)
  end.

(** [os.Stat]: the base name of the path and whether it is a directory. *)
Definition Stat (fs : node) (name : string) : option DirEntry * option error :=
  match stat fs (resolve name) with
  | inl e => (None, Some e)
  | inr n =>
      (Some {| Name := default "." (last (resolve name)); EntryIsDir := IsDir n |}, None)
  end.

End os.

(** ** Go slices

    A slice is [nil] or holds elements; [nil] and the empty slice differ for
    [== nil] and for the JSON encoder, and agree for [len] and [range]. *)

Definition slice (A : Type) : Type := option (list A).

Definition elems {A} (s : slice A) : list A := default [] s.
Definition len {A} (s : slice A) : nat := length (elems s).
Definition append {A} (s : slice A) (x : A) : slice A := Some (elems s ++ [x]).
Definition is_nil {A} (s : slice A) : bool := bool_decide (s = None :> option (list A)).

(** ** Package encoding/json

    A JSON document is kept as the tree of values it denotes.  What
    [MarshalIndent] returns is that tree together with the prefix and the
    indentation it was rendered with. *)

Module json.

Inductive value :=
| Null
| Bool (b : bool)
| Number (n : Z)
| Str (s : string)
| Array (items : list value)
| Object (fields : list (string * value)).

Record text := { prefix : string; indent : string; body : value }.

Definition MarshalIndent (v : value) (pre ind : string) : text :=
  {| prefix := pre; indent := ind; body := v |}.

(** The member of an object with a given key, the last one winning as in
    the decoder. *)
Definition member (key : string) (fields : list (string * value)) : option value :=
  snd <$> last (filter (λ kv, kv.1 = key) fields).

(** The bytes of a file as the sequence of texts written to it.  A file
    decodes when it holds exactly one document. *)
Definition Unmarshal (data : list text) : error + value :=
  match data with
  | [t] => inr (body t)
  | _ => inl errJSONSyntax
  end.

End json.

(** ** Package internal/file *)

Module file.

(** Modelled from the spec: the type [file.Change] is not under src/; its
    fields are the ones the spec's data model lists, and its JSON keys the
    ones of the spec's schema. *)
Record Change := {
  BaseDir : string;
  Source : string;
  Target : string;
  Error : option error;
}.

#[global] Instance Change_eq_dec : EqDecision Change.
Proof. solve_decision. Defined.

Definition with_Error (change : Change) (err : option error) : Change :=
  {| BaseDir := BaseDir change; Source := Source change;
     Target := Target change; Error := err |}.

Definition marshal (change : Change) : json.value :=
  json.Object [("source", json.Str (Source change));
               ("target", json.Str (Target change));
               ("base_dir", json.Str (BaseDir change))].

Definition string_member (key : string) (fields : list (string * json.value)) : error + string :=
  match json.member key fields with
  | None => inr EmptyString
  | Some (json.Str s) => inr s
  | Some _ => inl errJSONSyntax
  end.

Definition unmarshal (v : json.value) : error + Change :=
  match v with
  | json.Object fields =>
      match string_member "source" fields, string_member "target" fields,
            string_member "base_dir" fields with
      | inr s, inr t, inr b =>
          inr {| BaseDir := b; Source := s; Target := t; Error := None |}
      | _, _, _ => inl errJSONSyntax
      end
  | _ => inl errJSONSyntax
  end.

End file.

(** ** Package internal/config *)

Module config.

(** The fields of the configuration the sources read.  [Date] is the
    creation time already formatted as RFC 3339. *)
Record Config := {
  WorkingDir : string;
  Date : string;
  Exec : bool;
  Revert : bool;
  IncludeDir : bool;
  Interactive : bool;
  JSON : bool;
  Verbose : bool;
}.

End config.

(** ** Package regexp and the helpers of internal/path *)

Module regexp.

(** A compiled regular expression, as the sources use one: through
    [MatchString]. *)
Record Regexp := { MatchString : string → bool }.

End regexp.

(** Modelled from the spec: [internalpath.FilenameWithoutExtension] is not
    under src/.  The spec says that it gives a name with its extension
    stripped; nothing is assumed of it.  [Compile] stands for
    [regexp.Compile] of the library of Go, which fails on a pattern that is
    not a regular expression; nothing is assumed of it either. *)
Class Patterns := {
  Compile : string → error + regexp.Regexp;
  FilenameWithoutExtension : string → string;
}.

(** The fields of the configuration that package find reads. *)
Module findconfig.

Record Config := {
  CSVFilename : string;
  FindSlice : list string;
  ReplacementSlice : list string;
  PathsToFilesOrDirs : list string;
  MaxDepth : Z;
  Recursive : bool;
  IncludeHidden : bool;
  SearchRegex : regexp.Regexp;
  ExcludeFilter : list string;
  IncludeDir : bool;
  OnlyDir : bool;
  IgnoreExt : bool;
}.

End findconfig.

(** ** Package internal/json *)

Module internaljson.

(** [Output]: the structure behind the [--json] flag and the backup
    files.  [Conflicts] is the opaque report of the validator, a map that
    is empty when there is nothing to report. *)
Record Output := {
  Conflicts : list (string * json.value);
  WorkingDir : string;
  Date : string;
  Changes : slice file.Change;
  Errors : slice nat;
  DryRun : bool;
}.

(** A member tagged [omitempty] is left out when its value is empty; for
    a slice or a map that is when it has no element, [nil] or not. *)
Definition omitempty {A} (key : string) (n : nat) (v : A → json.value) (a : A)
  : list (string * json.value) :=
  if decide (n = 0) then [] else [(key, v a)].

(** The encoding of a slice that is not left out: [null] for [nil], an
    array otherwise. *)
Definition marshal_slice {A} (f : A → json.value) (s : slice A) : json.value :=
  match s with
  | None => json.Null
  | Some l => json.Array (f <$> l)
  end.

(** The members of an [Output], in the order of the struct's fields and
    under the keys and options of its tags. *)
Definition marshal (out : Output) : json.value :=
  json.Object
    (omitempty "conflicts" (length (Conflicts out)) json.Object (Conflicts out)
     ++ [("working_dir", json.Str (WorkingDir out));
         ("date", json.Str (Date out))]
     ++ omitempty "changes" (len (Changes out)) (marshal_slice file.marshal) (Changes out)
     ++ omitempty "errors" (len (Errors out))
          (marshal_slice (λ i : nat, json.Number (Z.of_nat i))) (Errors out)
     ++ [("dry_run", json.Bool (DryRun out))]).

Definition GetOutput (conf : config.Config) (conflicts : list (string * json.value))
    (changes : slice file.Change) (errs : slice nat) : json.text * option error :=
  let out := {| WorkingDir := config.WorkingDir conf;
                Date := config.Date conf;
                DryRun := negb (config.Exec conf);
                Changes := changes;
                Conflicts := conflicts;
                Errors := errs |} in
  (* prevent empty matches from being encoded as `null` *)
  let out := if is_nil (Changes out)
             then {| WorkingDir := WorkingDir out; Date := Date out;
                     DryRun := DryRun out; Changes := Some [];
                     Conflicts := Conflicts out; Errors := Errors out |}
             else out in
  (json.MarshalIndent (marshal out) EmptyString "    ", None).

(** Decoding of the members [Undo] reads back. *)
Fixpoint unmarshal_changes (items : list json.value) : error + list file.Change :=
  match items with
  | [] => inr []
  | v :: rest =>
      match file.unmarshal v, unmarshal_changes rest with
      | inr c, inr cs => inr (c :: cs)
      | inl e, _ => inl e
      | _, inl e => inl e
      end
  end.

Definition unmarshal_Changes (v : json.value) : error + slice file.Change :=
  match v with
  | json.Object fields =>
      match json.member "changes" fields with
      | None => inr None
      | Some json.Null => inr None
      | Some (json.Array items) =>
          match unmarshal_changes items with
          | inr cs => inr (Some cs)
          | inl e => inl e
          end
      | Some _ => inl errJSONSyntax
      end
  | _ => inl errJSONSyntax
  end.

End internaljson.

(** ** The data directory: package xdg and the file calls made on it

    The backup files live in the user's data directory, apart from the tree
    that is renamed.  A file there is the sequence of texts written to it. *)

Module xdg.

Record datafile := { readable : bool; content : list json.text }.

Record Store := {
  DataHome : string;
  files : gmap string datafile;
  dirs_creatable : bool;
  writable : bool;
}.

Definition with_files (st : Store) (fs : gmap string datafile) : Store :=
  {| DataHome := DataHome st; files := fs;
     dirs_creatable := dirs_creatable st; writable := writable st |}.

(** [xdg.DataFile]: the path of a data file, its parent directories being
    created when missing. *)
Definition DataFile (st : Store) (relPath : string) : string * option error :=
  if dirs_creatable st then (filepath.Join [DataHome st; relPath], None)
  else (EmptyString, Some EACCES).

(** [xdg.SearchDataFile]: the path of an existing data file. *)
Definition SearchDataFile (st : Store) (relPath : string) : string * option error :=
  let path := filepath.Join [DataHome st; relPath] in
  match files st !! path with
  | Some _ => (path, None)
  | None => (EmptyString, Some ENOENT)
  end.

(** [os.Create]: the file is created, or truncated when it exists. *)
Definition Create (st : Store) (name : string) : Store * option error :=
  if writable st
  then (with_files st (<[name := {| readable := true; content := [] |}]> (files st)), None)
  else (st, Some EACCES).

(** [os.ReadFile]. *)
Definition ReadFile (st : Store) (name : string) : list json.text * option error :=
  match files st !! name with
  | None => ([], Some ENOENT)
  | Some f => if readable f then (content f, None) else ([], Some EACCES)
  end.

(** [os.Remove]. *)
Definition Remove (st : Store) (name : string) : Store * option error :=
  match files st !! name with
  | None => (st, Some ENOENT)
  | Some _ =>
      if writable st then (with_files st (delete name (files st)), None)
      else (st, Some EACCES)
  end.

(** [Write] on an open [os.File]: the bytes go to its end. *)
Definition write (st : Store) (name : string) (b : list json.text) : Store * option error :=
  match files st !! name with
  | None => (st, Some ENOENT)
  | Some f =>
      (with_files st (<[name := {| readable := readable f; content := content f ++ b |}]> (files st)),
       None)
  end.

End xdg.

(** ** Package bufio *)

Module bufio.

(** A writer on the file [dest] holding the bytes not yet written. *)
Record Writer := { dest : string; buf : list json.text }.

Definition NewWriter (backupFile : string) : Writer :=
  {| dest := backupFile; buf := [] |}.

Definition Write (writer : Writer) (b : list json.text) : Writer * option error :=
  ({| dest := dest writer; buf := buf writer ++ b |}, None).

Definition Flush (writer : Writer) (st : xdg.Store) : Writer * xdg.Store * option error :=
  match xdg.write st (dest writer) (buf writer) with
  | (st', None) => ({| dest := dest writer; buf := [] |}, st', None)
  | (st', Some err) => (writer, st', Some err)
  end.

End bufio.

(** ** Package runtime *)

Module runtime.
Definition GOOS_is_Windows : bool := false.
End runtime.

(** ** Package report and the terminal *)

Module report.

(** What the program prints, as the sequence of the calls that print. *)
Inductive event :=
| NonInteractive (changes : list file.Change)
| Interactive (changes : list file.Change)
| JSON (changes : list file.Change)
| BackupFailed (err : error)
| VerboseFailed (sourcePath targetPath : string)
| VerboseRenamed (sourcePath targetPath : string).

End report.

(** ** The state of the process and of the machine *)

Record World := {
  fs : os.node;                               (* the file tree *)
  data : xdg.Store;                           (* the data directory *)
  errs : slice nat;                           (* [var errs []int] of package rename *)
  clock : Z;                                  (* nanoseconds since the epoch *)
  conflicts : list (string * json.value);     (* [validate.GetConflicts()] *)
  printed : list report.event;                (* the output so far *)
}.

Definition with_fs (w : World) (t : os.node) : World :=
  {| fs := t; data := data w; errs := errs w; clock := clock w;
     conflicts := conflicts w; printed := printed w |}.

Definition with_data (w : World) (st : xdg.Store) : World :=
  {| fs := fs w; data := st; errs := errs w; clock := clock w;
     conflicts := conflicts w; printed := printed w |}.

Definition with_errs (w : World) (es : slice nat) : World :=
  {| fs := fs w; data := data w; errs := es; clock := clock w;
     conflicts := conflicts w; printed := printed w |}.

Definition with_clock (w : World) (t : Z) : World :=
  {| fs := fs w; data := data w; errs := errs w; clock := t;
     conflicts := conflicts w; printed := printed w |}.

Definition print (w : World) (evs : list report.event) : World :=
  {| fs := fs w; data := data w; errs := errs w; clock := clock w;
     conflicts := conflicts w; printed := printed w ++ evs |}.

(** [time.Now().UnixNano()]: the reading, and a world one nanosecond
    later. *)
Definition UnixNano (w : World) : Z * World := (clock w, with_clock w (clock w + 1)).

(** ** Sorting done outside the sources *)

(** Modelled from the spec: [sortfiles.FilesBeforeDirs] is not under src/.
    The spec says that it re-orders the changes, files before directories,
    in a forward and in a revert variant; all that is assumed of it is that
    it permutes its argument.  [SliceStable] stands for the call of
    [sort.SliceStable] in [commit], whose comparator [less(i, _)] looks at
    the element at [i] alone; nothing is assumed of its result. *)
Class Sorts := {
  FilesBeforeDirs : list file.Change → bool → list file.Change;
  FilesBeforeDirs_perm : ∀ changes revert, FilesBeforeDirs changes revert ≡ₚ changes;
  SliceStable : (file.Change → bool) → list file.Change → list file.Change;
}.

(** ** Package rename *)

Module rename.

Import file.

(** The body of the loop of [rename], for the change at index [i]. *)
Definition rename_body (i : nat) (change : Change) (w : World) : World * Change :=
  let sourcePath := filepath.Join [BaseDir change; Source change] in
  let targetPath := filepath.Join [BaseDir change; Target change] in
  (* skip paths that are unchanged in every aspect *)
  if decide (sourcePath = targetPath) then (w, change)
  else
    let caseInsensitiveFS := strings.EqualFold sourcePath targetPath in
    let '(targetPath, w) :=
      if caseInsensitiveFS then
        let '(now, w) := UnixNano w in
        let timeStr := pretty now in
        (filepath.Join [BaseDir change; "__" +:+ timeStr +:+ "__" +:+ Target change], w)
      else (targetPath, w) in
    let mkdir :=
      if strings.Contains (Target change) "/"
         || strings.Contains (Target change) "\" && runtime.GOOS_is_Windows
      then
        let dir := filepath.Dir (Target change) in
        os.MkdirAll (fs w) (filepath.Join [BaseDir change; dir])
      else (fs w, None) in
    match mkdir with
    | (_, Some err) =>
        (with_errs w (append (errs w) i), with_Error change (Some err))
    | (tree, None) =>
        let '(tree, err) := os.Rename tree sourcePath targetPath in
        (* if the intermediate rename is successful,
           proceed with the original renaming operation *)
        let '(tree, err) :=
          match err with
          | None =>
              if caseInsensitiveFS then
                let orginalTarget := filepath.Join [BaseDir change; Target change] in
                os.Rename tree targetPath orginalTarget
              else (tree, err)
          | Some _ => (tree, err)
          end in
        match err with
        | Some err =>
            (with_errs (with_fs w tree) (append (errs w) i), with_Error change (Some err))
        | None => (with_fs w tree, change)
        end
    end.

(** The loop of [rename] from index [i] on. *)
Fixpoint rename_from (i : nat) (changes : list Change) (w : World) : World * list Change :=
  match changes with
  | [] => (w, [])
  | change :: rest =>
      let '(w, change) := rename_body i change w in
      let '(w, rest) := rename_from (S i) rest w in
      (w, change :: rest)
  end.

(** [rename]: the changes are updated in place, and the package variable
    [errs] is what is returned. *)
Definition rename (changes : list Change) (w : World) : World * list Change * slice nat :=
  let '(w, changes) := rename_from 0 changes w in
  (w, changes, errs w).

(** The loop of [backupChanges] that removes the changes that errored
    out, with [k = i + 1]. *)
Fixpoint remove_errored (k : nat) (successfulChanges : list Change) : list Change :=
  match k with
  | 0 => successfulChanges
  | S i =>
      remove_errored i
        (match successfulChanges !! i with
         | Some change =>
             if decide (Error change ≠ None)
             then take i successfulChanges ++ drop (S i) successfulChanges
             else successfulChanges
         | None => successfulChanges
         end)
  end.

(** The name of the backup file of a working directory. *)
Definition backup_filename (cwd : string) : string :=
  let workingDir := strings.ReplaceAll cwd filepath.Separator "_" in
  let workingDir :=
    if runtime.GOOS_is_Windows then strings.ReplaceAll workingDir ":" "_"
    else workingDir in
  workingDir +:+ ".json".

(** [backupChanges].  The call of [GetOutput] is the one of the source,
    which passes no indices of failures. *)
Definition backupChanges (conf : config.Config) (changes : list Change) (cwd : string)
    (w : World) : World * option error :=
  let filename := backup_filename cwd in
  match xdg.DataFile (data w) (filepath.Join ["f2"; "backups"; filename]) with
  | (_, Some err) => (w, Some err)
  | (backupFilePath, None) =>
      (* Create or truncate backupFile *)
      match xdg.Create (data w) backupFilePath with
      | (_, Some err) => (w, Some err)
      | (st, None) =>
          let w := with_data w st in
          let successfulChanges := changes in
          (* remove files that errored out *)
          let successfulChanges := remove_errored (length successfulChanges) successfulChanges in
          match internaljson.GetOutput conf (conflicts w) (Some successfulChanges) None with
          | (_, Some err) => (w, Some err)
          | (b, None) =>
              let writer := bufio.NewWriter backupFilePath in
              match bufio.Write writer [b] with
              | (_, Some err) => (w, Some err)
              | (writer, None) =>
                  let '(_, st, err) := bufio.Flush writer (data w) in
                  (with_data w st, err)
              end
          end
      end
  end.

Section sorted.
Context `{!Sorts}.

Definition verbose_line (change : Change) : report.event :=
  let sourcePath := filepath.Join [BaseDir change; Source change] in
  let targetPath := filepath.Join [BaseDir change; Target change] in
  if decide (Error change ≠ None) then report.VerboseFailed sourcePath targetPath
  else report.VerboseRenamed sourcePath targetPath.

(** [commit]. *)
Definition commit (fileChanges : list Change) (conf : config.Config) (w : World)
  : World * list Change * slice nat :=
  let '(w, fileChanges, returned) := rename fileChanges w in
  let w := with_errs w returned in
  let w := if config.Verbose conf then print w (verbose_line <$> fileChanges) else w in
  let w :=
    if negb (config.Revert conf) then
      match backupChanges conf fileChanges (config.WorkingDir conf) w with
      | (w, Some err) => print w [report.BackupFailed err]
      | (w, None) => w
      end
    else w in
  let fileChanges :=
    if decide (0 < len (errs w))
    then SliceStable (λ compareElement1, bool_decide (Error compareElement1 = None)) fileChanges
    else fileChanges in
  (w, fileChanges, errs w).

(** [Rename]. *)
Definition Rename (conf : config.Config) (fileChanges : list Change) (w : World)
  : World * list Change * option error :=
  let fileChanges :=
    if config.IncludeDir conf then FilesBeforeDirs fileChanges (config.Revert conf)
    else fileChanges in
  if negb (config.Interactive conf) && negb (config.Exec conf) && negb (config.JSON conf)
  then (print w [report.NonInteractive fileChanges], fileChanges, None)
  else
    let w :=
      if config.JSON conf then print w [report.JSON fileChanges]
      else if config.Interactive conf then print w [report.Interactive fileChanges]
      else w in
    if negb (config.Exec conf) then (w, fileChanges, None)
    else
      let '(w, fileChanges, renameErrs) := commit fileChanges conf w in
      if negb (is_nil renameErrs) then (w, fileChanges, Some errRenameFailed)
      else (w, fileChanges, None).

(** The loop of [Undo] that swaps source and target. *)
Definition swap (ch : Change) : Change :=
  let target := Target ch in
  let source := Source ch in
  {| BaseDir := BaseDir ch; Source := target; Target := source; Error := Error ch |}.

(** [Undo]. *)
Definition Undo (conf : config.Config) (w : World) : World * option error :=
  let file := backup_filename (config.WorkingDir conf) in
  match xdg.SearchDataFile (data w) (filepath.Join ["f2"; "backups"; file]) with
  | (_, Some _) => (w, Some errNothingToUndo)
  | (backupFilePath, None) =>
      match xdg.ReadFile (data w) backupFilePath with
      | (_, Some err) => (w, Some err)
      | (fileBytes, None) =>
          match json.Unmarshal fileBytes with
          | inl err => (w, Some err)
          | inr v =>
              match internaljson.unmarshal_Changes v with
              | inl err => (w, Some err)
              | inr o_Changes =>
                  let changes := swap <$> elems o_Changes in
                  (* Always sort files before directories when undoing an operation *)
                  let changes := FilesBeforeDirs changes (config.Revert conf) in
                  match Rename conf changes w with
                  | (w, changes, Some _) =>
                      (print w [report.NonInteractive changes], Some errUndoFailed)
                  | (w, _, None) =>
                      if config.Exec conf then
                        match xdg.Remove (data w) backupFilePath with
                        | (_, Some _) => (w, Some (errBackupFileRemovalFailed backupFilePath))
                        | (st, None) => (with_data w st, None)
                        end
                      else (w, None)
                  end
              end
          end
      end
  end.

End sorted.

End rename.

(** ** Package find *)

Module find.

Import os.

(** [internalpath.Collection]: the entries found, by directory. *)
Abbreviation Collection := (gmap string (list DirEntry)).

Definition dotCharacter : nat := 46.

(** Modelled from the spec: [isHidden] is not under src/; on a POSIX
    system a file is hidden when its name starts with a dot. *)
Definition isHidden (filename baseDir : string) : bool * option error :=
  match filename with
  | String a _ => (bool_decide (nat_of_ascii a = dotCharacter), None)
  | EmptyString => (false, None)
  end.

Fixpoint removeHidden (de : list DirEntry) (baseDir : string)
  : list DirEntry * option error :=
  match de with
  | [] => ([], None)
  | e :: rest =>
      match isHidden (Name e) baseDir with
      | (_, Some err) => ([], Some err)
      | (r, None) =>
          match removeHidden rest baseDir with
          | (_, Some err) => ([], Some err)
          | (ret, None) => (if r then ret else e :: ret, None)
          end
      end
  end.

(** The variables of [walk]. *)
Record state := {
  paths : Collection;
  recursedPaths : list string;
  currentDepth : Z;
  currentLevel : Collection;
}.

(** The loop over the entries of one directory: the contents of each of
    its subdirectories are read into the current level. *)
Fixpoint read_subdirs (tree : node) (dir : string) (dirContents : list DirEntry)
    (level : Collection) : Collection * option error :=
  match dirContents with
  | [] => (level, None)
  | entry :: rest =>
      if EntryIsDir entry then
        let fp := filepath.Join [dir; Name entry] in
        match ReadDir tree fp with
        | (_, Some err) => (level, Some err)
        | (dirEntry, None) => read_subdirs tree dir rest (<[fp := dirEntry]> level)
        end
      else read_subdirs tree dir rest level
  end.

(** The loop over the directories of the collection, in the order [items]
    lists them. *)
Fixpoint expand (tree : node) (includeHidden : bool)
    (items : list (string * list DirEntry)) (recursed : list string)
    (level : Collection) : list string * Collection * option error :=
  match items with
  | [] => (recursed, level, None)
  | (dir, dirContents) :: rest =>
      if bool_decide (dir ∈ recursed) then expand tree includeHidden rest recursed level
      else
        match (if includeHidden then (dirContents, None) else removeHidden dirContents dir) with
        | (_, Some err) => (recursed, level, Some err)
        | (dirContents, None) =>
            match read_subdirs tree dir dirContents level with
            | (level, Some err) => (recursed, level, Some err)
            | (level, None) =>
                expand tree includeHidden rest (recursed ++ [dir]) level
            end
        end
  end.

(** What one pass through the code at the label [loop] ends in: the jump
    back to the label, or the return of [walk]. *)
Inductive next :=
| Again (st : state)
| Return (st : state) (err : option error).

(** One pass.  Go ranges over a map in an order of its choice; the pass
    takes the directories in the order of [map_to_list]. *)
Definition pass (tree : node) (maxDepth : Z) (includeHidden : bool) (st : state) : next :=
  match expand tree includeHidden (map_to_list (paths st)) (recursedPaths st) (currentLevel st) with
  | (recursed, level, Some err) =>
      Return {| paths := paths st; recursedPaths := recursed;
                currentDepth := currentDepth st; currentLevel := level |} (Some err)
  | (recursed, level, None) =>
      (* if there are directories in the current level store each
         directory entry and empty the currentLevel *)
      if decide (0 < size level) then
        let st' := {| paths := level ∪ paths st; recursedPaths := recursed;
                      currentDepth := (currentDepth st + 1)%Z; currentLevel := ∅ |} in
        if negb (bool_decide (0 < maxDepth)%Z && bool_decide (currentDepth st' = maxDepth))
        then Again st'
        else Return st' None
      else
        Return {| paths := paths st; recursedPaths := recursed;
                  currentDepth := currentDepth st; currentLevel := level |} None
  end.

(** At most [fuel] passes. *)
Fixpoint walk_from (fuel : nat) (tree : node) (maxDepth : Z) (includeHidden : bool)
    (st : state) : option (state * option error) :=
  match fuel with
  | 0 => None
  | S fuel' =>
      match pass tree maxDepth includeHidden st with
      | Again st' => walk_from fuel' tree maxDepth includeHidden st'
      | Return st' err => Some (st', err)
      end
  end.

(** [walk]: the collection is updated in place; the state at the return
    holds it, with the directories expanded and the levels counted. *)
Definition walk (fuel : nat) (tree : node) (paths : Collection) (maxDepth : Z)
    (includeHidden : bool) : option (state * option error) :=
  walk_from fuel tree maxDepth includeHidden
    {| paths := paths; recursedPaths := []; currentDepth := 0; currentLevel := ∅ |}.

(** The loop of [searchPaths] over the paths given. *)
Fixpoint seed (tree : node) (pathsToSearch : list string) (paths : Collection)
  : Collection * option error :=
  match pathsToSearch with
  | [] => (paths, None)
  | path :: rest =>
      let path := filepath.Clean path in
      (* Skip paths that have already been processed *)
      if decide (is_Some (paths !! path)) then seed tree rest paths
      else
        match Stat tree path with
        | (Some fileInfo, None) =>
            if EntryIsDir fileInfo then
              match ReadDir tree path with
              | (_, Some err) => (paths, Some err)
              | (entries, None) => seed tree rest (<[path := entries]> paths)
              end
            else
              let dir := filepath.Dir path in
              match ReadDir tree dir with
              | (_, Some err) => (paths, Some err)
              | (dirEntry, None) =>
                  let present := paths !!! dir in
                  match List.find (λ entry, bool_decide (Name entry = Name fileInfo)) dirEntry with
                  | Some entry =>
                      if existsb (λ e, bool_decide (Name e = Name fileInfo)) present
                      then seed tree rest paths
                      else seed tree rest (<[dir := present ++ [entry]]> paths)
                  | None => seed tree rest paths
                  end
              end
        | (_, Some err) => (paths, Some err)
        | (None, None) => (paths, Some ENOENT)
        end
  end.

(** [searchPaths]; [None] when [fuel] passes of [walk] are not enough. *)
Definition searchPaths (fuel : nat) (tree : node) (pathsToSearch : list string)
    (maxDepth : Z) (recursive includeHidden : bool)
  : option (option Collection * option error) :=
  let pathsToSearch :=
    if decide (length pathsToSearch = 0) then pathsToSearch ++ ["."] else pathsToSearch in
  match seed tree pathsToSearch ∅ with
  | (_, Some err) => Some (None, Some err)
  | (paths, None) =>
      if recursive then
        match walk fuel tree paths maxDepth includeHidden with
        | None => None
        | Some (_, Some err) => Some (None, Some err)
        | Some (st, None) => Some (Some (find.paths st), None)
        end
      else Some (Some paths, None)
  end.

Section filter.
Context `{!Patterns}.

(** The loop of [filterMatches] over the paths given, which looks for the
    hidden entry among them. *)
Fixpoint is_argument (entryAbsPath : string) (pathsToSearch : list string)
    (shouldSkip : bool) : bool * option error :=
  match pathsToSearch with
  | [] => (shouldSkip, None)
  | pathArg :: rest =>
      match filepath.Abs pathArg with
      | (_, Some err) => (shouldSkip, Some err)
      | (argAbsPath, None) =>
          is_argument entryAbsPath rest
            (if strings.EqualFold entryAbsPath argAbsPath then false else shouldSkip)
      end
  end.

(** Whether the loop over the entries goes on to the next entry because
    the entry is hidden. *)
Definition skip_hidden (path filename : string) (pathsToSearch : list string)
    (includeHidden : bool) : bool * option error :=
  if negb includeHidden then
    match isHidden filename path with
    | (_, Some err) => (false, Some err)
    | (entryIsHidden, None) =>
        (* Ensure file arguments are not affected *)
        if entryIsHidden then
          match filepath.Abs (filepath.Join [path; filename]) with
          | (_, Some err) => (false, Some err)
          | (entryAbsPath, None) => is_argument entryAbsPath pathsToSearch true
          end
        else (false, None)
    end
  else (false, None).

(** The loop of [filterMatches] over the entries of the directory [path].
    [filteredDirEntry] starts as [dirEntry[:0]] and so shares the array of
    [dirEntry]: an [append] writes at an index the loop has read already.
    The collection holds the slice of the last [pathsToFilter[path] =
    filteredDirEntry]; no [append] is done without this assignment after
    it, so that the collection never holds a slice whose array was written
    behind its back. *)
Fixpoint filter_entries (path : string) (pathsToSearch : list string)
    (searchRegex excludeMatchRegex : regexp.Regexp) (excludeFilter : string)
    (includeDir includeHidden onlyDir ignoreExt : bool)
    (dirEntry filteredDirEntry : list DirEntry) (pathsToFilter : Collection)
  : list DirEntry * Collection * option error :=
  match dirEntry with
  | [] => (filteredDirEntry, pathsToFilter, None)
  | entry :: rest =>
      let continue :=
        filter_entries path pathsToSearch searchRegex excludeMatchRegex excludeFilter
          includeDir includeHidden onlyDir ignoreExt rest in
      let filename := Name entry in
      let entryIsDir := EntryIsDir entry in
      if entryIsDir && negb includeDir then continue filteredDirEntry pathsToFilter
      else if onlyDir && negb entryIsDir then continue filteredDirEntry pathsToFilter
      else
        match skip_hidden path filename pathsToSearch includeHidden with
        | (_, Some err) => (filteredDirEntry, pathsToFilter, Some err)
        | (true, None) => continue filteredDirEntry pathsToFilter
        | (false, None) =>
            let filename :=
              if ignoreExt && negb entryIsDir then FilenameWithoutExtension filename
              else filename in
            if negb (bool_decide (excludeFilter = EmptyString))
               && regexp.MatchString excludeMatchRegex filename
            then continue filteredDirEntry pathsToFilter
            else
              let matched := regexp.MatchString searchRegex filename in
              let filteredDirEntry :=
                if matched then filteredDirEntry ++ [entry] else filteredDirEntry in
              continue filteredDirEntry (<[path := filteredDirEntry]> pathsToFilter)
        end
  end.

(** The loop of [filterMatches] over the directories of the collection, in
    the order [items] lists them. *)
Fixpoint filter_dirs (pathsToSearch : list string)
    (searchRegex excludeMatchRegex : regexp.Regexp) (excludeFilter : string)
    (includeDir includeHidden onlyDir ignoreExt : bool)
    (items : list (string * list DirEntry)) (pathsToFilter : Collection)
  : Collection * option error :=
  match items with
  | [] => (pathsToFilter, None)
  | (path, dirEntry) :: rest =>
      match filter_entries path pathsToSearch searchRegex excludeMatchRegex excludeFilter
              includeDir includeHidden onlyDir ignoreExt dirEntry [] pathsToFilter with
      | (_, pathsToFilter, Some err) => (pathsToFilter, Some err)
      | (filteredDirEntry, pathsToFilter, None) =>
          let pathsToFilter :=
            if decide (length filteredDirEntry = 0) then delete path pathsToFilter
            else pathsToFilter in
          filter_dirs pathsToSearch searchRegex excludeMatchRegex excludeFilter
            includeDir includeHidden onlyDir ignoreExt rest pathsToFilter
      end
  end.

(** [filterMatches]: the collection is filtered in place; what is returned
    here is the collection it leaves, with the error.  The directories are
    taken in the order of [map_to_list], as in [walk]. *)
Definition filterMatches (pathsToFilter : Collection) (pathsToSearch : list string)
    (searchRegex : regexp.Regexp) (excludeFilterInput : list string)
    (includeDir includeHidden onlyDir ignoreExt : bool) : Collection * option error :=
  let excludeFilter := strings.Join excludeFilterInput "|" in
  match Compile excludeFilter with
  | inl err => (pathsToFilter, Some err)
  | inr excludeMatchRegex =>
      filter_dirs pathsToSearch searchRegex excludeMatchRegex excludeFilter
        includeDir includeHidden onlyDir ignoreExt (map_to_list pathsToFilter) pathsToFilter
  end.

(** [handleCSV] reads the CSV file with [encoding/csv] and stores what it
    finds in the configuration through setters that are not under src/; it
    is not modelled, and stands here for what it returns on a tree. *)
Variable handleCSV :
  node → string → list string → list string → option Collection * option error.

(** [Find]; [None] when [fuel] passes of [walk] are not enough. *)
Definition Find (fuel : nat) (tree : node) (conf : findconfig.Config)
  : option (option Collection * option error) :=
  if negb (bool_decide (findconfig.CSVFilename conf = EmptyString)) then
    Some (handleCSV tree (findconfig.CSVFilename conf) (findconfig.FindSlice conf)
            (findconfig.ReplacementSlice conf))
  else
    match searchPaths fuel tree (findconfig.PathsToFilesOrDirs conf)
            (findconfig.MaxDepth conf) (findconfig.Recursive conf)
            (findconfig.IncludeHidden conf) with
    | None => None
    | Some (_, Some err) => Some (None, Some err)
    | Some (paths, None) =>
        (* [searchPaths] returns no nil collection without an error; one
           would be filtered as the empty collection is *)
        match filterMatches (default ∅ paths) (findconfig.PathsToFilesOrDirs conf)
                (findconfig.SearchRegex conf) (findconfig.ExcludeFilter conf)
                (findconfig.IncludeDir conf) (findconfig.IncludeHidden conf)
                (findconfig.OnlyDir conf) (findconfig.IgnoreExt conf) with
        | (_, Some err) => Some (None, Some err)
        | (paths, None) => Some (Some paths, None)
        end
    end.

End filter.

End find.

(** ** Notions of the specification *)

Module spec.

Import file.

(** What the calls of the operating system made for one change come to:
    nothing when the change is skipped as unchanged, else the world the
    calls leave and the error of the call that failed, the creation of the
    directories of the target included. *)
Definition attempt (change : Change) (w : World) : option (World * option error) :=
  let sourcePath := filepath.Join [BaseDir change; Source change] in
  let targetPath := filepath.Join [BaseDir change; Target change] in
  if decide (sourcePath = targetPath) then None
  else
    let twoStep := strings.EqualFold sourcePath targetPath in
    let w1 := if twoStep then (UnixNano w).2 else w in
    let dest :=
      if twoStep
      then filepath.Join [BaseDir change; "__" +:+ pretty (clock w) +:+ "__" +:+ Target change]
      else targetPath in
    let created :=
      if strings.Contains (Target change) "/"
         || strings.Contains (Target change) "\" && runtime.GOOS_is_Windows
      then os.MkdirAll (fs w1) (filepath.Join [BaseDir change; filepath.Dir (Target change)])
      else (fs w1, None) in
    match created with
    | (_, Some err) => Some (w1, Some err)
    | (tree, None) =>
        match os.Rename tree sourcePath dest with
        | (tree, Some err) => Some (with_fs w1 tree, Some err)
        | (tree, None) =>
            if twoStep then
              let '(tree, err) := os.Rename tree dest targetPath in
              Some (with_fs w1 tree, err)
            else Some (with_fs w1 tree, None)
        end
    end.

(** The error of the attempt, if any. *)
Definition failure (change : Change) (w : World) : option error :=
  match attempt change w with
  | Some (_, Some err) => Some err
  | _ => None
  end.

(** The world in which the change at index [i] of a batch is reached. *)
Definition world_at (changes : list Change) (i : nat) (w : World) : World :=
  (rename.rename_from 0 (take i changes) w).1.

(** The positions, counted from [i], of the changes whose attempt fails
    when the batch is run from the world [w]. *)
Fixpoint failures_from (i : nat) (changes : list Change) (w : World) : list nat :=
  match changes with
  | [] => []
  | change :: rest =>
      let w' := (rename.rename_body i change w).1 in
      match failure change w with
      | Some _ => i :: failures_from (S i) rest w'
      | None => failures_from (S i) rest w'
      end
  end.

(** The path of the backup file of a working directory. *)
Definition backup_path (st : xdg.Store) (cwd : string) : string :=
  filepath.Join [xdg.DataHome st; filepath.Join ["f2"; "backups"; rename.backup_filename cwd]].

(** The snapshot of a batch, in the words of the specification: the
    working directory, the date, the dry-run flag, the conflict report and
    the changes that carry no error, in the order of the batch. *)
Definition snapshot (conf : config.Config) (conflicts : list (string * json.value))
    (changes : list Change) : internaljson.Output :=
  {| internaljson.Conflicts := conflicts;
     internaljson.WorkingDir := config.WorkingDir conf;
     internaljson.Date := config.Date conf;
     internaljson.Changes := Some (filter (λ change, Error change = None) changes);
     internaljson.Errors := None;
     internaljson.DryRun := negb (config.Exec conf) |}.

(** The file a snapshot is persisted as: one document, indented by four
    spaces, readable by its owner. *)
Definition snapshot_file (out : internaljson.Output) : xdg.datafile :=
  {| xdg.readable := true;
     xdg.content := [json.MarshalIndent (internaljson.marshal out) EmptyString "    "] |}.

(** The changes recorded in the bytes of a backup file. *)
Definition recorded (fileBytes : list json.text) : error + list Change :=
  match json.Unmarshal fileBytes with
  | inl err => inl err
  | inr v =>
      match internaljson.unmarshal_Changes v with
      | inl err => inl err
      | inr changes => inr (elems changes)
      end
  end.

(** [vacant t q]: nothing is at the path [q] of the tree [t], and the
    parent of [q] is a directory of [t]. *)
Fixpoint vacant (t : os.node) (q : list string) {struct q} : Prop :=
  match q, t with
  | [c], os.Dir es => es !! c = None
  | c :: q', os.Dir es =>
      match es !! c with
      | Some n => vacant n q'
      | None => False
      end
  | _, _ => False
  end.


(** Neither path is at or below the other. *)
Definition apart (p q : list string) : Prop :=
  ¬ p `prefix_of` q ∧ ¬ q `prefix_of` p.

(** A move of the entry at one path of the tree to another path. *)
Definition step : Type := list string * list string.

Definition back (s : step) : step := (s.2, s.1).






(** The move a change asks for: from its joined source path to its joined
    target path, as the operating system resolves them. *)
Definition step_of (change : Change) : step :=
  (os.resolve (filepath.Join [BaseDir change; Source change]),
   os.resolve (filepath.Join [BaseDir change; Target change])).



(** What a pass leaves: the directories expanded are still without
    repetition; the depth is the same, with the same collection, or one
    more; a key of the collection was there before or is the path of a
    subdirectory listed in it, with the entries read for it. *)
Definition pass_leaves (tree : os.node) (st st' : find.state) : Prop :=
  (NoDup (find.recursedPaths st) → NoDup (find.recursedPaths st'))
  ∧ ((find.currentDepth st' = find.currentDepth st ∧ find.paths st' = find.paths st)
     ∨ (find.currentDepth st' = (find.currentDepth st + 1)%Z ∧ find.currentLevel st' = ∅))
  ∧ ∀ k v, find.paths st' !! k = Some v →
      find.paths st !! k = Some v
      ∨ ∃ dir dirContents entry,
          find.paths st !! dir = Some dirContents ∧ entry ∈ dirContents
          ∧ os.EntryIsDir entry = true
          ∧ k = filepath.Join [dir; os.Name entry] ∧ os.ReadDir tree k = (v, None).


Section undo.
Context `{!Sorts}.

(** The backup file [Undo] finds and the changes recorded in it, or the
    error that ends [Undo] before anything is renamed. *)
Definition loaded (conf : config.Config) (w : World) : error + (string * list Change) :=
  let relPath := filepath.Join ["f2"; "backups"; rename.backup_filename (config.WorkingDir conf)] in
  match xdg.SearchDataFile (data w) relPath with
  | (_, Some _) => inl errNothingToUndo
  | (backupFilePath, None) =>
      match xdg.ReadFile (data w) backupFilePath with
      | (_, Some err) => inl err
      | (fileBytes, None) =>
          match recorded fileBytes with
          | inl err => inl err
          | inr changes => inr (backupFilePath, changes)
          end
      end
  end.

(** The world [commit] starts in, after [Rename] has printed what the
    configuration asks for. *)
Definition announced (conf : config.Config) (changes : list Change) (w : World) : World :=
  if config.JSON conf then print w [report.JSON changes]
  else if config.Interactive conf then print w [report.Interactive changes]
  else w.

(** The inverse batch: the recorded changes with source and target
    swapped, as sorted on the way to [commit]. *)
Definition inverse_batch (conf : config.Config) (changes : list Change) : list Change :=
  let changes := FilesBeforeDirs (rename.swap <$> changes) (config.Revert conf) in
  if config.IncludeDir conf then FilesBeforeDirs changes (config.Revert conf) else changes.

(** The inverse commit: the call of [commit] that [Undo] comes to, with
    what it returns; nothing when [Undo] ends before it, or when the
    configuration does not ask for execution. *)
Definition inverse_commit (conf : config.Config) (w : World)
  : option (World * list Change * slice nat) :=
  match loaded conf w with
  | inl _ => None
  | inr (_, changes) =>
      if config.Exec conf then
        let changes := inverse_batch conf changes in
        let w :=
          if config.JSON conf then print w [report.JSON changes]
          else if config.Interactive conf then print w [report.Interactive changes]
          else w in
        Some (rename.commit changes conf w)
      else None
  end.

End undo.

Section filtering.
Context `{!Patterns}.

(** The name an entry is matched by: its name, without the extension when
    extensions are ignored and the entry is no directory. *)
Definition matched_name (ignoreExt : bool) (entry : os.DirEntry) : string :=
  if ignoreExt && negb (os.EntryIsDir entry) then FilenameWithoutExtension (os.Name entry)
  else os.Name entry.

(** Whether one of the paths given is the path of the entry, up to the
    case of letters. *)
Definition named_by (pathsToSearch : list string) (path : string) (entry : os.DirEntry)
  : bool :=
  existsb (λ pathArg,
             strings.EqualFold (filepath.Abs (filepath.Join [path; os.Name entry])).1
                               (filepath.Abs pathArg).1)
          pathsToSearch.

(** The entries of the directory [path] that the filter keeps: the
    directories only when they are included, the files only when not
    directories alone are asked for, the hidden ones only when hidden
    entries are included or when one of the paths given names them, none
    that the exclusion pattern matches unless it is empty, and only those
    the search pattern matches. *)
Definition survives (pathsToSearch : list string)
    (searchRegex excludeMatchRegex : regexp.Regexp) (excludeFilter : string)
    (includeDir includeHidden onlyDir ignoreExt : bool)
    (path : string) (entry : os.DirEntry) : bool :=
  (negb (os.EntryIsDir entry) || includeDir)
  && (negb onlyDir || os.EntryIsDir entry)
  && (includeHidden || negb (find.isHidden (os.Name entry) path).1
      || named_by pathsToSearch path entry)
  && negb (negb (bool_decide (excludeFilter = EmptyString))
           && regexp.MatchString excludeMatchRegex (matched_name ignoreExt entry))
  && regexp.MatchString searchRegex (matched_name ignoreExt entry).

(** What the filter leaves of the entries of a directory: nothing when no
    entry survives. *)
Definition filtered_entries (pathsToSearch : list string)
    (searchRegex excludeMatchRegex : regexp.Regexp) (excludeFilter : string)
    (includeDir includeHidden onlyDir ignoreExt : bool)
    (path : string) (dirEntry : list os.DirEntry) : option (list os.DirEntry) :=
  let kept := filter (λ e, survives pathsToSearch searchRegex excludeMatchRegex excludeFilter
                             includeDir includeHidden onlyDir ignoreExt path e) dirEntry in
  if decide (length kept = 0) then None else Some kept.

End filtering.

Section discovery.
Variables (tree : os.node) (includeHidden : bool).

(** [listed paths]: every directory of the collection can be read, its
    entries in the collection are entries of the directory, and no name is
    there twice. *)
Definition listed (paths : find.Collection) : Prop :=
  ∀ k l, paths !! k = Some l →
    (os.ReadDir tree k).2 = None
    ∧ (∀ e, e ∈ l → e ∈ (os.ReadDir tree k).1)
    ∧ NoDup (os.Name <$> l).

(** [full paths]: the collection holds, for each of its directories, the
    entries [ReadDir] gives. *)
Definition full (paths : find.Collection) : Prop :=
  ∀ k v, paths !! k = Some v → os.ReadDir tree k = (v, None).

(** [shown dir e]: the walk looks at the entry [e] of [dir], a directory
    that is not hidden unless hidden entries are included. *)
Definition shown (dir : string) (e : os.DirEntry) : Prop :=
  os.EntryIsDir e = true ∧ (includeHidden = false → (find.isHidden (os.Name e) dir).1 = false).

(** [closed_at paths k]: the subdirectories the walk looks at among the
    entries of [k] are directories of the collection. *)
Definition closed_at (paths : find.Collection) (k : string) : Prop :=
  ∀ v e, paths !! k = Some v → e ∈ v → shown k e →
    is_Some (paths !! filepath.Join [k; os.Name e]).

(** What holds of the variables of a walk without a bound over full
    listings whenever the label is reached. *)
Definition complete_so_far (st : find.state) : Prop :=
  find.currentLevel st = ∅
  ∧ full (find.paths st)
  ∧ ∀ k, k ∈ find.recursedPaths st →
      is_Some (find.paths st !! k) ∧ closed_at (find.paths st) k.

End discovery.

End spec.

(** ** Sample inputs *)

Module examples.

Import os file.

Definition store : xdg.Store :=
  {| xdg.DataHome := "/home/u/.local/share"; xdg.files := ∅;
     xdg.dirs_creatable := true; xdg.writable := true |}.

(** A fresh process started on the tree [tree], at nanosecond 42. *)
Definition world (tree : node) : World :=
  {| fs := tree; data := store; errs := None; clock := 42;
     conflicts := []; printed := [] |}.

Definition conf (exec revert : bool) : config.Config :=
  {| config.WorkingDir := "/work"; config.Date := "2024-05-01T10:00:00Z";
     config.Exec := exec; config.Revert := revert; config.IncludeDir := false;
     config.Interactive := false; config.JSON := false; config.Verbose := false |}.

Definition change (baseDir source target : string) : Change :=
  {| BaseDir := baseDir; Source := source; Target := target; Error := None |}.

(** Sorting functions that leave a batch as it is, as a stable sort does
    with a batch of files of one directory. *)
Definition sorts : Sorts :=
  {| FilesBeforeDirs := λ changes _, changes;
     FilesBeforeDirs_perm := λ changes _, reflexivity changes;
     SliceStable := λ _ changes, changes |}.

(** A process whose data directory holds the backup of an earlier batch
    run in [/work]. *)
Definition world_with_backup (tree : node) : World :=
  with_data (world tree)
    (xdg.with_files store
       {[ "/home/u/.local/share/f2/backups/_work.json" :=
            spec.snapshot_file
              (spec.snapshot (conf true false) [] [change EmptyString "old" "new"]) ]}).

(** [a.txt] alone. *)
Definition one_file : node := Dir {[ "a.txt" := File "x" ]}.

(** [a.txt] and [c.txt]. *)
Definition two_files : node := Dir {[ "a.txt" := File "x"; "c.txt" := File "y" ]}.

(** [d/sub/file.txt]. *)
Definition nested : node :=
  Dir {[ "d" := Dir {[ "sub" := Dir {[ "file.txt" := File "x" ]} ]} ]}.

(** Three levels of directories below the root, and a hidden directory. *)
Definition deep : node :=
  Dir {[ "a" := Dir {[ "b" := Dir {[ "c" := Dir {[ "deep" := File "z" ]} ]};
                       "f" := File "x" ]};
         "c" := File "y";
         ".h" := Dir {[ "hid" := Dir ∅ ]} ]}.

(** Patterns for the examples: a pattern is taken literally and matches
    the names that start with it; a pattern with an opening parenthesis
    does not compile.  Names are taken to have no extension. *)
Definition patterns : Patterns :=
  {| Compile pattern :=
       if strings.Contains pattern "(" then inl EINVAL
       else inr {| regexp.MatchString name := String.prefix pattern name |};
     FilenameWithoutExtension name := name |}.

End examples.

(** * Properties *)

#[global] Arguments filepath.Join : simpl never.
#[global] Arguments filepath.Clean : simpl never.
#[global] Arguments filepath.Dir : simpl never.
#[global] Arguments strings.EqualFold : simpl never.
#[global] Arguments strings.Contains : simpl never.
#[global] Arguments os.Rename : simpl never.
#[global] Arguments os.MkdirAll : simpl never.
#[global] Arguments os.ReadDir : simpl never.
#[global] Arguments os.resolve : simpl never.

Section rename_loop.

Import file rename spec.

(** The body of the loop is the attempt followed by the bookkeeping of a
    failure. *)
Lemma rename_body_attempt i change w :
  rename_body i change w =
    match attempt change w with
    | None => (w, change)
    | Some (w', None) => (w', change)
    | Some (w', Some err) =>
        (with_errs w' (append (errs w) i), with_Error change (Some err))
    end.
Proof.
  unfold rename_body, attempt.
  destruct (decide _) as [|Hne]; [done|].
  destruct (strings.EqualFold _ _) eqn:Hfold; cbn [UnixNano snd].
  - destruct (_ || _); cbn.
    + destruct (os.MkdirAll _ _) as [t [e|]]; [done|].
      destruct (os.Rename t _ _) as [t1 [e1|]]; [done|].
      destruct (os.Rename t1 _ _) as [t2 [e2|]]; done.
    + destruct (os.Rename _ _ _) as [t1 [e1|]]; [done|].
      destruct (os.Rename t1 _ _) as [t2 [e2|]]; done.
  - destruct (_ || _); cbn.
    + destruct (os.MkdirAll _ _) as [t [e|]]; [done|].
      destruct (os.Rename t _ _) as [t1 [e1|]]; done.
    + destruct (os.Rename _ _ _) as [t1 [e1|]]; done.
Qed.

Lemma attempt_errs change w w' r :
  attempt change w = Some (w', r) → errs w' = errs w.
Proof.
  unfold attempt.
  destruct (decide _); [done|].
  destruct (strings.EqualFold _ _); cbn [UnixNano snd];
    destruct (_ || _);
    repeat (match goal with
            | |- context [os.MkdirAll ?a ?b] => destruct (os.MkdirAll a b) as [? [?|]]
            | |- context [os.Rename ?a ?b ?c] => destruct (os.Rename a b c) as [? [?|]]
            end);
    intros; by simplify_eq.
Qed.

(** The failure list after one pass of the body: one more index when the
    attempt failed, the same list otherwise. *)
Lemma rename_body_errs i change w :
  elems (errs (rename_body i change w).1) =
    elems (errs w) ++ (if failure change w is Some _ then [i] else []).
Proof.
  rewrite rename_body_attempt. unfold failure.
  destruct (attempt change w) as [[w' [e|]]|] eqn:H; cbn.
  - done.
  - by rewrite (attempt_errs _ _ _ _ H), app_nil_r.
  - by rewrite app_nil_r.
Qed.

Lemma rename_body_Error i change w :
  Error (rename_body i change w).2 =
    match failure change w with Some err => Some err | None => Error change end.
Proof.
  rewrite rename_body_attempt. unfold failure.
  by destruct (attempt change w) as [[w' [e|]]|].
Qed.

Lemma rename_from_cons i change rest w :
  rename_from i (change :: rest) w =
    ((rename_from (S i) rest (rename_body i change w).1).1,
     (rename_body i change w).2 :: (rename_from (S i) rest (rename_body i change w).1).2).
Proof.
  cbn [rename_from]. destruct (rename_body i change w) as [w1 c1]. cbn.
  by destruct (rename_from (S i) rest w1).
Qed.

Lemma rename_from_app i l1 l2 w :
  rename_from i (l1 ++ l2) w =
    ((rename_from (i + length l1) l2 (rename_from i l1 w).1).1,
     (rename_from i l1 w).2 ++ (rename_from (i + length l1) l2 (rename_from i l1 w).1).2).
Proof.
  revert i w. induction l1 as [|c l1 IH]; intros i w.
  - cbn. rewrite Nat.add_0_r. by destruct (rename_from i l2 w).
  - rewrite <- app_comm_cons, !rename_from_cons, IH. cbn.
    by rewrite Nat.add_succ_r.
Qed.

Lemma rename_from_length i l w : length (rename_from i l w).2 = length l.
Proof.
  revert i w. induction l as [|c l IH]; intros i w; [done|].
  rewrite rename_from_cons. cbn. by rewrite IH.
Qed.

(** No change is left out: the change at index [j] is handed to the body
    in the world its predecessors left. *)
Lemma rename_from_lookup i l w j change :
  l !! j = Some change →
  (rename_from i l w).2 !! j =
    Some (rename_body (i + j) change (rename_from i (take j l) w).1).2.
Proof.
  intros Hj.
  rewrite <- (take_drop_middle l j change Hj) at 1.
  assert (Hlen : length (take j l) = j).
  { apply length_take_le. apply lookup_lt_Some in Hj. lia. }
  rewrite rename_from_app. cbn [snd].
  rewrite lookup_app_r; rewrite rename_from_length, Hlen; [|lia].
  rewrite Nat.sub_diag, rename_from_cons. done.
Qed.

Lemma rename_from_step i l w j change :
  l !! j = Some change →
  (rename_from i (take (S j) l) w).1 =
    (rename_body (i + j) change (rename_from i (take j l) w).1).1.
Proof.
  intros Hj. rewrite (take_S_r _ _ _ Hj), rename_from_app. cbn [fst].
  rewrite length_take_le; [|apply lookup_lt_Some in Hj; lia].
  by rewrite rename_from_cons.
Qed.

(** The failure list grows by the positions whose attempt failed, in the
    order of the batch. *)
Lemma rename_from_errs i l w :
  elems (errs (rename_from i l w).1) = elems (errs w) ++ failures_from i l w.
Proof.
  revert i w. induction l as [|c l IH]; intros i w.
  - cbn. by rewrite app_nil_r.
  - rewrite rename_from_cons. cbn [fst failures_from].
    rewrite IH, rename_body_errs.
    destruct (failure c w); by rewrite <- app_assoc.
Qed.

Lemma failures_from_elem i l w j :
  j ∈ failures_from i l w ↔
    ∃ k change, j = i + k ∧ l !! k = Some change
                ∧ is_Some (failure change (rename_from i (take k l) w).1).
Proof.
  revert i w. induction l as [|c l IH]; intros i w.
  - cbn. split; [by intros ?%elem_of_nil|]. by intros (k & c & _ & ? & _).
  - cbn [failures_from]. split.
    + intros Hin.
      assert (Hcases : (j = i ∧ is_Some (failure c w))
                       ∨ j ∈ failures_from (S i) l (rename_body i c w).1).
      { destruct (failure c w); [|by right].
        apply elem_of_cons in Hin as [->|?]; [left|right]; eauto. }
      destruct Hcases as [[-> Hf]|Hin'].
      * exists 0, c. split; [lia|]. done.
      * apply IH in Hin' as (k & c' & -> & Hk & Hf).
        exists (S k), c'. split; [lia|]. split; [done|].
        by rewrite firstn_cons, rename_from_cons.
    + intros (k & c' & -> & Hk & Hf). destruct k as [|k].
      * cbn in Hk, Hf. simplify_eq. destruct Hf as [e ->]. rewrite Nat.add_0_r. left.
      * cbn in Hk. rewrite firstn_cons, rename_from_cons in Hf. cbn [fst] in Hf.
        assert (i + S k ∈ failures_from (S i) l (rename_body i c w).1).
        { apply IH. exists k, c'. split; [lia|]. done. }
        destruct (failure c w); [by right|done].
Qed.

(** In a fresh process, what [rename] returns is exactly the positions of
    the changes whose attempt failed, each once and in the order of the
    batch. *)
Lemma fresh_rename_returns_the_failures changes w :
  errs w = None →
  elems (rename changes w).2 = failures_from 0 changes w
  ∧ ∀ j, j ∈ elems (rename changes w).2 ↔
         ∃ change, changes !! j = Some change
                   ∧ is_Some (failure change (world_at changes j w)).
Proof.
  intros Hfresh. unfold rename.
  destruct (rename_from 0 changes w) as [w' changes'] eqn:Hrun. cbn [snd].
  assert (Hw' : w' = (rename_from 0 changes w).1) by by rewrite Hrun.
  assert (Helems : elems (errs w') = failures_from 0 changes w).
  { by rewrite Hw', rename_from_errs, Hfresh. }
  split; [done|]. intros j. rewrite Helems, failures_from_elem. split.
  - intros (k & change & -> & Hk & Hf). by exists change.
  - intros (change & Hj & Hf). by exists j, change.
Qed.

(** C2.  [rename] never stops early.  When the attempt for the change at
    index [i] fails with [err], the index is in the list returned, [err] is
    the [Error] of that change, no change is dropped, and every later change
    is handed to the body of the loop, in the world its predecessors left. *)
Theorem rename_is_fail_soft (changes : list Change) (w : World) (i : nat)
    (change : Change) (err : error) :
  changes !! i = Some change →
  failure change (world_at changes i w) = Some err →
  ∃ w' changes' returned,
    rename changes w = (w', changes', returned)
    ∧ i ∈ elems returned
    ∧ Error <$> changes' !! i = Some (Some err)
    ∧ length changes' = length changes
    ∧ ∀ j later, i < j → changes !! j = Some later →
        changes' !! j = Some (rename_body j later (world_at changes j w)).2
        ∧ world_at changes (S j) w = (rename_body j later (world_at changes j w)).1.
Proof.
  intros Hi Hfail. unfold rename, world_at in *.
  destruct (rename_from 0 changes w) as [w' changes'] eqn:Hrun.
  exists w', changes', (errs w'). split; [done|].
  assert (Hw' : w' = (rename_from 0 changes w).1) by by rewrite Hrun.
  assert (Hc' : changes' = (rename_from 0 changes w).2) by by rewrite Hrun.
  split; [|split; [|split]].
  - rewrite Hw', rename_from_errs. apply elem_of_app. right.
    apply failures_from_elem. exists i, change.
    split; [done|]. split; [done|]. by exists err.
  - rewrite Hc', (rename_from_lookup _ _ _ _ _ Hi). cbn.
    by rewrite rename_body_Error, Hfail.
  - by rewrite Hc', rename_from_length.
  - intros j later _ Hj. split.
    + by rewrite Hc', (rename_from_lookup _ _ _ _ _ Hj).
    + by rewrite (rename_from_step _ _ _ _ _ Hj).
Qed.


Lemma rename_is_fail_soft_witness :
  let changes := [examples.change EmptyString "missing" "b";
                  examples.change EmptyString "a.txt" "b.txt"] in
  let w := examples.world examples.one_file in
  changes !! 0 = Some (examples.change EmptyString "missing" "b")
  ∧ failure (examples.change EmptyString "missing" "b") (world_at changes 0 w) = Some ENOENT
  ∧ ∃ w' changes' returned,
      rename changes w = (w', changes', returned)
      ∧ 0 ∈ elems returned
      ∧ Error <$> changes' !! 0 = Some (Some ENOENT)
      ∧ length changes' = length changes
      ∧ ∀ j later, 0 < j → changes !! j = Some later →
          changes' !! j = Some (rename_body j later (world_at changes j w)).2
          ∧ world_at changes (S j) w = (rename_body j later (world_at changes j w)).1.
Proof.
  intros changes w.
  split; [reflexivity|]. split; [vm_compute; reflexivity|].
  apply (rename_is_fail_soft changes w 0 (examples.change EmptyString "missing" "b") ENOENT);
    [reflexivity|vm_compute; reflexivity].
Defined.



End rename_loop.

(** ** Claims settled by evaluation *)

Section evaluation.

Import file rename spec.

(** C3, at the input on which the code departs from it.  A first commit
    fails at index 0.  A second commit in the same process, whatever the
    sorting functions, renames its only change without a failure, and still
    returns the index 0 of the first; [Rename] then reports
    [errRenameFailed]. *)
Theorem stale_failures_are_returned :
  ∀ S : Sorts,
    let conf := examples.conf true false in
    let first := [examples.change EmptyString "missing" "b"] in
    let second := [examples.change EmptyString "a.txt" "b.txt"] in
    let w1 := (commit first conf (examples.world examples.one_file)).1.1 in
    (commit first conf (examples.world examples.one_file)).2 = Some [0]
    ∧ failures_from 0 second w1 = []
    ∧ (commit second conf w1).2 = Some [0]
    ∧ fs (commit second conf w1).1.1 = os.Dir {[ "b.txt" := os.File "x" ]}
    ∧ (Rename conf second w1).2 = Some errRenameFailed.
Proof. intros S. vm_compute. done. Qed.

(** C4, at the input on which the code departs from it.  For the change of
    case of [d/sub/file.txt], whose target [sub/FILE.txt] has a directory
    part, the intermediate path is the target with [__42__] put before its
    first component: it lies in [d/__42__sub], not in the directory [d/sub]
    of the target.  That directory does not exist, the first rename fails
    and the change is marked as failed. *)
Theorem case_change_below_a_directory_fails :
  let change := examples.change "d" "sub/file.txt" "sub/FILE.txt" in
  let w := examples.world examples.nested in
  let intermediate := filepath.Join ["d"; "__" +:+ pretty (clock w) +:+ "__" +:+ Target change] in
  strings.EqualFold (filepath.Join ["d"; Source change]) (filepath.Join ["d"; Target change]) = true
  ∧ intermediate = "d/__42__sub/FILE.txt"
  ∧ filepath.Dir intermediate = "d/__42__sub"
  ∧ filepath.Dir (filepath.Join ["d"; Target change]) = "d/sub"
  ∧ attempt change w = Some (with_clock w 43, Some ENOENT)
  ∧ rename [change] w
    = (with_errs (with_clock w 43) (Some [0]), [with_Error change (Some ENOENT)], Some [0]).
Proof. vm_compute. done. Qed.

(** The same change of case, asked for with [d/sub] as the base directory
    and a target without a directory part, goes through in two steps and
    leaves [FILE.txt] and no intermediate file. *)
Lemma case_change_in_place :
  let change := examples.change "d/sub" "file.txt" "FILE.txt" in
  let w := examples.world examples.nested in
  rename [change] w
  = (with_fs (with_clock w 43)
       (os.Dir {[ "d" := os.Dir {[ "sub" := os.Dir {[ "FILE.txt" := os.File "x" ]} ]} ]}),
     [change], None).
Proof. vm_compute. done. Qed.

(** C9, at the inputs on which the code departs from it.  For a batch
    without changes, [nil] or empty, the document [GetOutput] produces has
    no member [changes] at all. *)
Theorem empty_changes_are_left_out conf conflicts errs :
  let absent (t : json.text * option error) :=
    match json.body t.1 with
    | json.Object fields => json.member "changes" fields = None
    | _ => False
    end in
  absent (internaljson.GetOutput conf conflicts None errs)
  ∧ absent (internaljson.GetOutput conf conflicts (Some []) errs).
Proof.
  cbn. unfold internaljson.omitempty, json.member.
  split; repeat case_decide; cbn; try done.
Qed.

End evaluation.

(** ** The backup store *)

Section backup.

Import file rename spec.

Lemma remove_errored_take_drop k l :
  remove_errored k l = filter (λ change, Error change = None) (take k l) ++ drop k l.
Proof.
  revert l. induction k as [|i IH]; intros l.
  - cbn. by rewrite drop_0.
  - cbn [remove_errored]. destruct (l !! i) as [change|] eqn:Hi.
    + assert (Hlen : i < length l) by by eapply lookup_lt_Some.
      rewrite (take_S_r _ _ _ Hi), filter_app, <- app_assoc.
      case_decide as Herr.
      * rewrite IH. rewrite take_app_le, take_take, Nat.min_id by (rewrite length_take; lia).
        rewrite drop_app_ge by (rewrite length_take; lia).
        rewrite length_take, Nat.min_l, Nat.sub_diag, drop_0 by lia.
        rewrite filter_cons_False, filter_nil by done. done.
      * rewrite IH.
        rewrite filter_cons_True, filter_nil by done. cbn.
        by rewrite (drop_S _ _ _ Hi).
    + apply lookup_ge_None in Hi. rewrite IH.
      rewrite !take_ge, !drop_ge by lia. done.
Qed.

(** The loop of [backupChanges] keeps the changes without an error, in
    their order. *)
Lemma remove_errored_filter l :
  remove_errored (length l) l = filter (λ change, Error change = None) l.
Proof. by rewrite remove_errored_take_drop, firstn_all, drop_all, app_nil_r. Qed.

Lemma GetOutput_snapshot conf conflicts changes :
  internaljson.GetOutput conf conflicts
    (Some (filter (λ change, Error change = None) changes)) None
  = (json.MarshalIndent (internaljson.marshal (snapshot conf conflicts changes)) EmptyString "    ",
     None).
Proof. done. Qed.

(** With a data directory that can be written, [backupChanges] leaves the
    snapshot of the batch as the whole contents of the backup file. *)
Lemma backupChanges_writes conf changes cwd w :
  xdg.dirs_creatable (data w) = true →
  xdg.writable (data w) = true →
  backupChanges conf changes cwd w =
    (with_data w
       (xdg.with_files (data w)
          (<[backup_path (data w) cwd := snapshot_file (snapshot conf (conflicts w) changes)]>
             (xdg.files (data w)))),
     None).
Proof.
  intros Hdirs Hwr. unfold backupChanges, xdg.DataFile, xdg.Create.
  rewrite Hdirs, Hwr. cbn [data with_data conflicts].
  rewrite remove_errored_filter, GetOutput_snapshot.
  unfold bufio.Flush, xdg.write.
  cbn [bufio.NewWriter bufio.Write bufio.dest bufio.buf xdg.files xdg.with_files].
  rewrite lookup_insert_eq. cbn.
  rewrite insert_insert_eq. done.
Qed.

Lemma unmarshal_marshal_change change :
  file.unmarshal (file.marshal change) = inr (with_Error change None).
Proof. by destruct change. Qed.

Lemma unmarshal_marshal_changes l :
  Forall (λ change, Error change = None) l →
  internaljson.unmarshal_changes (file.marshal <$> l) = inr l.
Proof.
  induction 1 as [|c l Hc _ IH]; [done|].
  cbn [fmap list_fmap internaljson.unmarshal_changes].
  rewrite unmarshal_marshal_change. cbn in IH. rewrite IH.
  destruct c; cbn in *; by subst.
Qed.

(** Reading a persisted snapshot back gives the changes it was built from
    that carry no error. *)
Lemma recorded_snapshot conf conflicts changes :
  recorded (xdg.content (snapshot_file (snapshot conf conflicts changes)))
  = inr (filter (λ change, Error change = None) changes).
Proof.
  unfold recorded, snapshot_file. cbn [xdg.content json.Unmarshal json.MarshalIndent json.body].
  set (kept := filter _ changes).
  assert (Hkept : Forall (λ change, Error change = None) kept).
  { apply Forall_forall. intros c Hc. by apply list_elem_of_filter in Hc as [? _]. }
  unfold internaljson.unmarshal_Changes, internaljson.marshal, snapshot.
  cbn [internaljson.Conflicts internaljson.WorkingDir internaljson.Date
       internaljson.Changes internaljson.Errors internaljson.DryRun].
  fold kept. unfold internaljson.omitempty, json.member.
  rewrite !filter_app. 
  destruct (decide (length conflicts = 0));
    (destruct (decide (len (Some kept) = 0)) as [Hz|Hnz];
     [change (length kept = 0) in Hz; apply nil_length_inv in Hz; by rewrite Hz
     |cbn; repeat (case_decide; try done); cbn; by rewrite unmarshal_marshal_changes]).
Qed.

Lemma attempt_frame change w w' r :
  attempt change w = Some (w', r) →
  data w' = data w ∧ conflicts w' = conflicts w ∧ printed w' = printed w.
Proof.
  unfold attempt.
  destruct (decide _); [done|].
  destruct (strings.EqualFold _ _); cbn [UnixNano snd];
    destruct (_ || _);
    repeat (match goal with
            | |- context [os.MkdirAll ?a ?b] => destruct (os.MkdirAll a b) as [? [?|]]
            | |- context [os.Rename ?a ?b ?c] => destruct (os.Rename a b c) as [? [?|]]
            end);
    intros; by simplify_eq.
Qed.

Lemma rename_body_frame i change w :
  data (rename_body i change w).1 = data w
  ∧ conflicts (rename_body i change w).1 = conflicts w
  ∧ printed (rename_body i change w).1 = printed w.
Proof.
  rewrite rename_body_attempt.
  destruct (attempt change w) as [[w' [e|]]|] eqn:H; [| |done];
    by apply attempt_frame in H.
Qed.

(** [rename] touches the tree, the failure list and the clock, and nothing
    else. *)
Lemma rename_from_frame i l w :
  data (rename_from i l w).1 = data w
  ∧ conflicts (rename_from i l w).1 = conflicts w
  ∧ printed (rename_from i l w).1 = printed w.
Proof.
  revert i w. induction l as [|c l IH]; intros i w; [done|].
  rewrite rename_from_cons. cbn [fst].
  destruct (IH (S i) (rename_body i c w).1) as (-> & -> & ->).
  apply rename_body_frame.
Qed.

(** C6.  With a data directory that can be written, [backupChanges]
    succeeds; the loop of the source keeps exactly the changes without an
    error, in their order; the backup file of the working directory then
    holds one document and nothing else, whatever it held before: the
    snapshot of these changes, indented by four spaces, all of it written
    through; reading the file back gives these changes; no other data file
    and nothing of the tree is touched. *)
Theorem backup_keeps_the_successful_changes (conf : config.Config)
    (changes : list Change) (cwd : string) (w : World) :
  xdg.dirs_creatable (data w) = true →
  xdg.writable (data w) = true →
  let kept := filter (λ change, Error change = None) changes in
  let backupFilePath := backup_path (data w) cwd in
  ∃ w',
    backupChanges conf changes cwd w = (w', None)
    ∧ remove_errored (length changes) changes = kept
    ∧ xdg.files (data w') !! backupFilePath
      = Some {| xdg.readable := true;
                xdg.content :=
                  [json.MarshalIndent
                     (internaljson.marshal (snapshot conf (conflicts w) changes))
                     EmptyString "    "] |}
    ∧ internaljson.Changes (snapshot conf (conflicts w) changes) = Some kept
    ∧ recorded ∘ xdg.content <$> xdg.files (data w') !! backupFilePath
      = Some (inr kept)
    ∧ (∀ other, other ≠ backupFilePath →
         xdg.files (data w') !! other = xdg.files (data w) !! other)
    ∧ fs w' = fs w.
Proof.
  intros Hdirs Hwr kept path. eexists. split; [by apply backupChanges_writes|].
  cbn [data with_data xdg.files xdg.with_files fs].
  rewrite lookup_insert_eq. split; [apply remove_errored_filter|].
  split; [done|]. split; [done|]. split.
  - cbn. f_equal. apply recorded_snapshot.
  - split; [|done]. intros other Hne. by rewrite lookup_insert_ne.
Qed.

Lemma backup_keeps_the_successful_changes_witness :
  let failed := with_Error (examples.change EmptyString "x" "y") (Some ENOENT) in
  let changes := [failed; examples.change EmptyString "old" "new"; failed] in
  let w := examples.world_with_backup examples.one_file in
  xdg.dirs_creatable (data w) = true
  ∧ xdg.writable (data w) = true
  ∧ ∃ w',
      backupChanges (examples.conf true false) changes "/work" w = (w', None)
      ∧ remove_errored (length changes) changes = [examples.change EmptyString "old" "new"]
      ∧ recorded ∘ xdg.content <$> xdg.files (data w') !! backup_path (data w) "/work"
        = Some (inr [examples.change EmptyString "old" "new"]).
Proof.
  split; [reflexivity|]. split; [reflexivity|].
  destruct (backup_keeps_the_successful_changes (examples.conf true false)
              [with_Error (examples.change EmptyString "x" "y") (Some ENOENT);
               examples.change EmptyString "old" "new";
               with_Error (examples.change EmptyString "x" "y") (Some ENOENT)]
              "/work" (examples.world_with_backup examples.one_file)
              eq_refl eq_refl) as (w' & Hrun & Hloop & _ & _ & Hread & _).
  exists w'. split; [exact Hrun|]. split; [exact Hloop|exact Hread].
Defined.

Section commit.
Context `{!Sorts}.

Lemma commit_data conf changes w :
  config.Revert conf = false →
  xdg.dirs_creatable (data w) = true →
  xdg.writable (data w) = true →
  data (commit changes conf w).1.1 =
    xdg.with_files (data w)
      (<[backup_path (data w) (config.WorkingDir conf) :=
           snapshot_file (snapshot conf (conflicts w) (rename changes w).1.2)]>
         (xdg.files (data w))).
Proof.
  intros Hrev Hdirs Hwr. unfold commit, rename.
  destruct (rename_from 0 changes w) as [w1 after] eqn:Hrun.
  destruct (rename_from_frame 0 changes w) as (Hd & Hc & _).
  rewrite Hrun in Hd, Hc. cbn [fst snd] in *.
  rewrite Hrev. cbn [negb].
  set (w2 := if config.Verbose conf then _ else _).
  assert (Hw2 : data w2 = data w ∧ conflicts w2 = conflicts w).
  { unfold w2. by destruct (config.Verbose conf). }
  destruct Hw2 as [Hd2 Hc2].
  rewrite backupChanges_writes by by rewrite Hd2.
  cbn. by rewrite Hd2, Hc2.
Qed.

(** C10.  In non-revert mode, with a data directory that can be written,
    [commit] leaves the snapshot of the batch it ran as the whole contents
    of the backup file of the working directory, whatever the outcome of the
    batch and whatever the file held before.  When every change of the batch
    failed, that snapshot has an empty list of changes, and reading the file
    back gives no change to undo. *)
Theorem commit_replaces_the_backup (conf : config.Config) (changes : list Change)
    (w : World) :
  config.Revert conf = false →
  xdg.dirs_creatable (data w) = true →
  xdg.writable (data w) = true →
  let after := (rename changes w).1.2 in
  let w' := (commit changes conf w).1.1 in
  let backupFilePath := backup_path (data w) (config.WorkingDir conf) in
  xdg.files (data w') !! backupFilePath
    = Some (snapshot_file (snapshot conf (conflicts w) after))
  ∧ ((∀ i change, changes !! i = Some change →
        is_Some (failure change (world_at changes i w))) →
     internaljson.Changes (snapshot conf (conflicts w) after) = Some []
     ∧ recorded (xdg.content (snapshot_file (snapshot conf (conflicts w) after))) = inr []).
Proof.
  intros Hrev Hdirs Hwr after w' path. split.
  - unfold w'. rewrite commit_data by done. cbn. by rewrite lookup_insert_eq.
  - intros Hall.
    assert (Hnone : filter (λ change, Error change = None) after = []).
    { destruct (filter _ after) as [|x rest] eqn:Hf; [done|exfalso].
      assert (Hx : x ∈ filter (λ change, Error change = None) after)
        by (rewrite Hf; left).
      apply list_elem_of_filter in Hx as [Herr [j Hj]%list_elem_of_lookup].
      unfold after, rename in Hj.
      destruct (rename_from 0 changes w) as [w1 after'] eqn:Hrun. cbn in Hj.
      assert (Hafter : after' = (rename_from 0 changes w).2) by by rewrite Hrun.
      assert (Hlt : j < length changes).
      { rewrite <- (rename_from_length 0 changes w), <- Hafter.
        by eapply lookup_lt_Some. }
      destruct (lookup_lt_is_Some_2 _ _ Hlt) as [c Hc].
      rewrite Hafter, (rename_from_lookup _ _ _ _ _ Hc) in Hj.
      simplify_eq. rewrite rename_body_Error in Herr.
      destruct (Hall j c Hc) as [e He]. unfold world_at in He.
      by rewrite He in Herr. }
    split.
    + unfold snapshot. cbn. by rewrite Hnone.
    + by rewrite recorded_snapshot, Hnone.
Qed.
End commit.

Lemma commit_replaces_the_backup_witness :
  let conf := examples.conf true false in
  let changes := [examples.change EmptyString "missing" "b"] in
  let w := examples.world_with_backup examples.one_file in
  let after := (rename changes w).1.2 in
  config.Revert conf = false
  ∧ xdg.dirs_creatable (data w) = true
  ∧ xdg.writable (data w) = true
  ∧ xdg.files (data (@commit examples.sorts changes conf w).1.1)
      !! backup_path (data w) (config.WorkingDir conf)
    = Some (snapshot_file (snapshot conf (conflicts w) after))
  ∧ internaljson.Changes (snapshot conf (conflicts w) after) = Some []
  ∧ recorded (xdg.content (snapshot_file (snapshot conf (conflicts w) after))) = inr [].
Proof.
  intros conf changes w after.
  split; [reflexivity|]. split; [reflexivity|]. split; [reflexivity|].
  destruct (@commit_replaces_the_backup examples.sorts conf changes w
              eq_refl eq_refl eq_refl) as [Hfile Hall].
  split; [exact Hfile|]. apply Hall.
  intros [|i] change Hi; [|discriminate].
  injection Hi as <-. vm_compute. eauto.
Defined.

End backup.

(** ** Undo *)

Section undo_results.

Import file rename spec.

Section undo.
Context `{!Sorts}.

Lemma Rename_exec conf changes w :
  config.Exec conf = true →
  Rename conf changes w =
    let changes :=
      if config.IncludeDir conf then FilesBeforeDirs changes (config.Revert conf)
      else changes in
    let w :=
      if config.JSON conf then print w [report.JSON changes]
      else if config.Interactive conf then print w [report.Interactive changes]
      else w in
    let '(w, changes, renameErrs) := commit changes conf w in
    (w, changes, if is_nil renameErrs then None else Some errRenameFailed).
Proof.
  intros Hexec. unfold Rename. rewrite Hexec. cbn [negb].
  rewrite andb_false_r, andb_false_l.
  destruct (commit _ _ _) as [[w1 cs] es]. by destruct (is_nil es).
Qed.

Lemma Rename_no_exec conf changes w :
  config.Exec conf = false → (Rename conf changes w).2 = None.
Proof.
  intros Hexec. unfold Rename. rewrite Hexec. cbn [negb].
  by destruct (negb (config.Interactive conf) && true && negb (config.JSON conf)).
Qed.

(** [Undo] in terms of what it loads and of the inverse commit. *)
Lemma Undo_cases conf w :
  match loaded conf w with
  | inl err => Undo conf w = (w, Some err)
  | inr (backupFilePath, changes) =>
      match inverse_commit conf w with
      | None => config.Exec conf = false ∧ (Undo conf w).2 = None
      | Some (w1, changes1, returned) =>
          config.Exec conf = true ∧
          if is_nil returned then
            match xdg.Remove (data w1) backupFilePath with
            | (_, Some _) => Undo conf w = (w1, Some (errBackupFileRemovalFailed backupFilePath))
            | (st, None) => Undo conf w = (with_data w1 st, None)
            end
          else Undo conf w = (print w1 [report.NonInteractive changes1], Some errUndoFailed)
      end
  end.
Proof.
  unfold inverse_commit, loaded, Undo, recorded.
  destruct (xdg.SearchDataFile _ _) as [path [e|]]; [done|].
  destruct (xdg.ReadFile _ _) as [bytes [e|]]; [done|].
  destruct (json.Unmarshal bytes) as [e|v]; [done|].
  destruct (internaljson.unmarshal_Changes v) as [e|o]; [done|].
  destruct (config.Exec conf) eqn:Hexec.
  - rewrite Rename_exec by done. unfold inverse_batch. cbn zeta.
    destruct (config.IncludeDir conf);
      destruct (commit _ _ _) as [[w1 cs] es]; (split; [done|]);
      destruct (is_nil es); try done; by destruct (xdg.Remove _ _) as [? [?|]].
  - split; [done|].
    pose proof (Rename_no_exec conf (FilesBeforeDirs (swap <$> elems o) (config.Revert conf)) w Hexec) as Hr.
    destruct (Rename _ _ _) as [[w1 cs] r]. cbn in Hr. by subst r.
Qed.


Lemma unmarshal_changes_error items err :
  internaljson.unmarshal_changes items = inl err → err = errJSONSyntax.
Proof.
  revert err. induction items as [|v items IH]; intros err; [done|].
  cbn [internaljson.unmarshal_changes].
  destruct (file.unmarshal v) as [e|c] eqn:Hv.
  - intros [= <-]. unfold file.unmarshal, file.string_member in Hv.
    repeat (match type of Hv with
            | context [match ?x with _ => _ end] => destruct x
            end; try done); by simplify_eq.
  - destruct (internaljson.unmarshal_changes items) as [e|cs]; [|done].
    intros [= <-]. by apply IH.
Qed.

Lemma recorded_error fileBytes err :
  recorded fileBytes = inl err → err = errJSONSyntax.
Proof.
  unfold recorded, json.Unmarshal, internaljson.unmarshal_Changes.
  destruct fileBytes as [|t [|t' rest]]; [by intros [= <-]| |by intros [= <-]].
  destruct (json.body t) as [| | | | |fields]; try by intros [= <-].
  destruct (json.member "changes" fields) as [[| | | |items|]|]; try by intros [= <-].
  destruct (internaljson.unmarshal_changes items) as [e|cs] eqn:Hitems; [|done].
  intros [= <-]. by eapply unmarshal_changes_error.
Qed.

(** What [Undo] loads: an error other than [errNothingToUndo] when the
    backup file exists and cannot be read or decoded. *)
Lemma loaded_cases conf w :
  let backupFilePath := backup_path (data w) (config.WorkingDir conf) in
  match loaded conf w with
  | inl err =>
      (err = errNothingToUndo ∧ xdg.files (data w) !! backupFilePath = None)
      ∨ ((err = ENOENT ∨ err = EACCES ∨ err = errJSONSyntax)
         ∧ is_Some (xdg.files (data w) !! backupFilePath))
  | inr (path, _) =>
      path = backupFilePath ∧ is_Some (xdg.files (data w) !! backupFilePath)
  end.
Proof.
  unfold loaded, backup_path, xdg.SearchDataFile, xdg.ReadFile. cbn zeta.
  destruct (xdg.files (data w) !! _) as [f|] eqn:Hf; cbn; [|by left].
  rewrite Hf. destruct (xdg.readable f); cbn.
  - destruct (recorded (xdg.content f)) as [e|cs] eqn:Hrec; cbn; [|eauto].
    right. apply recorded_error in Hrec as ->. eauto.
  - right. eauto.
Qed.

Lemma rename_body_errs_nonempty i change w :
  errs w ≠ Some [] → errs (rename_body i change w).1 ≠ Some [].
Proof.
  intros Hw. rewrite rename_body_attempt.
  destruct (attempt change w) as [[w' [e|]]|] eqn:Hatt; cbn; [|by rewrite (attempt_errs _ _ _ _ Hatt)|done].
  unfold append. intros [= Heq]. by destruct (elems (errs w)).
Qed.

(** The failure list is [nil] or holds an index: [append] is all that is
    done to it. *)
Lemma rename_from_errs_nonempty i l w :
  errs w ≠ Some [] → errs (rename_from i l w).1 ≠ Some [].
Proof.
  revert i w. induction l as [|c l IH]; intros i w Hw; [done|].
  rewrite rename_from_cons. cbn [fst]. by apply IH, rename_body_errs_nonempty.
Qed.

Lemma backupChanges_frame conf changes cwd w :
  errs (backupChanges conf changes cwd w).1 = errs w
  ∧ fs (backupChanges conf changes cwd w).1 = fs w
  ∧ printed (backupChanges conf changes cwd w).1 = printed w.
Proof.
  unfold backupChanges.
  destruct (xdg.DataFile _ _) as [path [e|]]; [done|].
  destruct (xdg.Create _ _) as [st [e|]]; [done|].
  destruct (internaljson.GetOutput _ _ _ _) as [b [e|]]; [done|].
  destruct (bufio.Write _ _) as [writer [e|]]; [done|].
  by destruct (bufio.Flush _ _) as [[? ?] ?].
Qed.

(** What [commit] returns is the failure list [rename] leaves, and the tree
    it leaves is the tree [rename] leaves. *)
Lemma commit_rename conf changes w :
  (commit changes conf w).2 = errs (rename_from 0 changes w).1
  ∧ fs (commit changes conf w).1.1 = fs (rename_from 0 changes w).1.
Proof.
  unfold commit, rename.
  destruct (rename_from 0 changes w) as [w1 after]. cbn [fst snd].
  set (w2 := if config.Verbose conf then _ else _).
  assert (Hw2 : errs w2 = errs w1 ∧ fs w2 = fs w1).
  { unfold w2. destruct (config.Verbose conf); by destruct w1. }
  destruct Hw2 as [He Hf].
  destruct (config.Revert conf); cbn [negb fst snd]; [done|].
  destruct (backupChanges_frame conf after (config.WorkingDir conf) w2) as (He' & Hf' & _).
  destruct (backupChanges _ _ _ _) as [w3 [e|]]; cbn in *; by rewrite He', Hf'.
Qed.

(** C7.  The results of [Undo] tell its outcomes apart.  It is
    [errNothingToUndo] exactly when the data directory has no backup file
    for the working directory; an unreadable or malformed file gives another
    error.  It is [errUndoFailed] exactly when the inverse commit returns a
    failure list with at least one index, and then the changes are reported
    before the return.  It is [errBackupFileRemovalFailed] exactly when the
    inverse commit returns no failure and the backup file cannot be removed;
    the world is then the one the inverse commit left. *)
Theorem Undo_results_are_distinguished (conf : config.Config) (w : World) :
  errs w ≠ Some [] →
  let result := (Undo conf w).2 in
  let backupFilePath := backup_path (data w) (config.WorkingDir conf) in
  (result = Some errNothingToUndo ↔ xdg.files (data w) !! backupFilePath = None)
  ∧ (result = Some errUndoFailed ↔
       ∃ w1 changes returned,
         inverse_commit conf w = Some (w1, changes, returned) ∧ 0 < len returned)
  ∧ (∀ w1 changes returned,
       inverse_commit conf w = Some (w1, changes, returned) → 0 < len returned →
       Undo conf w = (print w1 [report.NonInteractive changes], Some errUndoFailed))
  ∧ (∀ path, result = Some (errBackupFileRemovalFailed path) ↔
       path = backupFilePath
       ∧ ∃ w1 changes,
           inverse_commit conf w = Some (w1, changes, None)
           ∧ is_Some (xdg.Remove (data w1) backupFilePath).2)
  ∧ (∀ w1 changes,
       inverse_commit conf w = Some (w1, changes, None) →
       is_Some (xdg.Remove (data w1) backupFilePath).2 →
       Undo conf w = (w1, Some (errBackupFileRemovalFailed backupFilePath))).
Proof.
  intros Hwf result path.
  pose proof (Undo_cases conf w) as Hcases.
  pose proof (loaded_cases conf w) as Hload. cbn zeta in Hload. fold path in Hload.
  assert (Hret : ∀ w1 changes returned,
            inverse_commit conf w = Some (w1, changes, returned) →
            (returned = None ∧ len returned = 0)
            ∨ (is_nil returned = false ∧ 0 < len returned)).
  { unfold inverse_commit. intros w1 cs returned.
    destruct (loaded conf w) as [e|[p recorded]]; [done|].
    destruct (config.Exec conf); [|done].
    intros [= Hc]. 
    match type of Hc with commit ?l _ ?v = _ =>
      pose proof (commit_rename conf l v) as [Hr _];
      pose proof (rename_from_errs_nonempty 0 l v) as Hne end.
    rewrite Hc in Hr. cbn in Hr.
    assert (errs w ≠ Some [] → returned ≠ Some []) as Hne'.
    { intros _. rewrite Hr. apply Hne.
      by destruct (config.JSON conf), (config.Interactive conf). }
    destruct returned as [[|i l]|]; [by destruct Hne'|right|left]; cbn; split; (done || lia). }
  unfold result. clear result.
  destruct (loaded conf w) as [e|[p recorded]] eqn:Hl.
  - assert (Hnone : inverse_commit conf w = None).
    { unfold inverse_commit. by rewrite Hl. }
    rewrite Hcases, Hnone. cbn [snd].
    assert (He : e = errNothingToUndo ↔ xdg.files (data w) !! path = None).
    { destruct Hload as [[-> ->]|[He [f Hf]]]; [done|].
      rewrite Hf. split; [|done]. intros ->. by destruct He as [?|[?|?]]. }
    assert (He' : e ≠ errUndoFailed ∧ ∀ q, e ≠ errBackupFileRemovalFailed q).
    { destruct Hload as [[-> _] | [[-> | [-> | ->]] _]]; done. }
    destruct He' as [He1 He2].
    split; [split; [intros [= ->]; by apply He|intros ?; f_equal; by apply He]|].
    split; [split; [by intros [= ->]|by intros (? & ? & ? & ? & _)]|].
    split; [done|].
    split; [|done].
    intros q. split; [intros [= ->]; by destruct (He2 q)|by intros (_ & ? & ? & ? & _)].
  - destruct Hload as [-> [f Hf]]. rewrite Hf.
    destruct (inverse_commit conf w) as [[[w1 c1] ret]|] eqn:Hic.
    + destruct Hcases as [Hexec Hcases].
      destruct (Hret w1 c1 ret eq_refl) as [[-> Hlen]|[Hnil Hlen]].
      * assert (Hn : is_nil (None : slice nat) = true) by done. rewrite Hn in Hcases.
        destruct (xdg.Remove (data w1) path) as [st [e|]] eqn:Hrm; rewrite Hcases; cbn [snd].
        -- split; [done|]. split; [split; [done|]|].
           { intros (? & ? & ? & [= <- <- <-] & Hpos). cbn in Hpos. lia. }
           split; [intros ? ? ? [= <- <- <-] Hpos; cbn in Hpos; lia|].
           split.
           { intros q. split; [intros [= ->]|intros [-> _]; done].
             split; [done|]. exists w1, c1. rewrite Hrm. eauto. }
           intros ? ? [= <- <-] _. done.
        -- split; [done|]. split; [split; [done|]|].
           { intros (? & ? & ? & [= <- <- <-] & Hpos). cbn in Hpos. lia. }
           split; [intros ? ? ? [= <- <- <-] Hpos; cbn in Hpos; lia|].
           split.
           { intros q. split; [done|]. intros (_ & ? & ? & [= <- <-] & Hsome).
             rewrite Hrm in Hsome. by destruct Hsome. }
           intros ? ? [= <- <-] Hsome. rewrite Hrm in Hsome. by destruct Hsome.
      * rewrite Hnil in Hcases. rewrite Hcases. cbn [snd].
        split; [done|]. split; [split; [eauto 10|done]|].
        split; [by intros ? ? ? [= <- <- <-] _|].
        split.
        { intros q. split; [done|]. by intros (_ & ? & ? & [= <- <- ->] & _). }
        by intros ? ? [= <- <- ->].
    + destruct Hcases as [_ ->].
      split; [done|]. split; [split; [done|by intros (? & ? & ? & ? & _)]|].
      split; [done|]. split; [|done].
      intros q. split; [done|by intros (_ & ? & ? & ? & _)].
Qed.

End undo.

Lemma Undo_results_are_distinguished_witness :
  let conf := examples.conf true true in
  let w := examples.world_with_backup examples.one_file in
  errs w ≠ Some []
  ∧ ((@Undo examples.sorts conf w).2 = Some errNothingToUndo
     ↔ xdg.files (data w) !! backup_path (data w) (config.WorkingDir conf) = None)
  ∧ ((@Undo examples.sorts conf w).2 = Some errUndoFailed
     ↔ ∃ w1 changes returned,
         @inverse_commit examples.sorts conf w = Some (w1, changes, returned)
         ∧ 0 < len returned).
Proof.
  intros conf w.
  destruct (@Undo_results_are_distinguished examples.sorts conf w) as (H1 & H2 & _);
    [discriminate|].
  split; [discriminate|]. split; [exact H1|exact H2].
Defined.

End undo_results.

(** ** The recursive walk *)

Section walk.

Import os find spec.

Lemma removeHidden_sub de baseDir ret :
  removeHidden de baseDir = (ret, None) → ∀ e, e ∈ ret → e ∈ de.
Proof.
  revert ret. induction de as [|d de IH]; intros ret.
  - cbn. intros [= <-] e He. done.
  - cbn [removeHidden]. destruct (isHidden (Name d) baseDir) as [r [err|]]; [done|].
    destruct (removeHidden de baseDir) as [ret' [err|]]; [done|].
    intros [= <-] e He. destruct r.
    + right. by eapply IH.
    + apply elem_of_cons in He as [->|He]; [left|right]. by eapply IH.
Qed.

(** A key of the level read for a directory was there before, or is the
    path of a subdirectory among the entries, with the entries read for
    it. *)
Lemma read_subdirs_keys tree dir dirContents level level' err k v :
  read_subdirs tree dir dirContents level = (level', err) →
  level' !! k = Some v →
  level !! k = Some v
  ∨ ∃ entry, entry ∈ dirContents ∧ EntryIsDir entry = true
             ∧ k = filepath.Join [dir; Name entry]
             ∧ ReadDir tree k = (v, None).
Proof.
  revert level. induction dirContents as [|entry rest IH]; intros level.
  - cbn. intros [= <- <-] Hk. by left.
  - cbn [read_subdirs]. destruct (EntryIsDir entry) eqn:Hdir.
    + destruct (ReadDir tree (filepath.Join [dir; Name entry])) as [dirEntry [e|]] eqn:Hread.
      * intros [= <- <-] Hk. by left.
      * intros Hrun Hk. destruct (IH _ Hrun Hk) as [Hin|(entry' & ? & ? & ? & ?)].
        -- destruct (decide (k = filepath.Join [dir; Name entry])) as [->|Hne].
           ++ rewrite lookup_insert_eq in Hin. simplify_eq. right.
              exists entry. split; [left|]. done.
           ++ rewrite lookup_insert_ne in Hin by done. by left.
        -- right. exists entry'. split; [by right|]. done.
    + intros Hrun Hk. destruct (IH _ Hrun Hk) as [Hin|(entry' & ? & ? & ? & ?)]; [by left|].
      right. exists entry'. split; [by right|]. done.
Qed.

Lemma expand_keys tree includeHidden items recursed level recursed' level' err k v :
  expand tree includeHidden items recursed level = (recursed', level', err) →
  level' !! k = Some v →
  level !! k = Some v
  ∨ ∃ dir dirContents entry,
      (dir, dirContents) ∈ items ∧ entry ∈ dirContents ∧ EntryIsDir entry = true
      ∧ k = filepath.Join [dir; Name entry] ∧ ReadDir tree k = (v, None).
Proof.
  revert recursed level. induction items as [|[dir dirContents] rest IH]; intros recursed level.
  - cbn. intros [= <- <- <-] Hk. by left.
  - cbn [expand]. case_bool_decide as Hseen.
    + intros Hrun Hk. destruct (IH _ _ Hrun Hk) as [?|(d & c & e & ? & ?)]; [by left|].
      right. exists d, c, e. split; [by right|done].
    + destruct (if includeHidden then _ else _) as [shown [e|]] eqn:Hshown.
      { intros [= <- <- <-] Hk. by left. }
      assert (Hsub : ∀ e, e ∈ shown → e ∈ dirContents).
      { destruct includeHidden; [by simplify_eq|]. by eapply removeHidden_sub. }
      destruct (read_subdirs tree dir shown level) as [level1 [e|]] eqn:Hsubdirs.
      * intros [= <- <- <-] Hk.
        destruct (read_subdirs_keys _ _ _ _ _ _ _ _ Hsubdirs Hk) as [?|(entry & ? & ? & ? & ?)];
          [by left|].
        right. exists dir, dirContents, entry. split; [left|]. split; [by apply Hsub|done].
      * intros Hrun Hk. destruct (IH _ _ Hrun Hk) as [Hin|(d & c & e & ? & ?)].
        -- destruct (read_subdirs_keys _ _ _ _ _ _ _ _ Hsubdirs Hin) as [?|(entry & ? & ? & ? & ?)];
             [by left|].
           right. exists dir, dirContents, entry. split; [left|]. split; [by apply Hsub|done].
        -- right. exists d, c, e. split; [by right|done].
Qed.

(** A directory already expanded is passed over, so that none is expanded
    twice. *)
Lemma expand_NoDup tree includeHidden items recursed level recursed' level' err :
  expand tree includeHidden items recursed level = (recursed', level', err) →
  NoDup recursed → NoDup recursed'.
Proof.
  revert recursed level. induction items as [|[dir dirContents] rest IH]; intros recursed level.
  - cbn. by intros [= <- <- <-].
  - cbn [expand]. case_bool_decide as Hseen; [by apply IH|].
    destruct (if includeHidden then _ else _) as [shown [e|]]; [by intros [= <- <- <-]|].
    destruct (read_subdirs tree dir shown level) as [level1 [e|]]; [by intros [= <- <- <-]|].
    intros Hrun Hnd. eapply IH; [done|].
    apply NoDup_app. split; [done|]. split; [|apply NoDup_singleton].
    intros x Hx ->%list_elem_of_singleton. done.
Qed.

Lemma pass_cases tree maxDepth includeHidden st :
  currentLevel st = ∅ →
  match pass tree maxDepth includeHidden st with
  | Again st' =>
      pass_leaves tree st st'
      ∧ currentDepth st' = (currentDepth st + 1)%Z
      ∧ ¬ ((0 < maxDepth)%Z ∧ currentDepth st' = maxDepth)
  | Return st' (Some _) =>
      pass_leaves tree st st' ∧ currentDepth st' = currentDepth st
  | Return st' None =>
      pass_leaves tree st st'
      ∧ ((currentDepth st' = currentDepth st ∧ paths st' = paths st)
         ∨ ((0 < maxDepth)%Z ∧ currentDepth st' = maxDepth
            ∧ currentDepth st' = (currentDepth st + 1)%Z))
  end.
Proof.
  intros Hlevel. unfold pass. rewrite Hlevel.
  destruct (expand _ _ _ _ _) as [[recursed level] err] eqn:Hexp.
  pose proof (expand_NoDup _ _ _ _ _ _ _ _ Hexp) as Hnd.
  assert (Hkeys : ∀ k v, level !! k = Some v →
            ∃ dir dirContents entry,
              paths st !! dir = Some dirContents ∧ entry ∈ dirContents
              ∧ EntryIsDir entry = true
              ∧ k = filepath.Join [dir; Name entry] ∧ ReadDir tree k = (v, None)).
  { intros k v Hk.
    destruct (expand_keys _ _ _ _ _ _ _ _ _ _ Hexp Hk) as [Hempty|(d & c & e & Hin & ?)].
    - by rewrite lookup_empty in Hempty.
    - exists d, c, e. split; [|done]. by apply elem_of_map_to_list in Hin. }
  destruct err as [e|].
  { split; [|done]. split; [done|]. split; [by left|]. intros k v Hk. by left. }
  case_decide as Hsize.
  - assert (Hgrow : ∀ k v, (level ∪ paths st) !! k = Some v →
              paths st !! k = Some v
              ∨ ∃ dir dirContents entry,
                  paths st !! dir = Some dirContents ∧ entry ∈ dirContents
                  ∧ EntryIsDir entry = true
                  ∧ k = filepath.Join [dir; Name entry] ∧ ReadDir tree k = (v, None)).
    { intros k v [Hk|[_ Hk]]%lookup_union_Some_raw; [right; by apply Hkeys|by left]. }
    destruct (negb _) eqn:Hstop.
    + split; [split; [done|]; split; [by right|done]|]. split; [done|].
      cbn [currentDepth] in *. intros [Hpos Heq].
      rewrite !bool_decide_eq_true_2 in Hstop by done. done.
    + split; [split; [done|]; split; [by right|done]|]. right.
      cbn [currentDepth] in *.
      apply negb_false_iff, andb_true_iff in Hstop as [Hpos Heq].
      apply bool_decide_eq_true in Hpos, Heq. done.
  - split; [|by left]. split; [done|]. split; [by left|]. intros k v Hk. by left.
Qed.

Section walk_bound.

Variables (tree : node) (start : Collection) (maxDepth : Z) (includeHidden : bool).



End walk_bound.





(** On the sample tree, the walk from [.] with [maxDepth] 1 reads the root
    and its directories [a] and [.h]; [a/b], two levels down, is listed
    among the entries of [a] and not read. *)
Lemma discover_depth_one :
  searchPaths 1 examples.deep ["."] 1 true true
  = Some (Some {[ "." := [ {| Name := ".h"; EntryIsDir := true |};
                           {| Name := "a"; EntryIsDir := true |};
                           {| Name := "c"; EntryIsDir := false |} ];
                  ".h" := [ {| Name := "hid"; EntryIsDir := true |} ];
                  "a" := [ {| Name := "b"; EntryIsDir := true |};
                           {| Name := "f"; EntryIsDir := false |} ] ]},
          None).
Proof. vm_compute. reflexivity. Qed.

End walk.

(** ** Moves in the file tree *)

Section tree.

Import os spec.

Lemma stat_app t a b :
  stat t (a ++ b) = match stat t a with inr n => stat n b | inl e => inl e end.
Proof.
  revert t. induction a as [|c a IH]; intros t; [done|].
  cbn. destruct t as [|es]; [done|]. destruct (es !! c); [apply IH|done].
Qed.

Lemma remove_step es c d q :
  remove (Dir es) (c :: d :: q) =
    match es !! c with
    | None => Dir es
    | Some n => Dir (<[c := remove n (d :: q)]> es)
    end.
Proof. done. Qed.

Lemma place_step es c d q x :
  place (Dir es) (c :: d :: q) x =
    match es !! c with
    | None => Dir es
    | Some n => Dir (<[c := place n (d :: q) x]> es)
    end.
Proof. done. Qed.

Lemma stat_step es c p :
  stat (Dir es) (c :: p) = match es !! c with None => inl ENOENT | Some n => stat n p end.
Proof. done. Qed.

Lemma vacant_nonempty t q : vacant t q → q ≠ [].
Proof. by destruct q. Qed.

Lemma vacant_cons t c q' :
  vacant t (c :: q') ↔
    ∃ es, t = Dir es
          ∧ match q' with
            | [] => es !! c = None
            | _ :: _ => ∃ n, es !! c = Some n ∧ vacant n q'
            end.
Proof.
  destruct t as [data|es]; cbn.
  - split; [by destruct q'|by intros (? & ? & _)].
  - destruct q' as [|d q'].
    + split; [eauto|by intros (? & [= <-] & ?)].
    + split.
      * destruct (es !! c) as [n|] eqn:Hc; [|done]. eauto.
      * intros (? & [= <-] & n & -> & ?). done.
Qed.

(** Nothing is at a vacant path, and its parent is a directory. *)
Lemma vacant_stat t q :
  vacant t q ↔
    q ≠ [] ∧ (∃ es, stat t (parent q) = inr (Dir es)) ∧ ∃ e, stat t q = inl e.
Proof.
  revert t. induction q as [|c q' IH]; intros t.
  - split; [done|]. by intros [? _].
  - rewrite vacant_cons. destruct q' as [|d q'].
    + cbn. split.
      * intros (es & -> & Hc). rewrite Hc. eauto.
      * intros (_ & [es Ht] & [e He]). simplify_eq. exists es. split; [done|].
        by destruct (es !! c).
    + change (parent (c :: d :: q')) with (c :: parent (d :: q')). split.
      * intros (es & -> & n & Hc & Hv). apply IH in Hv as (_ & Hp & He).
        cbn [stat]. rewrite Hc. done.
      * intros (_ & [es' Hp] & [e He]). destruct t as [|es]; [done|].
        exists es. split; [done|]. cbn [stat] in Hp, He.
        destruct (es !! c) as [n|]; [|done]. exists n. split; [done|].
        apply IH. eauto.
Qed.

Lemma stat_place_vacant t q x : vacant t q → stat (place t q x) q = inr x.
Proof.
  revert t. induction q as [|c q' IH]; intros t; [done|].
  intros (es & -> & Hq)%vacant_cons. destruct q' as [|d q'].
  - cbn. by rewrite lookup_insert_eq.
  - destruct Hq as (n & Hc & Hv). rewrite place_step, Hc, stat_step.
    rewrite lookup_insert_eq. by apply IH.
Qed.

Lemma remove_place_vacant t q x : vacant t q → remove (place t q x) q = t.
Proof.
  revert t. induction q as [|c q' IH]; intros t; [done|].
  intros (es & -> & Hq)%vacant_cons. destruct q' as [|d q'].
  - cbn. by rewrite delete_insert_id.
  - destruct Hq as (n & Hc & Hv). rewrite place_step, Hc, remove_step.
    rewrite lookup_insert_eq, IH, insert_insert_eq, insert_id by done. done.
Qed.

Lemma place_remove_stat t p x : stat t p = inr x → p ≠ [] → place (remove t p) p x = t.
Proof.
  revert t. induction p as [|c p' IH]; intros t Hp Hne; [done|].
  cbn [stat] in Hp. destruct t as [|es]; [done|].
  destruct (es !! c) as [n|] eqn:Hc; [|done]. destruct p' as [|d p'].
  - cbn in *. simplify_eq. by rewrite insert_delete_eq, insert_id.
  - rewrite remove_step, Hc, place_step, lookup_insert_eq.
    rewrite IH, insert_insert_eq, insert_id by done. done.
Qed.

Lemma vacant_remove t p x : stat t p = inr x → p ≠ [] → vacant (remove t p) p.
Proof.
  revert t. induction p as [|c p' IH]; intros t Hp Hne; [done|].
  cbn [stat] in Hp. destruct t as [|es]; [done|].
  destruct (es !! c) as [n|] eqn:Hc; [|done]. destruct p' as [|d p'].
  - cbn. by rewrite lookup_delete_eq.
  - rewrite remove_step, Hc. apply vacant_cons. eexists. split; [done|].
    exists (remove n (d :: p')). rewrite lookup_insert_eq. split; [done|].
    by eapply IH.
Qed.

Lemma apart_cons c p q : apart (c :: p) (c :: q) → apart p q.
Proof.
  intros [H1 H2]. split; intros H; [apply H1|apply H2]; by apply prefix_cons.
Qed.

Lemma apart_nonempty p q : apart p q → p ≠ [] ∧ q ≠ [].
Proof.
  intros [H1 H2]. split; intros ->; [apply H1|apply H2]; apply prefix_nil.
Qed.

Lemma apart_cons_inv c p d q :
  apart (c :: p) (d :: q) → c ≠ d ∨ (c = d ∧ apart p q).
Proof.
  intros Hap. destruct (decide (c = d)) as [->|]; [right|by left].
  split; [done|]. by eapply apart_cons.
Qed.

(** Removing an entry leaves a path apart from it vacant. *)
Lemma vacant_remove_apart t p q : apart p q → vacant t q → vacant (remove t p) q.
Proof.
  revert t p. induction q as [|d q' IH]; intros t p Hap; [done|].
  destruct (apart_nonempty _ _ Hap) as [Hp _]. destruct p as [|c p']; [done|].
  intros (es & -> & Hq)%vacant_cons. apply vacant_cons.
  destruct (apart_cons_inv _ _ _ _ Hap) as [Hne|[<- Hap']].
  - destruct p' as [|c' p'].
    + eexists. split; [done|]. rewrite lookup_delete_ne by done. done.
    + rewrite remove_step. destruct (es !! c) as [n|]; (eexists; split; [done|]);
        rewrite ?lookup_insert_ne by done; done.
  - destruct (apart_nonempty _ _ Hap') as [Hp' Hq'].
    destruct p' as [|c' p'], q' as [|d' q']; try done.
    destruct Hq as (n & Hc & Hv). rewrite remove_step, Hc.
    eexists. split; [done|]. rewrite lookup_insert_eq. eauto.
Qed.

(** Placing an entry leaves a path apart from it vacant. *)
Lemma vacant_place_apart t p q x : apart p q → vacant t p → vacant (place t q x) p.
Proof.
  revert t q. induction p as [|c p' IH]; intros t q Hap; [done|].
  destruct (apart_nonempty _ _ Hap) as [_ Hq]. destruct q as [|d q']; [done|].
  intros (es & -> & Hp)%vacant_cons. apply vacant_cons.
  destruct (apart_cons_inv _ _ _ _ Hap) as [Hne|[<- Hap']].
  - destruct q' as [|d' q'].
    + eexists. split; [done|]. rewrite lookup_insert_ne by done. done.
    + rewrite place_step. destruct (es !! d) as [n|]; (eexists; split; [done|]);
        rewrite ?lookup_insert_ne by done; done.
  - destruct (apart_nonempty _ _ Hap') as [Hp' Hq'].
    destruct p' as [|c' p'], q' as [|d' q']; try done.
    destruct Hp as (n & Hc & Hv). rewrite place_step, Hc.
    eexists. split; [done|]. rewrite lookup_insert_eq. eauto.
Qed.

(** Moving an entry to a vacant path apart from its own, and then back,
    gives the tree there was. *)
Lemma move_there_and_back t p q x :
  stat t p = inr x → vacant t q → apart p q →
  let t' := place (remove t p) q x in
  stat t' q = inr x ∧ vacant t' p ∧ place (remove t' q) p x = t.
Proof.
  intros Hp Hq Hap t'. destruct (apart_nonempty _ _ Hap) as [Hpne Hqne].
  assert (Hq1 : vacant (remove t p) q) by by apply vacant_remove_apart.
  split; [by apply stat_place_vacant|]. split.
  - apply vacant_place_apart; [done|]. by eapply vacant_remove.
  - unfold t'. rewrite remove_place_vacant by done. by apply place_remove_stat.
Qed.

Lemma Rename_to_vacant t old new x :
  stat t (resolve old) = inr x → vacant t (resolve new) →
  apart (resolve old) (resolve new) →
  Rename t old new = (place (remove t (resolve old)) (resolve new) x, None).
Proof.
  intros Hp Hq Hap. unfold Rename. rewrite Hp.
  destruct (apart_nonempty _ _ Hap) as [Hpne Hqne].
  apply vacant_stat in Hq as (_ & [es Hparent] & [e Habsent]).
  rewrite decide_False by (intros Heq; destruct Hap as [Hap _]; apply Hap; by rewrite Heq).
  rewrite decide_False by (by intros [?|?]).
  rewrite Hparent, Habsent.
  rewrite (bool_decide_eq_false_2 (resolve old `prefix_of` resolve new)) by apply Hap.
  rewrite andb_false_r. by destruct x.
Qed.

Lemma Rename_moves t old new t' :
  Rename t old new = (t', None) →
  resolve old ≠ resolve new →
  (∃ e, stat t (resolve new) = inl e) →
  ∃ x, stat t (resolve old) = inr x ∧ vacant t (resolve new)
       ∧ apart (resolve old) (resolve new)
       ∧ t' = place (remove t (resolve old)) (resolve new) x.
Proof.
  unfold Rename. intros Hrun Hne [e Habsent].
  destruct (stat t (resolve old)) as [|x] eqn:Hp; [done|].
  rewrite decide_False in Hrun by done.
  destruct (decide (_ ∨ _)) as [|Hnonempty]; [done|].
  destruct (stat t (parent (resolve new))) as [|[|es]] eqn:Hparent; [done|done|].
  destruct (IsDir x && _) eqn:Hinside; [done|].
  rewrite Habsent in Hrun.
  assert (Hq : vacant t (resolve new)).
  { apply vacant_stat. split; [tauto|]. eauto. }
  assert (Hap : apart (resolve old) (resolve new)).
  { split.
    - intros [r Hr]. apply andb_false_iff in Hinside as [Hfile|Hpre].
      + assert (r ≠ []) as Hrne by (intros ->; rewrite app_nil_r in Hr; done).
        rewrite Hr in Hparent. unfold parent in Hparent.
        rewrite removelast_app, stat_app, Hp in Hparent by done.
        destruct x; [|done]. by destruct (removelast r).
      + apply bool_decide_eq_false in Hpre. apply Hpre. by exists r.
    - intros [r Hr]. rewrite Hr, stat_app, Habsent in Hp. done. }
  exists x. split; [done|]. split; [done|]. split; [done|].
  destruct x; by simplify_eq.
Qed.

(** A rename onto a path where nothing was is undone by the rename back. *)
Lemma Rename_there_and_back t old new t' :
  Rename t old new = (t', None) →
  resolve old ≠ resolve new →
  (∃ e, stat t (resolve new) = inl e) →
  Rename t' new old = (t, None).
Proof.
  intros Hrun Hne Habsent.
  destruct (Rename_moves _ _ _ _ Hrun Hne Habsent) as (x & Hp & Hq & Hap & ->).
  destruct (move_there_and_back t _ _ x Hp Hq Hap) as (Hq' & Hp' & Hback).
  rewrite (Rename_to_vacant _ new old x Hq' Hp'); [by rewrite Hback|].
  destruct Hap. by split.
Qed.





















End tree.

(** ** Commit and undo *)

Section inverse.

Import os file rename spec.




Lemma step_of_swap change : step_of (swap change) = back (step_of change).
Proof. done. Qed.


Lemma with_fs_with_fs w t t' : with_fs (with_fs w t) t' = with_fs w t'.
Proof. done. Qed.




Section round_trip.
Context `{!Sorts}.







Lemma commit_data_revert conf changes w :
  config.Revert conf = true → data (commit changes conf w).1.1 = data w.
Proof.
  intros Hrev. unfold commit, rename.
  destruct (rename_from 0 changes w) as [w1 after] eqn:Hrun.
  destruct (rename_from_frame 0 changes w) as (Hd & _ & _). rewrite Hrun in Hd.
  rewrite Hrev. cbn [negb fst snd] in *. by destruct (config.Verbose conf).
Qed.



End round_trip.


(** A second way for the round trip to fail: a rename onto an existing
    file replaces it, and the rename back does not bring it back. *)
Lemma undo_loses_the_replaced_file :
  let conf := examples.conf true false in
  let conf' := examples.conf true true in
  let changes := [examples.change EmptyString "a.txt" "c.txt"] in
  let w := examples.world examples.two_files in
  let committed := @Rename examples.sorts conf changes w in
  let undone := @Undo examples.sorts conf' committed.1.1 in
  committed.2 = None
  ∧ Forall (λ change, Error change = None) committed.1.2
  ∧ undone.2 = None
  ∧ fs undone.1 = Dir {[ "a.txt" := File "x" ]}
  ∧ fs undone.1 ≠ fs w.
Proof.
  intros conf conf' changes w committed undone.
  split; [by vm_compute|]. split; [vm_compute; by repeat constructor|].
  split; [by vm_compute|]. split; [by vm_compute|].
  intros Heq. apply (f_equal (λ t, stat t ["c.txt"])) in Heq. vm_compute in Heq. done.
Qed.

(** A third way: for a chain of renames, undone in the order they were
    committed in, the rename back of the first link finds nothing to
    rename. *)
Lemma undo_in_commit_order_breaks_a_chain :
  let conf := examples.conf true false in
  let conf' := examples.conf true true in
  let changes := [examples.change EmptyString "a.txt" "b.txt";
                  examples.change EmptyString "b.txt" "c.txt"] in
  let w := examples.world examples.one_file in
  let committed := @Rename examples.sorts conf changes w in
  let undone := @Undo examples.sorts conf' committed.1.1 in
  committed.2 = None
  ∧ Forall (λ change, Error change = None) committed.1.2
  ∧ fs committed.1.1 = Dir {[ "c.txt" := File "x" ]}
  ∧ undone.2 = Some errUndoFailed
  ∧ fs undone.1 = Dir {[ "b.txt" := File "x" ]}.
Proof.
  intros conf conf' changes w committed undone.
  split; [by vm_compute|]. split; [vm_compute; by repeat constructor|].
  split; [by vm_compute|]. split; by vm_compute.
Qed.



End inverse.

(** * Further properties of the code *)

(** ** The loop of [rename] *)

Section rename_results.

Import file rename spec.

Lemma rename_body_fields i change w :
  BaseDir (rename_body i change w).2 = BaseDir change
  ∧ Source (rename_body i change w).2 = Source change
  ∧ Target (rename_body i change w).2 = Target change.
Proof.
  rewrite rename_body_attempt. by destruct (attempt change w) as [[w' [e|]]|].
Qed.

Lemma failures_from_sorted i l w :
  StronglySorted lt (failures_from i l w) ∧ Forall (λ j, (i ≤ j)%nat) (failures_from i l w).
Proof.
  revert i w. induction l as [|c l IH]; intros i w.
  - split; constructor.
  - cbn [failures_from].
    destruct (IH (S i) (rename_body i c w).1) as [Hsorted Hge].
    assert (Hge' : Forall (λ j, (i ≤ j)%nat) (failures_from (S i) l (rename_body i c w).1)).
    { eapply Forall_impl; [done|]. intros j Hj. cbn in Hj. lia. }
    destruct (failure c w); [|done]. split.
    + constructor; [done|]. eapply Forall_impl; [exact Hge|]. intros j Hj. cbn in Hj. lia.
    + constructor; [lia|done].
Qed.

(** X1.  [rename] hands back the changes in their order, each with the base
    directory, source and target it came with. The [Error] of a change is the
    error of its attempt when that failed and is left alone otherwise: it is
    never cleared. *)
Theorem rename_keeps_the_plan (changes : list Change) (w : World) :
  length (rename changes w).1.2 = length changes
  ∧ ∀ j change, changes !! j = Some change →
      ∃ change',
        (rename changes w).1.2 !! j = Some change'
        ∧ BaseDir change' = BaseDir change
        ∧ Source change' = Source change
        ∧ Target change' = Target change
        ∧ Error change'
          = match failure change (world_at changes j w) with
            | Some err => Some err
            | None => Error change
            end.
Proof.
  unfold rename. destruct (rename_from 0 changes w) as [w' changes'] eqn:Hrun. cbn [fst snd].
  assert (Hc' : changes' = (rename_from 0 changes w).2) by by rewrite Hrun.
  split; [by rewrite Hc', rename_from_length|].
  intros j change Hj. eexists. rewrite Hc', (rename_from_lookup _ _ _ _ _ Hj).
  split; [done|]. cbn [Nat.add].
  destruct (rename_body_fields j change (rename_from 0 (take j changes) w).1) as (-> & -> & ->).
  by rewrite rename_body_Error.
Qed.

(** X2.  What [rename] returns is the failure list it found, followed by the
    positions of the changes whose attempt failed in this run, each once and in
    ascending order. *)
Theorem rename_appends_the_failures (changes : list Change) (w : World) :
  ∃ added,
    elems (rename changes w).2 = elems (errs w) ++ added
    ∧ StronglySorted lt added
    ∧ ∀ j, j ∈ added ↔
           ∃ change, changes !! j = Some change
                     ∧ is_Some (failure change (world_at changes j w)).
Proof.
  exists (failures_from 0 changes w). unfold rename.
  destruct (rename_from 0 changes w) as [w' changes'] eqn:Hrun. cbn [snd].
  assert (Hw' : w' = (rename_from 0 changes w).1) by by rewrite Hrun.
  split; [by rewrite Hw', rename_from_errs|].
  split; [apply failures_from_sorted|].
  intros j. rewrite failures_from_elem. split.
  - intros (k & change & -> & Hk & Hf). by exists change.
  - intros (change & Hj & Hf). by exists j, change.
Qed.

(** An attempt reads the clock once when source and target differ by case
    only, and not at all otherwise. *)
Lemma attempt_clock change w w' r :
  attempt change w = Some (w', r) →
  clock w' = (clock w +
    if strings.EqualFold (filepath.Join [BaseDir change; Source change])
         (filepath.Join [BaseDir change; Target change])
    then 1 else 0)%Z.
Proof.
  unfold attempt.
  destruct (decide _); [done|].
  destruct (strings.EqualFold _ _); cbn [UnixNano snd];
    destruct (_ || _);
    repeat (match goal with
            | |- context [os.MkdirAll ?a ?b] => destruct (os.MkdirAll a b) as [? [?|]]
            | |- context [os.Rename ?a ?b ?c] => destruct (os.Rename a b c) as [? [?|]]
            end);
    intros; simplify_eq; cbn; lia.
Qed.

(** X3.  [rename] leaves the data directory, the conflict report and the output
    as they are, and the clock does not go back. *)
Theorem rename_touches_the_tree_only (changes : list Change) (w : World) :
  data (rename changes w).1.1 = data w
  ∧ conflicts (rename changes w).1.1 = conflicts w
  ∧ printed (rename changes w).1.1 = printed w
  ∧ (clock w ≤ clock (rename changes w).1.1)%Z.
Proof.
  unfold rename. destruct (rename_from 0 changes w) as [w' changes'] eqn:Hrun. cbn [fst].
  assert (Hw' : w' = (rename_from 0 changes w).1) by by rewrite Hrun.
  destruct (rename_from_frame 0 changes w) as (Hd & Hc & Hp). rewrite <- Hw' in *.
  split; [done|]. split; [done|]. split; [done|].
  rewrite Hw'. clear. generalize 0. revert w.
  induction changes as [|c l IH]; intros w i; [done|].
  rewrite rename_from_cons. cbn [fst].
  etrans; [|apply IH]. rewrite rename_body_attempt.
  destruct (attempt c w) as [[w' [e|]]|] eqn:Hatt; cbn; try done;
    rewrite (attempt_clock _ _ _ _ Hatt); destruct (strings.EqualFold _ _); lia.
Qed.

End rename_results.

(** ** [commit] and [Rename] *)

Section commit_results.

Import file rename spec.

Section sorted.
Context `{!Sorts}.

Lemma backupChanges_fails conf changes cwd w :
  xdg.dirs_creatable (data w) = false ∨ xdg.writable (data w) = false →
  backupChanges conf changes cwd w = (w, Some EACCES).
Proof.
  unfold backupChanges, xdg.DataFile, xdg.Create.
  destruct (xdg.dirs_creatable (data w)); [|done].
  intros [? | ->]; done.
Qed.

(** X4.  When the backup cannot be written, [commit] says so and goes on: the
    failure list and the tree are those [rename] left, and the data directory is
    as it was. *)
Theorem commit_survives_a_failed_backup (conf : config.Config) (changes : list Change)
    (w : World) :
  config.Revert conf = false →
  xdg.dirs_creatable (data w) = false ∨ xdg.writable (data w) = false →
  (commit changes conf w).2 = (rename changes w).2
  ∧ fs (commit changes conf w).1.1 = fs (rename changes w).1.1
  ∧ data (commit changes conf w).1.1 = data w
  ∧ last (printed (commit changes conf w).1.1) = Some (report.BackupFailed EACCES).
Proof.
  intros Hrev Hstore.
  destruct (commit_rename conf changes w) as [Hret Hfs].
  split; [|split]; [by unfold rename; destruct (rename_from 0 changes w)..|].
  unfold commit, rename.
  destruct (rename_from 0 changes w) as [w1 after] eqn:Hrun.
  destruct (rename_from_frame 0 changes w) as (Hd & _ & _). rewrite Hrun in Hd.
  cbn [fst snd] in *. rewrite Hrev. cbn [negb].
  set (w2 := if config.Verbose conf then _ else _).
  assert (Hw2 : data w2 = data w) by (unfold w2; by destruct (config.Verbose conf)).
  rewrite backupChanges_fails by by rewrite Hw2.
  cbn. split; [done|]. by rewrite last_snoc.
Qed.

(** X5.  In revert mode [commit] writes no backup: the data directory is as it
    was, and nothing is printed but the lines of the verbose mode. *)
Theorem commit_in_revert_mode_keeps_the_data (conf : config.Config)
    (changes : list Change) (w : World) :
  config.Revert conf = true →
  data (commit changes conf w).1.1 = data w
  ∧ (commit changes conf w).2 = (rename changes w).2
  ∧ fs (commit changes conf w).1.1 = fs (rename changes w).1.1
  ∧ printed (commit changes conf w).1.1
    = printed w ++ (if config.Verbose conf
                    then verbose_line <$> (rename changes w).1.2 else []).
Proof.
  intros Hrev. unfold commit, rename.
  destruct (rename_from 0 changes w) as [w1 after] eqn:Hrun.
  destruct (rename_from_frame 0 changes w) as (Hd & _ & Hp). rewrite Hrun in Hd, Hp.
  cbn [fst snd] in *. rewrite Hrev. cbn [negb].
  destruct (config.Verbose conf); cbn; rewrite ?Hp, ?app_nil_r; done.
Qed.

(** X6.  Without [Exec], [Rename] prints the batch once, in the form the
    configuration asks for, and does nothing else: the tree, the data directory,
    the failure list and the clock are as they were, and no error is returned. *)
Theorem Rename_without_exec_only_prints (conf : config.Config) (changes : list Change)
    (w : World) :
  config.Exec conf = false →
  ∃ listed,
    listed ≡ₚ changes
    ∧ (config.IncludeDir conf = false → listed = changes)
    ∧ Rename conf changes w
      = (print w [if config.JSON conf then report.JSON listed
                  else if config.Interactive conf then report.Interactive listed
                  else report.NonInteractive listed],
         listed, None).
Proof.
  intros Hexec. unfold Rename. rewrite Hexec. cbn [negb].
  set (listed := if config.IncludeDir conf then _ else changes).
  exists listed. split; [|split].
  - unfold listed. destruct (config.IncludeDir conf); by rewrite ?FilesBeforeDirs_perm.
  - unfold listed. by intros ->.
  - by destruct (config.JSON conf), (config.Interactive conf).
Qed.

(** X7.  With [Exec], the error of [Rename] tells whether the failure list of
    the package is [nil] once the batch is committed, and is nothing else. *)
Theorem Rename_reports_the_failure_list (conf : config.Config) (changes : list Change)
    (w : World) :
  config.Exec conf = true →
  (Rename conf changes w).2
  = if is_nil (errs (Rename conf changes w).1.1) then None else Some errRenameFailed.
Proof.
  intros Hexec. rewrite Rename_exec by done. cbn zeta.
  set (l := if config.IncludeDir conf then _ else _).
  set (v := if config.JSON conf then _ else _).
  assert (Hret : (commit l conf v).2 = errs (commit l conf v).1.1).
  { unfold commit. by destruct (rename l v) as [[? ?] ?]. }
  destruct (commit l conf v) as [[w1 cs] es]. cbn in *. by subst es.
Qed.

End sorted.
Lemma commit_survives_a_failed_backup_witness :
  let conf := examples.conf true false in
  let w := with_data (examples.world examples.one_file)
             {| xdg.DataHome := "/home/u/.local/share"; xdg.files := ∅;
                xdg.dirs_creatable := true; xdg.writable := false |} in
  let changes := [examples.change EmptyString "a.txt" "b.txt"] in
  config.Revert conf = false
  ∧ (xdg.dirs_creatable (data w) = false ∨ xdg.writable (data w) = false)
  ∧ (@commit examples.sorts changes conf w).2 = (rename changes w).2
  ∧ fs (@commit examples.sorts changes conf w).1.1 = fs (rename changes w).1.1
  ∧ data (@commit examples.sorts changes conf w).1.1 = data w
  ∧ last (printed (@commit examples.sorts changes conf w).1.1)
    = Some (report.BackupFailed EACCES).
Proof.
  intros conf w changes.
  split; [reflexivity|]. split; [right; reflexivity|].
  apply (@commit_survives_a_failed_backup examples.sorts conf changes w);
    [reflexivity|right; reflexivity].
Defined.

Lemma commit_in_revert_mode_keeps_the_data_witness :
  let conf := examples.conf true true in
  let w := examples.world_with_backup examples.one_file in
  let changes := [examples.change EmptyString "a.txt" "b.txt"] in
  config.Revert conf = true
  ∧ data (@commit examples.sorts changes conf w).1.1 = data w
  ∧ (@commit examples.sorts changes conf w).2 = (rename changes w).2
  ∧ fs (@commit examples.sorts changes conf w).1.1 = fs (rename changes w).1.1
  ∧ printed (@commit examples.sorts changes conf w).1.1
    = printed w ++ (if config.Verbose conf
                    then @verbose_line <$> (rename changes w).1.2 else []).
Proof.
  intros conf w changes. split; [reflexivity|].
  apply (@commit_in_revert_mode_keeps_the_data examples.sorts conf changes w). reflexivity.
Defined.

Lemma Rename_without_exec_only_prints_witness :
  let conf := examples.conf false false in
  let w := examples.world examples.one_file in
  let changes := [examples.change EmptyString "a.txt" "b.txt"] in
  config.Exec conf = false
  ∧ ∃ listed,
      listed ≡ₚ changes
      ∧ (config.IncludeDir conf = false → listed = changes)
      ∧ @Rename examples.sorts conf changes w
        = (print w [if config.JSON conf then report.JSON listed
                    else if config.Interactive conf then report.Interactive listed
                    else report.NonInteractive listed],
           listed, None).
Proof.
  intros conf w changes. split; [reflexivity|].
  apply (@Rename_without_exec_only_prints examples.sorts conf changes w). reflexivity.
Defined.

Lemma Rename_reports_the_failure_list_witness :
  let conf := examples.conf true false in
  let w := examples.world examples.one_file in
  let changes := [examples.change EmptyString "missing.txt" "b.txt"] in
  config.Exec conf = true
  ∧ (@Rename examples.sorts conf changes w).2
    = (if is_nil (errs (@Rename examples.sorts conf changes w).1.1)
       then None else Some errRenameFailed)
  ∧ (@Rename examples.sorts conf changes w).2 = Some errRenameFailed.
Proof.
  intros conf w changes. split; [reflexivity|]. split.
  - apply (@Rename_reports_the_failure_list examples.sorts conf changes w). reflexivity.
  - vm_compute. reflexivity.
Defined.

End commit_results.

(** ** [Undo] and the backup file *)

Section undo_more.

Import file rename spec.

Section sorted.
Context `{!Sorts}.

(** [backupChanges] keeps the place of the data directory and the files
    that are in it. *)
Lemma backupChanges_store conf changes cwd w :
  xdg.DataHome (data (backupChanges conf changes cwd w).1) = xdg.DataHome (data w)
  ∧ ∀ p, is_Some (xdg.files (data w) !! p) →
         is_Some (xdg.files (data (backupChanges conf changes cwd w).1) !! p).
Proof.
  destruct (xdg.dirs_creatable (data w)) eqn:Hdirs;
    [destruct (xdg.writable (data w)) eqn:Hwr|].
  - rewrite backupChanges_writes by done. cbn. split; [done|].
    intros p Hp. destruct (decide (p = backup_path (data w) cwd)) as [->|Hne].
    + by rewrite lookup_insert_eq.
    + by rewrite lookup_insert_ne.
  - rewrite backupChanges_fails by auto. done.
  - rewrite backupChanges_fails by auto. done.
Qed.

Lemma commit_store conf changes w :
  xdg.DataHome (data (commit changes conf w).1.1) = xdg.DataHome (data w)
  ∧ ∀ p, is_Some (xdg.files (data w) !! p) →
         is_Some (xdg.files (data (commit changes conf w).1.1) !! p).
Proof.
  unfold commit, rename.
  destruct (rename_from 0 changes w) as [w1 after] eqn:Hrun.
  destruct (rename_from_frame 0 changes w) as (Hd & _ & _). rewrite Hrun in Hd.
  cbn [fst snd] in *.
  set (w2 := if config.Verbose conf then _ else _).
  assert (Hw2 : data w2 = data w) by (unfold w2; by destruct (config.Verbose conf)).
  destruct (config.Revert conf); cbn [negb fst snd]; [by rewrite Hw2|].
  destruct (backupChanges_store conf after (config.WorkingDir conf) w2) as [Hh Hf].
  rewrite Hw2 in Hh, Hf.
  destruct (backupChanges _ _ _ _) as [w3 [e|]]; cbn in *; done.
Qed.

Lemma announced_data conf changes w : data (announced conf changes w) = data w.
Proof. unfold announced. by destruct (config.JSON conf), (config.Interactive conf). Qed.

Lemma inverse_commit_store conf w w1 changes1 returned :
  inverse_commit conf w = Some (w1, changes1, returned) →
  xdg.DataHome (data w1) = xdg.DataHome (data w)
  ∧ (∀ p, is_Some (xdg.files (data w) !! p) → is_Some (xdg.files (data w1) !! p))
  ∧ (config.Revert conf = true → data w1 = data w).
Proof.
  unfold inverse_commit.
  destruct (loaded conf w) as [e|[p cs]]; [done|].
  destruct (config.Exec conf); [|done].
  fold (announced conf (inverse_batch conf cs) w).
  intros [= Hc].
  pose proof (commit_store conf (inverse_batch conf cs) (announced conf (inverse_batch conf cs) w)) as [Hh Hf].
  pose proof (commit_data_revert conf (inverse_batch conf cs) (announced conf (inverse_batch conf cs) w)) as Hr.
  rewrite Hc, announced_data in *. cbn in *. done.
Qed.

(** X8.  A failed undo keeps a backup file for the working directory, so that it
    can be tried again; in revert mode the data directory is as it was. *)
Theorem Undo_failure_keeps_a_backup (conf : config.Config) (w : World) :
  (Undo conf w).2 = Some errUndoFailed →
  is_Some (xdg.files (data (Undo conf w).1) !! backup_path (data w) (config.WorkingDir conf))
  ∧ (config.Revert conf = true → data (Undo conf w).1 = data w).
Proof.
  pose proof (Undo_cases conf w) as Hcases.
  pose proof (loaded_cases conf w) as Hload. cbn zeta in Hload.
  destruct (loaded conf w) as [e|[p cs]] eqn:Hl.
  - rewrite Hcases. cbn. intros [= ->].
    destruct Hload as [[? _] | [[? | [? | ?]] _]]; done.
  - destruct Hload as [-> Hsome].
    destruct (inverse_commit conf w) as [[[w1 c1] ret]|] eqn:Hic.
    + destruct Hcases as [Hexec Hcases].
      destruct (inverse_commit_store _ _ _ _ _ Hic) as (Hh & Hf & Hr).
      destruct (is_nil ret).
      * destruct (xdg.Remove _ _) as [st [e|]]; by rewrite Hcases.
      * rewrite Hcases. cbn. intros _. split; [by apply Hf|done].
    + destruct Hcases as [_ ->]. done.
Qed.

(** X9.  An undo that succeeds with [Exec] removes the backup file: the file is
    gone afterwards, and undoing again has nothing to undo and changes nothing. *)
Theorem Undo_consumes_the_backup (conf : config.Config) (w : World) :
  config.Exec conf = true →
  (Undo conf w).2 = None →
  xdg.files (data (Undo conf w).1) !! backup_path (data w) (config.WorkingDir conf) = None
  ∧ Undo conf (Undo conf w).1 = ((Undo conf w).1, Some errNothingToUndo).
Proof.
  intros Hexec.
  pose proof (Undo_cases conf w) as Hcases.
  pose proof (loaded_cases conf w) as Hload. cbn zeta in Hload.
  destruct (loaded conf w) as [e|[p cs]] eqn:Hl; [by rewrite Hcases|].
  destruct Hload as [-> Hsome].
  destruct (inverse_commit conf w) as [[[w1 c1] ret]|] eqn:Hic;
    [|destruct Hcases as [Hne _]; congruence].
  destruct Hcases as [_ Hcases].
  destruct (inverse_commit_store _ _ _ _ _ Hic) as (Hh & Hf & _).
  destruct (is_nil ret); [|by rewrite Hcases].
  unfold xdg.Remove in Hcases.
  destruct (Hf _ Hsome) as [f Hlook]. rewrite Hlook in Hcases.
  destruct (xdg.writable (data w1)); rewrite Hcases; [|done].
  intros _. cbn [fst snd data with_data xdg.files xdg.with_files].
  split; [by rewrite lookup_delete_eq|].
  set (w' := with_data w1 _).
  pose proof (Undo_cases conf w') as Hcases'.
  pose proof (loaded_cases conf w') as Hload'. cbn zeta in Hload'.
  assert (Hpath : backup_path (data w') (config.WorkingDir conf)
                  = backup_path (data w) (config.WorkingDir conf)).
  { unfold backup_path. cbn. by rewrite Hh. }
  rewrite Hpath in Hload'.
  assert (Hgone : xdg.files (data w') !! backup_path (data w) (config.WorkingDir conf) = None).
  { cbn. by rewrite lookup_delete_eq. }
  rewrite Hgone in Hload'.
  destruct (loaded conf w') as [e|[p cs']].
  - destruct Hload' as [[-> _] | [_ [? ?]]]; done.
  - destruct Hload' as [_ [? ?]]; done.
Qed.

Lemma Rename_dry conf changes w :
  config.Exec conf = false →
  ∃ ev, (Rename conf changes w).1.1 = print w [ev].
Proof.
  intros Hexec. unfold Rename. rewrite Hexec. cbn [negb].
  destruct (config.Interactive conf), (config.JSON conf); cbn; eauto.
Qed.

(** X10.  Without [Exec], [Undo] renames nothing and keeps the backup: it
    returns the error of loading the backup file, or [nil] after printing the
    inverse batch once; the tree, the data directory and the failure list are as
    they were. *)
Theorem Undo_without_exec_changes_nothing (conf : config.Config) (w : World) :
  config.Exec conf = false →
  (Undo conf w).2 = match loaded conf w with inl err => Some err | inr _ => None end
  ∧ fs (Undo conf w).1 = fs w
  ∧ data (Undo conf w).1 = data w
  ∧ errs (Undo conf w).1 = errs w
  ∧ ∃ evs, printed (Undo conf w).1 = printed w ++ evs
           ∧ length evs = match loaded conf w with inl _ => 0 | inr _ => 1 end.
Proof.
  intros Hexec.
  unfold loaded, Undo, recorded.
  destruct (xdg.SearchDataFile _ _) as [path [e|]];
    [cbn; repeat split; exists []; by rewrite app_nil_r|].
  destruct (xdg.ReadFile _ _) as [bytes [e|]];
    [cbn; repeat split; exists []; by rewrite app_nil_r|].
  destruct (json.Unmarshal bytes) as [e|v];
    [cbn; repeat split; exists []; by rewrite app_nil_r|].
  destruct (internaljson.unmarshal_Changes v) as [e|o];
    [cbn; repeat split; exists []; by rewrite app_nil_r|].
  set (l := FilesBeforeDirs _ _).
  pose proof (Rename_no_exec conf l w Hexec) as Hr.
  destruct (Rename_dry conf l w Hexec) as [ev Hw].
  destruct (Rename conf l w) as [[w1 cs] r]. cbn in Hr, Hw. subst r w1.
  rewrite Hexec. cbn. repeat split. by exists [ev].
Qed.

End sorted.
Lemma Undo_failure_keeps_a_backup_witness :
  let conf := examples.conf true true in
  let w := examples.world_with_backup examples.one_file in
  (@Undo examples.sorts conf w).2 = Some errUndoFailed
  ∧ is_Some (xdg.files (data (@Undo examples.sorts conf w).1)
               !! backup_path (data w) (config.WorkingDir conf))
  ∧ (config.Revert conf = true → data (@Undo examples.sorts conf w).1 = data w).
Proof.
  intros conf w.
  assert (Hfails : (@Undo examples.sorts conf w).2 = Some errUndoFailed)
    by (vm_compute; reflexivity).
  split; [exact Hfails|].
  exact (@Undo_failure_keeps_a_backup examples.sorts conf w Hfails).
Defined.

Lemma Undo_consumes_the_backup_witness :
  let conf := examples.conf true true in
  let w := examples.world_with_backup (os.Dir {[ "new" := os.File "x" ]}) in
  config.Exec conf = true
  ∧ (@Undo examples.sorts conf w).2 = None
  ∧ fs (@Undo examples.sorts conf w).1 = os.Dir {[ "old" := os.File "x" ]}
  ∧ xdg.files (data (@Undo examples.sorts conf w).1)
      !! backup_path (data w) (config.WorkingDir conf) = None
  ∧ @Undo examples.sorts conf (@Undo examples.sorts conf w).1
    = ((@Undo examples.sorts conf w).1, Some errNothingToUndo).
Proof.
  intros conf w.
  assert (Hdone : (@Undo examples.sorts conf w).2 = None) by (vm_compute; reflexivity).
  split; [reflexivity|]. split; [exact Hdone|]. split; [vm_compute; reflexivity|].
  exact (@Undo_consumes_the_backup examples.sorts conf w eq_refl Hdone).
Defined.

Lemma Undo_without_exec_changes_nothing_witness :
  let conf := examples.conf false true in
  let w := examples.world_with_backup (os.Dir {[ "new" := os.File "x" ]}) in
  config.Exec conf = false
  ∧ (@Undo examples.sorts conf w).2 = None
  ∧ fs (@Undo examples.sorts conf w).1 = fs w
  ∧ data (@Undo examples.sorts conf w).1 = data w
  ∧ errs (@Undo examples.sorts conf w).1 = errs w.
Proof.
  intros conf w. split; [reflexivity|].
  destruct (@Undo_without_exec_changes_nothing examples.sorts conf w eq_refl)
    as (Hres & Hfs & Hdata & Herrs & _).
  split; [|by repeat split].
  rewrite Hres. vm_compute. reflexivity.
Defined.

End undo_more.

(** ** The name of the backup file and the document in it *)

Section names.

Import file rename spec.

Lemma Contains_char_app s t c :
  strings.Contains_char (s +:+ t) c = strings.Contains_char s c || strings.Contains_char t c.
Proof. induction s as [|a s IH]; [done|]. simpl. rewrite IH. by case_decide. Qed.

Lemma ReplaceAll_removes s old new :
  new ≠ old → strings.Contains_char (strings.ReplaceAll s old new) old = false.
Proof.
  intros Hne. induction s as [|a s IH]; [done|]. cbn.
  destruct (decide (a = old)); case_decide; done.
Qed.

Lemma ReplaceAll_idemp s old new :
  new ≠ old →
  strings.ReplaceAll (strings.ReplaceAll s old new) old new = strings.ReplaceAll s old new.
Proof.
  intros Hne. induction s as [|a s IH]; [done|]. cbn. rewrite IH.
  destruct (decide (a = old)); case_decide; done.
Qed.

Lemma append_length s t : String.length (s +:+ t) = String.length s + String.length t.
Proof. induction s as [|a s IH]; [done|]. simpl. by rewrite IH. Qed.

Lemma append_inj_r s t x : s +:+ x = t +:+ x → s = t.
Proof.
  revert t. induction s as [|a s IH]; intros [|b t]; simpl; try done.
  - intros H. apply (f_equal String.length) in H. simpl in H.
    rewrite !append_length in H. simpl in H. lia.
  - intros H. apply (f_equal String.length) in H. simpl in H.
    rewrite !append_length in H. simpl in H. lia.
  - intros [= -> H]. f_equal. by apply IH.
Qed.

(** X11.  The name of a backup file has no separator in it, whatever the working
    directory: the file lies in the backup directory itself. *)
Theorem backup_filename_is_one_name (cwd : string) :
  strings.Contains (backup_filename cwd) filepath.Separator = false.
Proof.
  unfold backup_filename, strings.Contains. cbn zeta.
  change runtime.GOOS_is_Windows with false. cbn match.
  rewrite Contains_char_app, ReplaceAll_removes by done. done.
Qed.

(** X12.  The name of the backup file does not tell a separator from an
    underscore: a working directory and the one spelled with underscores for
    separators have the same backup file, and so do any two working directories
    that are equal once the separators are replaced. *)
Theorem backup_filename_merges_separators (cwd cwd' : string) :
  backup_filename (strings.ReplaceAll cwd filepath.Separator "_"%char) = backup_filename cwd
  ∧ (backup_filename cwd = backup_filename cwd'
     ↔ strings.ReplaceAll cwd filepath.Separator "_"%char
       = strings.ReplaceAll cwd' filepath.Separator "_"%char).
Proof.
  unfold backup_filename. cbn zeta.
  change runtime.GOOS_is_Windows with false. cbn match.
  split; [by rewrite ReplaceAll_idemp|].
  split; [|by intros ->].
  apply append_inj_r.
Qed.



End names.

(** ** [filterMatches] *)

Section filter_loops.

Import os find spec.

Section loops.
Context `{!Patterns}.
Context (pathsToSearch : list string) (searchRegex excludeMatchRegex : regexp.Regexp)
  (excludeFilter : string) (includeDir includeHidden onlyDir ignoreExt : bool).

#[local] Abbreviation keep := (survives pathsToSearch searchRegex excludeMatchRegex excludeFilter
                      includeDir includeHidden onlyDir ignoreExt).
#[local] Abbreviation entries_loop path := (filter_entries path pathsToSearch searchRegex excludeMatchRegex
                      excludeFilter includeDir includeHidden onlyDir ignoreExt).
#[local] Abbreviation left_of := (filtered_entries pathsToSearch searchRegex excludeMatchRegex
                      excludeFilter includeDir includeHidden onlyDir ignoreExt).
#[local] Abbreviation dirs_loop := (filter_dirs pathsToSearch searchRegex excludeMatchRegex
                      excludeFilter includeDir includeHidden onlyDir ignoreExt).

Lemma is_argument_exists entryAbsPath args shouldSkip :
  is_argument entryAbsPath args shouldSkip
  = (shouldSkip
     && negb (existsb (λ pathArg, strings.EqualFold entryAbsPath (filepath.Abs pathArg).1) args),
     None).
Proof.
  revert shouldSkip. induction args as [|a args IH]; intros shouldSkip.
  - cbn. by rewrite andb_true_r.
  - cbn [is_argument existsb].
    assert (Habs : filepath.Abs a = ((filepath.Abs a).1, None)).
    { unfold filepath.Abs. by destruct (filepath.IsAbs a). }
    rewrite Habs at 1. rewrite IH.
    by destruct (strings.EqualFold _ _), shouldSkip.
Qed.

Lemma skip_hidden_named path entry :
  skip_hidden path (Name entry) pathsToSearch includeHidden
  = (negb (includeHidden || negb (isHidden (Name entry) path).1
           || named_by pathsToSearch path entry), None).
Proof.
  unfold skip_hidden, named_by.
  destruct includeHidden; [done|]. cbn [negb orb].
  assert (Hh : isHidden (Name entry) path = ((isHidden (Name entry) path).1, None)).
  { unfold isHidden. by destruct (Name entry). }
  rewrite Hh at 1.
  destruct (isHidden (Name entry) path).1; [|done]. cbn [negb orb].
  assert (Habs : ∀ p, filepath.Abs p = ((filepath.Abs p).1, None)).
  { intros p. unfold filepath.Abs. by destruct (filepath.IsAbs p). }
  rewrite Habs at 1. by rewrite is_argument_exists.
Qed.

(** The loop over the entries appends the entries that survive, in their
    order; the collection is assigned the list when an entry got as far as
    the match, and is untouched otherwise, when nothing was appended. *)
Lemma filter_entries_filter path dirEntry filtered paths :
  ∃ assigned : bool,
    entries_loop path dirEntry filtered paths
    = (filtered ++ filter (λ e, keep path e) dirEntry,
       if assigned then <[path := filtered ++ filter (λ e, keep path e) dirEntry]> paths
       else paths,
       None)
    ∧ (assigned = false → filter (λ e, keep path e) dirEntry = []).
Proof.
  revert filtered paths. induction dirEntry as [|entry rest IH]; intros filtered paths.
  - exists false. cbn. by rewrite app_nil_r.
  - cbn [filter_entries]. cbn zeta. rewrite skip_hidden_named.
    fold (matched_name ignoreExt entry).
    assert (Hskip : keep path entry = false →
              ∃ assigned : bool,
                entries_loop path rest filtered paths
                = (filtered ++ filter (λ e, keep path e) (entry :: rest),
                   if assigned
                   then <[path := filtered ++ filter (λ e, keep path e) (entry :: rest)]> paths
                   else paths,
                   None)
                ∧ (assigned = false → filter (λ e, keep path e) (entry :: rest) = [])).
    { intros Hk. destruct (IH filtered paths) as (a & -> & Ha). exists a.
      rewrite filter_cons_False by (rewrite Hk; exact id). done. }
    destruct (EntryIsDir entry && negb includeDir) eqn:Hd.
    { apply Hskip. unfold survives.
      apply andb_true_iff in Hd as [-> ->%negb_true_iff]. done. }
    destruct (onlyDir && negb (EntryIsDir entry)) eqn:Ho.
    { apply Hskip. unfold survives.
      apply andb_true_iff in Ho as [-> ->%negb_true_iff].
      cbn. by rewrite ?andb_false_r. }
    assert (H1 : negb (EntryIsDir entry) || includeDir = true).
    { destruct (EntryIsDir entry), includeDir; done. }
    assert (H2 : negb onlyDir || EntryIsDir entry = true).
    { destruct (EntryIsDir entry), onlyDir; done. }
    destruct (includeHidden || negb (isHidden (Name entry) path).1
              || named_by pathsToSearch path entry) eqn:Hh; cbn [negb].
    2:{ apply Hskip. unfold survives. rewrite Hh. by rewrite ?andb_false_r. }
    destruct (negb (bool_decide (excludeFilter = EmptyString))
              && regexp.MatchString excludeMatchRegex (matched_name ignoreExt entry)) eqn:He.
    { apply Hskip. unfold survives. rewrite He. cbn. by rewrite ?andb_false_r. }
    assert (Hk : keep path entry = regexp.MatchString searchRegex (matched_name ignoreExt entry)).
    { unfold survives. by rewrite H1, H2, Hh, He. }
    clear Hskip. exists true. split; [|done].
    destruct (regexp.MatchString searchRegex (matched_name ignoreExt entry)) eqn:Hm.
    + destruct (IH (filtered ++ [entry]) (<[path := filtered ++ [entry]]> paths)) as (a & -> & Ha).
      rewrite filter_cons_True by (by rewrite Hk).
      rewrite <- app_assoc. cbn [app]. f_equal. f_equal.
      destruct a; [by rewrite insert_insert_eq|].
      by rewrite Ha.
    + destruct (IH filtered (<[path := filtered]> paths)) as (a & -> & Ha).
      rewrite filter_cons_False by (rewrite Hk; exact id).
      f_equal. f_equal.
      destruct a; [by rewrite insert_insert_eq|].
      by rewrite Ha, app_nil_r.
Qed.

Lemma filter_dirs_lookup items paths :
  NoDup items.*1 →
  ∃ paths',
    dirs_loop items paths = (paths', None)
    ∧ ∀ k, paths' !! k = match (list_to_map items : Collection) !! k with
                         | Some dirEntry => left_of k dirEntry
                         | None => paths !! k
                         end.
Proof.
  revert paths. induction items as [|[path dirEntry] rest IH]; intros paths Hnd.
  - exists paths. done.
  - apply NoDup_cons in Hnd as [Hnotin Hnd]. cbn [filter_dirs].
    destruct (filter_entries_filter path dirEntry [] paths) as (a & -> & Ha).
    cbn [app].
    set (kept := filter (λ e, keep path e) dirEntry) in *.
    set (paths1 := if decide (length kept = 0) then _ else _).
    destruct (IH paths1 Hnd) as (paths' & -> & Hlook).
    exists paths'. split; [done|]. intros k. rewrite Hlook.
    cbn [list_to_map foldr]. 
    destruct (decide (path = k)) as [->|Hne].
    + rewrite lookup_insert_eq.
      rewrite (not_elem_of_list_to_map_1 _ _ Hnotin).
      unfold paths1, filtered_entries. cbn [fst snd]. cbn zeta. fold kept.
      destruct (decide (length kept = 0)) as [Hz|Hz].
      * destruct a; by rewrite ?lookup_delete_eq.
      * destruct a; [by rewrite lookup_insert_eq|].
        rewrite Ha in Hz by done. done.
    + rewrite lookup_insert_ne by done.
      destruct (list_to_map rest !! k) as [v|]; [done|].
      unfold paths1.
      destruct (decide (length kept = 0)), a;
        by rewrite ?lookup_delete_ne, ?lookup_insert_ne.
Qed.

Lemma filter_dirs_map paths :
  ∃ paths',
    dirs_loop (map_to_list paths) paths = (paths', None)
    ∧ ∀ k, paths' !! k = paths !! k ≫= left_of k.
Proof.
  destruct (filter_dirs_lookup (map_to_list paths) paths) as (paths' & Hrun & Hlook).
  { apply NoDup_fst_map_to_list. }
  exists paths'. split; [done|]. intros k. rewrite Hlook.
  rewrite list_to_map_to_list. by destruct (paths !! k).
Qed.

End loops.

Lemma filter_ext_elem {A} (P1 P2 : A → Prop)
    `{!∀ x, Decision (P1 x), !∀ x, Decision (P2 x)} (l : list A) :
  (∀ x, x ∈ l → P1 x ↔ P2 x) → filter P1 l = filter P2 l.
Proof.
  induction l as [|x l IH]; intros Hl; [done|].
  rewrite !filter_cons.
  rewrite IH by (intros y Hy; apply Hl; by right).
  destruct (decide (P1 x)) as [H1|H1], (decide (P2 x)) as [H2|H2]; try done.
  - destruct H2. apply Hl; [left|done].
  - destruct H1. apply Hl; [left|done].
Qed.

Section filter_results.
Context `{!Patterns}.

Lemma filterMatches_compiled paths args searchRegex excludeFilterInput ex
    includeDir includeHidden onlyDir ignoreExt :
  Compile (strings.Join excludeFilterInput "|") = inr ex →
  ∃ paths',
    filterMatches paths args searchRegex excludeFilterInput
      includeDir includeHidden onlyDir ignoreExt = (paths', None)
    ∧ ∀ k, paths' !! k
           = paths !! k ≫= filtered_entries args searchRegex ex
                             (strings.Join excludeFilterInput "|")
                             includeDir includeHidden onlyDir ignoreExt k.
Proof.
  intros Hc. unfold filterMatches. cbn zeta. rewrite Hc. apply filter_dirs_map.
Qed.

(** X14.  When the exclusion pattern compiles, [filterMatches] does not fail and
    filters each directory of the collection on its own: what is left under a
    path is the list of its entries that survive, in their order, and a path
    with no such entry is left out of the collection. *)
Theorem filterMatches_filters_each_directory (pathsToFilter : Collection)
    (pathsToSearch : list string) (searchRegex : regexp.Regexp)
    (excludeFilterInput : list string) (excludeMatchRegex : regexp.Regexp)
    (includeDir includeHidden onlyDir ignoreExt : bool) :
  Compile (strings.Join excludeFilterInput "|") = inr excludeMatchRegex →
  ∃ filtered,
    filterMatches pathsToFilter pathsToSearch searchRegex excludeFilterInput
      includeDir includeHidden onlyDir ignoreExt = (filtered, None)
    ∧ ∀ path,
        filtered !! path
        = match pathsToFilter !! path with
          | None => None
          | Some dirEntry =>
              let kept :=
                filter (λ entry,
                          survives pathsToSearch searchRegex excludeMatchRegex
                            (strings.Join excludeFilterInput "|")
                            includeDir includeHidden onlyDir ignoreExt path entry)
                       dirEntry in
              if decide (length kept = 0) then None else Some kept
          end.
Proof.
  intros Hc.
  destruct (filterMatches_compiled pathsToFilter pathsToSearch searchRegex excludeFilterInput
              excludeMatchRegex includeDir includeHidden onlyDir ignoreExt Hc)
    as (filtered & Hrun & Hlook).
  exists filtered. split; [done|]. intros path. rewrite Hlook.
  by destruct (pathsToFilter !! path).
Qed.

(** X15.  What [filterMatches] leaves under a path is not empty and is a sublist
    of what was there. Each entry left is matched by the search pattern and,
    when the exclusion pattern is not empty, is not matched by it: an entry both
    patterns match is dropped. A directory is left only when directories are
    included, a file only when not directories alone are asked for, and a hidden
    entry, when hidden entries are not included, only when one of the paths
    given names it. *)
Theorem filterMatches_exclusion_comes_first (pathsToFilter : Collection)
    (pathsToSearch : list string) (searchRegex : regexp.Regexp)
    (excludeFilterInput : list string) (excludeMatchRegex : regexp.Regexp)
    (includeDir includeHidden onlyDir ignoreExt : bool)
    (path : string) (kept : list DirEntry) :
  Compile (strings.Join excludeFilterInput "|") = inr excludeMatchRegex →
  (filterMatches pathsToFilter pathsToSearch searchRegex excludeFilterInput
     includeDir includeHidden onlyDir ignoreExt).1 !! path = Some kept →
  kept ≠ []
  ∧ ∃ dirEntry,
      pathsToFilter !! path = Some dirEntry
      ∧ sublist kept dirEntry
      ∧ ∀ entry, entry ∈ kept →
          regexp.MatchString searchRegex (matched_name ignoreExt entry) = true
          ∧ (strings.Join excludeFilterInput "|" ≠ EmptyString →
             regexp.MatchString excludeMatchRegex (matched_name ignoreExt entry) = false)
          ∧ (EntryIsDir entry = true → includeDir = true)
          ∧ (onlyDir = true → EntryIsDir entry = true)
          ∧ (includeHidden = false → (isHidden (Name entry) path).1 = true →
             named_by pathsToSearch path entry = true).
Proof.
  intros Hc.
  destruct (filterMatches_compiled pathsToFilter pathsToSearch searchRegex excludeFilterInput
              excludeMatchRegex includeDir includeHidden onlyDir ignoreExt Hc)
    as (filtered & -> & Hlook).
  cbn [fst]. rewrite Hlook.
  destruct (pathsToFilter !! path) as [dirEntry|]; [|done]. cbn.
  unfold filtered_entries. cbn zeta. case_decide as Hz; [done|]. intros [= <-].
  split; [by intros Hnil; rewrite Hnil in Hz|].
  exists dirEntry. split; [done|]. split; [apply sublist_filter|].
  intros entry [Hkeep _]%list_elem_of_filter.
  unfold survives in Hkeep.
  repeat (apply andb_prop_elim in Hkeep as [Hkeep ?]).
  repeat match goal with H : Is_true _ |- _ => apply Is_true_true in H end.
  split; [done|]. split.
  { intros Hne. rewrite bool_decide_eq_false_2 in * by done.
    by destruct (regexp.MatchString excludeMatchRegex _). }
  split; [intros Hd; rewrite Hd in *; by destruct includeDir|].
  split; [intros ->; by destruct (EntryIsDir entry)|].
  intros -> Hh. rewrite Hh in *. done.
Qed.

(** X16.  Asking for directories alone without including directories leaves
    nothing: every entry is dropped, as a directory by the first test or as a
    file by the second, and the collection comes out empty. *)
Theorem filterMatches_only_directories_needs_includeDir (pathsToFilter : Collection)
    (pathsToSearch : list string) (searchRegex : regexp.Regexp)
    (excludeFilterInput : list string) (excludeMatchRegex : regexp.Regexp)
    (includeHidden ignoreExt : bool) :
  Compile (strings.Join excludeFilterInput "|") = inr excludeMatchRegex →
  filterMatches pathsToFilter pathsToSearch searchRegex excludeFilterInput
    false includeHidden true ignoreExt = (∅, None).
Proof.
  intros Hc.
  destruct (filterMatches_compiled pathsToFilter pathsToSearch searchRegex excludeFilterInput
              excludeMatchRegex false includeHidden true ignoreExt Hc)
    as (filtered & -> & Hlook).
  f_equal. apply map_eq. intros k. rewrite Hlook, lookup_empty.
  destruct (pathsToFilter !! k) as [dirEntry|]; [|done]. cbn.
  unfold filtered_entries. cbn zeta.
  assert (Hnone : filter (λ e, survives pathsToSearch searchRegex excludeMatchRegex
                                 (strings.Join excludeFilterInput "|")
                                 false includeHidden true ignoreExt k e) dirEntry = []).
  { induction dirEntry as [|e l IH]; [done|].
    rewrite filter_cons_False; [done|].
    unfold survives. destruct (EntryIsDir e); cbn; exact id. }
  by rewrite Hnone.
Qed.

(** X17.  [filterMatches] fails exactly when the exclusion pattern does not
    compile, with the error of the compilation, and then leaves the collection
    as it was. *)
Theorem filterMatches_fails_on_the_pattern_only (pathsToFilter : Collection)
    (pathsToSearch : list string) (searchRegex : regexp.Regexp)
    (excludeFilterInput : list string)
    (includeDir includeHidden onlyDir ignoreExt : bool) (err : error) :
  ((filterMatches pathsToFilter pathsToSearch searchRegex excludeFilterInput
      includeDir includeHidden onlyDir ignoreExt).2 = Some err
   ↔ Compile (strings.Join excludeFilterInput "|") = inl err)
  ∧ (Compile (strings.Join excludeFilterInput "|") = inl err →
     filterMatches pathsToFilter pathsToSearch searchRegex excludeFilterInput
       includeDir includeHidden onlyDir ignoreExt = (pathsToFilter, Some err)).
Proof.
  destruct (Compile (strings.Join excludeFilterInput "|")) as [e|ex] eqn:Hc.
  - unfold filterMatches. cbn zeta. rewrite Hc. cbn.
    split; [split; congruence|congruence].
  - destruct (filterMatches_compiled pathsToFilter pathsToSearch searchRegex excludeFilterInput
                ex includeDir includeHidden onlyDir ignoreExt Hc)
      as (filtered & -> & _).
    done.
Qed.

(** X18.  Hidden entries that are named by one of the paths given are not
    affected by the exclusion of hidden entries: when every hidden entry of the
    collection is so named, [filterMatches] gives the same with hidden entries
    excluded as with hidden entries included. *)
Theorem filterMatches_spares_hidden_arguments (pathsToFilter : Collection)
    (pathsToSearch : list string) (searchRegex : regexp.Regexp)
    (excludeFilterInput : list string)
    (includeDir onlyDir ignoreExt : bool) :
  (∀ path dirEntry entry,
     pathsToFilter !! path = Some dirEntry → entry ∈ dirEntry →
     (isHidden (Name entry) path).1 = true →
     named_by pathsToSearch path entry = true) →
  filterMatches pathsToFilter pathsToSearch searchRegex excludeFilterInput
    includeDir false onlyDir ignoreExt
  = filterMatches pathsToFilter pathsToSearch searchRegex excludeFilterInput
      includeDir true onlyDir ignoreExt.
Proof.
  intros Hargs.
  destruct (Compile (strings.Join excludeFilterInput "|")) as [e|ex] eqn:Hc.
  { unfold filterMatches. cbn zeta. by rewrite Hc. }
  destruct (filterMatches_compiled pathsToFilter pathsToSearch searchRegex excludeFilterInput
              ex includeDir false onlyDir ignoreExt Hc) as (f1 & -> & Hl1).
  destruct (filterMatches_compiled pathsToFilter pathsToSearch searchRegex excludeFilterInput
              ex includeDir true onlyDir ignoreExt Hc) as (f2 & -> & Hl2).
  f_equal. apply map_eq. intros k. rewrite Hl1, Hl2.
  destruct (pathsToFilter !! k) as [dirEntry|] eqn:Hk; [|done]. cbn.
  unfold filtered_entries. cbn zeta.
  assert (Heq : filter (λ e, survives pathsToSearch searchRegex ex
                               (strings.Join excludeFilterInput "|")
                               includeDir false onlyDir ignoreExt k e) dirEntry
                = filter (λ e, survives pathsToSearch searchRegex ex
                               (strings.Join excludeFilterInput "|")
                               includeDir true onlyDir ignoreExt k e) dirEntry).
  { apply filter_ext_elem. intros e He.
    unfold survives. cbn [orb].
    destruct (isHidden (Name e) k).1 eqn:Hh; [|done].
    by rewrite (Hargs k dirEntry e Hk He Hh). }
  by rewrite Heq.
Qed.

(** X19.  Filtering what [filterMatches] has left, with the same patterns and
    options, changes nothing. *)
Theorem filterMatches_twice (pathsToFilter : Collection)
    (pathsToSearch : list string) (searchRegex : regexp.Regexp)
    (excludeFilterInput : list string)
    (includeDir includeHidden onlyDir ignoreExt : bool) :
  let once := filterMatches pathsToFilter pathsToSearch searchRegex excludeFilterInput
                includeDir includeHidden onlyDir ignoreExt in
  filterMatches once.1 pathsToSearch searchRegex excludeFilterInput
    includeDir includeHidden onlyDir ignoreExt = once.
Proof.
  cbn zeta.
  destruct (Compile (strings.Join excludeFilterInput "|")) as [e|ex] eqn:Hc.
  { unfold filterMatches. cbn zeta. by rewrite !Hc. }
  destruct (filterMatches_compiled pathsToFilter pathsToSearch searchRegex excludeFilterInput
              ex includeDir includeHidden onlyDir ignoreExt Hc) as (f1 & -> & Hl1).
  cbn [fst].
  destruct (filterMatches_compiled f1 pathsToSearch searchRegex excludeFilterInput
              ex includeDir includeHidden onlyDir ignoreExt Hc) as (f2 & -> & Hl2).
  f_equal. apply map_eq. intros k. rewrite Hl2, Hl1.
  destruct (pathsToFilter !! k) as [dirEntry|] eqn:Hk; [|done]. cbn.
  unfold filtered_entries. cbn zeta.
  set (kept := filter _ dirEntry).
  destruct (decide (length kept = 0)) as [Hz|Hz]; [done|]. cbn.
  unfold kept. rewrite list_filter_filter_l by done. fold kept. by rewrite decide_False.
Qed.

End filter_results.
Lemma filterMatches_filters_each_directory_witness :
  let img_1 := {| Name := "img_1"; EntryIsDir := false |} in
  let img_2 := {| Name := "img_2.tmp"; EntryIsDir := false |} in
  let notes := {| Name := "notes"; EntryIsDir := false |} in
  let pathsToFilter : Collection := {[ "." := [img_1; img_2; notes]; "d" := [notes] ]} in
  let searchRegex := {| regexp.MatchString name := String.prefix "img" name |} in
  let excludeMatchRegex := {| regexp.MatchString name := String.prefix "img_2" name |} in
  @Compile examples.patterns (strings.Join ["img_2"] "|") = inr excludeMatchRegex
  ∧ @filterMatches examples.patterns pathsToFilter ["."] searchRegex ["img_2"]
      false false false false
    = ({[ "." := [img_1] ]}, None).
Proof.
  intros img_1 img_2 notes pathsToFilter searchRegex excludeMatchRegex.
  split; [reflexivity|].
  destruct (@filterMatches_filters_each_directory examples.patterns pathsToFilter ["."]
              searchRegex ["img_2"] excludeMatchRegex false false false false eq_refl)
    as (filtered & -> & Hlook).
  f_equal. apply map_eq. intros path. rewrite Hlook.
  destruct (decide (path = ".")) as [->|Hdot]; [by vm_compute|].
  destruct (decide (path = "d")) as [->|Hd]; [by vm_compute|].
  unfold pathsToFilter.
  rewrite lookup_insert_ne, lookup_singleton_ne, lookup_singleton_ne by done. done.
Defined.

Lemma filterMatches_exclusion_comes_first_witness :
  let img_1 := {| Name := "img_1"; EntryIsDir := false |} in
  let img_2 := {| Name := "img_2.tmp"; EntryIsDir := false |} in
  let pathsToFilter : Collection := {[ "." := [img_1; img_2] ]} in
  let searchRegex := {| regexp.MatchString name := String.prefix "img" name |} in
  let excludeMatchRegex := {| regexp.MatchString name := String.prefix "img_2" name |} in
  @Compile examples.patterns (strings.Join ["img_2"] "|") = inr excludeMatchRegex
  ∧ (@filterMatches examples.patterns pathsToFilter ["."] searchRegex ["img_2"]
       false false false false).1 !! "." = Some [img_1]
  ∧ regexp.MatchString searchRegex (@matched_name examples.patterns false img_2) = true
  ∧ ∀ entry, entry ∈ [img_1] →
      regexp.MatchString excludeMatchRegex (@matched_name examples.patterns false entry) = false.
Proof.
  intros img_1 img_2 pathsToFilter searchRegex excludeMatchRegex.
  assert (Hleft : (@filterMatches examples.patterns pathsToFilter ["."] searchRegex ["img_2"]
                     false false false false).1 !! "." = Some [img_1])
    by (vm_compute; reflexivity).
  split; [reflexivity|]. split; [exact Hleft|]. split; [reflexivity|].
  destruct (@filterMatches_exclusion_comes_first examples.patterns pathsToFilter ["."]
              searchRegex ["img_2"] excludeMatchRegex false false false false "." [img_1]
              eq_refl Hleft)
    as (_ & dirEntry & _ & _ & Hkept).
  intros entry Hentry. destruct (Hkept entry Hentry) as (_ & Hexcluded & _).
  apply Hexcluded. discriminate.
Defined.

Lemma filterMatches_only_directories_needs_includeDir_witness :
  let pathsToFilter : Collection :=
    {[ "." := [ {| Name := "img"; EntryIsDir := true |};
                {| Name := "img_1"; EntryIsDir := false |} ] ]} in
  let searchRegex := {| regexp.MatchString name := String.prefix "img" name |} in
  let excludeMatchRegex := {| regexp.MatchString name := String.prefix EmptyString name |} in
  @Compile examples.patterns (strings.Join [] "|") = inr excludeMatchRegex
  ∧ @filterMatches examples.patterns pathsToFilter ["."] searchRegex []
      false false true false = (∅, None).
Proof.
  intros pathsToFilter searchRegex excludeMatchRegex. split; [reflexivity|].
  apply (@filterMatches_only_directories_needs_includeDir examples.patterns pathsToFilter ["."]
           searchRegex [] excludeMatchRegex false false).
  reflexivity.
Defined.

Lemma filterMatches_spares_hidden_arguments_witness :
  let pathsToFilter : Collection := {[ "." := [ {| Name := ".h"; EntryIsDir := false |} ] ]} in
  let searchRegex := {| regexp.MatchString name := String.prefix ".h" name |} in
  (∀ path dirEntry entry,
     pathsToFilter !! path = Some dirEntry → entry ∈ dirEntry →
     (isHidden (Name entry) path).1 = true →
     named_by [".h"] path entry = true)
  ∧ @filterMatches examples.patterns pathsToFilter [".h"] searchRegex [] false false false false
    = @filterMatches examples.patterns pathsToFilter [".h"] searchRegex [] false true false false
  ∧ @filterMatches examples.patterns pathsToFilter [".h"] searchRegex [] false false false false
    = (pathsToFilter, None).
Proof.
  intros pathsToFilter searchRegex.
  assert (Hnamed : ∀ path dirEntry entry,
            pathsToFilter !! path = Some dirEntry → entry ∈ dirEntry →
            (isHidden (Name entry) path).1 = true →
            named_by [".h"] path entry = true).
  { intros path dirEntry entry [<- <-]%lookup_singleton_Some ->%list_elem_of_singleton _.
    vm_compute. reflexivity. }
  split; [exact Hnamed|]. split.
  - exact (@filterMatches_spares_hidden_arguments examples.patterns pathsToFilter [".h"]
             searchRegex [] false false false Hnamed).
  - vm_compute. reflexivity.
Defined.

End filter_loops.

(** ** [searchPaths] and [walk] *)

Section discovery.

Import os find spec.

Section search.
Variable tree : node.

Lemma ReadDir_NoDup k v : ReadDir tree k = (v, None) → NoDup (Name <$> v).
Proof.
  unfold ReadDir. destruct (stat tree (resolve k)) as [e|[c|es]]; [done..|].
  intros [= <-].
  rewrite (merge_sort_Permutation name_le (entry_of <$> map_to_list es)).
  rewrite <- list_fmap_compose.
  assert (Heq : Name ∘ entry_of = (fst : string * node → string)) by done.
  rewrite Heq. apply NoDup_fst_map_to_list.
Qed.

Lemma listed_insert_full paths k v :
  listed tree paths → ReadDir tree k = (v, None) → listed tree (<[k := v]> paths).
Proof.
  intros Hl Hread k' l. destruct (decide (k' = k)) as [->|Hne].
  - rewrite lookup_insert_eq. intros [= <-]. rewrite Hread. cbn.
    split; [done|]. split; [done|]. by eapply ReadDir_NoDup.
  - rewrite lookup_insert_ne by done. apply Hl.
Qed.

Lemma find_name_elem (name : string) (dirEntry : list DirEntry) entry :
  List.find (λ entry, bool_decide (Name entry = name)) dirEntry = Some entry →
  entry ∈ dirEntry ∧ Name entry = name.
Proof.
  intros Hf. apply List.find_some in Hf as [Hin Hname].
  split; [by apply list_elem_of_In|]. by apply bool_decide_eq_true in Hname.
Qed.

Lemma existsb_name_false (name : string) (present : list DirEntry) :
  existsb (λ e, bool_decide (Name e = name)) present = false → name ∉ Name <$> present.
Proof.
  induction present as [|e l IH]; cbn; [intros _; by apply not_elem_of_nil|].
  intros [Hne Hrest]%orb_false_iff. apply bool_decide_eq_false in Hne.
  apply not_elem_of_cons. split; [done|by apply IH].
Qed.

Lemma seed_listed pathsToSearch paths paths' :
  seed tree pathsToSearch paths = (paths', None) →
  listed tree paths → listed tree paths'.
Proof.
  revert paths. induction pathsToSearch as [|path rest IH]; intros paths.
  - cbn. by intros [= <-].
  - cbn [seed]. cbn zeta. case_decide as Hseen; [apply IH|].
    destruct (Stat tree (filepath.Clean path)) as [[fileInfo|] [e|]]; try done.
    destruct (EntryIsDir fileInfo).
    + destruct (ReadDir tree (filepath.Clean path)) as [entries [e|]] eqn:Hread; [done|].
      intros Hrun Hl. eapply IH; [done|]. by apply listed_insert_full.
    + destruct (ReadDir tree (filepath.Dir (filepath.Clean path))) as [dirEntry [e|]] eqn:Hread;
        [done|].
      destruct (List.find _ dirEntry) as [entry|] eqn:Hfind; [|apply IH].
      destruct (existsb _ _) eqn:Hex; [apply IH|].
      intros Hrun Hl. eapply IH; [done|].
      apply find_name_elem in Hfind as [Hin Hname].
      apply existsb_name_false in Hex.
      set (dir := filepath.Dir (filepath.Clean path)) in *.
      intros k l. destruct (decide (k = dir)) as [->|Hne].
      * rewrite lookup_insert_eq. intros [= <-]. rewrite Hread. cbn.
        split; [done|].
        unfold lookup_total, map_lookup_total in *.
        destruct (paths !! dir) as [present|] eqn:Hp; cbn in *.
        -- destruct (Hl dir present Hp) as (_ & Hsub & Hnd). rewrite Hread in Hsub. cbn in Hsub.
           split.
           ++ intros e [He| ->%list_elem_of_singleton]%elem_of_app; [by apply Hsub|done].
           ++ rewrite fmap_app. apply NoDup_app. split; [done|]. split; [|apply NoDup_singleton].
              intros x Hx ->%list_elem_of_singleton. by rewrite Hname in Hx.
        -- split; [by intros e ->%list_elem_of_singleton|apply NoDup_singleton].
      * rewrite lookup_insert_ne by done. apply Hl.
Qed.

Lemma pass_listed maxDepth includeHidden st :
  currentLevel st = ∅ → listed tree (paths st) →
  match pass tree maxDepth includeHidden st with
  | Again st' => currentLevel st' = ∅ ∧ listed tree (paths st')
  | Return st' _ => listed tree (paths st')
  end.
Proof.
  intros Hlevel Hl.
  pose proof (pass_cases tree maxDepth includeHidden st Hlevel) as Hpass.
  assert (Hkeep : ∀ st', pass_leaves tree st st' → listed tree (paths st')).
  { intros st' (_ & _ & Hkeys) k v Hk.
    destruct (Hkeys k v Hk) as [Hold|(dir & c & e & _ & _ & _ & _ & Hread)]; [by apply Hl|].
    rewrite Hread. cbn. split; [done|]. split; [done|]. by eapply ReadDir_NoDup. }
  destruct (pass tree maxDepth includeHidden st) as [st'|st' [e|]].
  - destruct Hpass as (Hleaves & Hdepth & _). split; [|by apply Hkeep].
    destruct Hleaves as (_ & [[Heq _]|[_ Hempty]] & _); [lia|done].
  - destruct Hpass as [Hleaves _]. by apply Hkeep.
  - destruct Hpass as [Hleaves _]. by apply Hkeep.
Qed.

Lemma walk_from_listed fuel maxDepth includeHidden st st' err :
  currentLevel st = ∅ → listed tree (paths st) →
  walk_from fuel tree maxDepth includeHidden st = Some (st', err) →
  listed tree (paths st').
Proof.
  revert st. induction fuel as [|fuel IH]; intros st Hlevel Hl; [done|].
  cbn [walk_from].
  pose proof (pass_listed maxDepth includeHidden st Hlevel Hl) as Hpass.
  destruct (pass tree maxDepth includeHidden st) as [st1|st1 e].
  - destruct Hpass. by apply IH.
  - by intros [= <- <-].
Qed.

(** X20.  What [searchPaths] reports is in the tree: every path of the
    collection it returns is a directory that can be read, every entry under it
    is an entry of that directory, and no name is under it twice. *)
Theorem searchPaths_reports_entries_of_the_tree (fuel : nat) (pathsToSearch : list string)
    (maxDepth : Z) (recursive includeHidden : bool) (found : Collection) :
  searchPaths fuel tree pathsToSearch maxDepth recursive includeHidden
  = Some (Some found, None) →
  ∀ path dirEntry, found !! path = Some dirEntry →
    (ReadDir tree path).2 = None
    ∧ (∀ entry, entry ∈ dirEntry → entry ∈ (ReadDir tree path).1)
    ∧ NoDup (Name <$> dirEntry).
Proof.
  unfold searchPaths. cbn zeta.
  set (args := if decide (length pathsToSearch = 0) then _ else _).
  destruct (seed tree args ∅) as [paths [e|]] eqn:Hseed; [done|].
  assert (Hl : listed tree paths).
  { eapply seed_listed; [done|]. intros k l Hk. by rewrite lookup_empty in Hk. }
  destruct recursive; [|intros [= <-]; apply Hl].
  unfold walk.
  destruct (walk_from _ _ _ _ _) as [[st [e|]]|] eqn:Hwalk; try done.
  intros [= <-]. eapply walk_from_listed; [..|done]; done.
Qed.

End search.

Section descent.
Variables (tree : node) (includeHidden : bool).

Lemma removeHidden_filter de baseDir :
  removeHidden de baseDir
  = (filter (λ e, (isHidden (Name e) baseDir).1 = false) de, None).
Proof.
  induction de as [|e de IH]; [done|].
  cbn [removeHidden]. rewrite IH.
  assert (Hh : isHidden (Name e) baseDir = ((isHidden (Name e) baseDir).1, None)).
  { unfold isHidden. by destruct (Name e). }
  rewrite Hh at 1. rewrite filter_cons.
  destruct (isHidden (Name e) baseDir).1; by case_decide.
Qed.

(** The entries the walk looks at in a directory. *)
Lemma shown_entries dir dirContents visible :
  (if includeHidden then (dirContents, None) else removeHidden dirContents dir)
  = (visible, None) →
  ∀ e, e ∈ visible ∧ EntryIsDir e = true ↔ e ∈ dirContents ∧ shown includeHidden dir e.
Proof.
  unfold shown. destruct includeHidden.
  - intros [= <-] e. intuition congruence.
  - rewrite removeHidden_filter. intros [= <-] e.
    rewrite list_elem_of_filter. intuition congruence.
Qed.

Lemma read_subdirs_mono dir dirContents level level' err k :
  read_subdirs tree dir dirContents level = (level', err) →
  is_Some (level !! k) → is_Some (level' !! k).
Proof.
  revert level. induction dirContents as [|entry rest IH]; intros level.
  - cbn. by intros [= <- <-].
  - cbn [read_subdirs]. destruct (EntryIsDir entry); [|apply IH].
    destruct (ReadDir tree _) as [dirEntry [e|]]; [by intros [= <- <-]|].
    intros Hrun Hk. eapply IH; [done|].
    rewrite lookup_insert_is_Some. destruct (decide (filepath.Join [dir; Name entry] = k)); auto.
Qed.

Lemma read_subdirs_reads dir dirContents level level' entry :
  read_subdirs tree dir dirContents level = (level', None) →
  entry ∈ dirContents → EntryIsDir entry = true →
  is_Some (level' !! filepath.Join [dir; Name entry]).
Proof.
  revert level. induction dirContents as [|e rest IH]; intros level Hrun Hin Hdir.
  - by apply elem_of_nil in Hin.
  - cbn [read_subdirs] in Hrun. apply elem_of_cons in Hin as [->|Hin].
    + rewrite Hdir in Hrun.
      destruct (ReadDir tree _) as [dirEntry [err|]]; [done|].
      eapply read_subdirs_mono; [done|]. by rewrite lookup_insert_eq.
    + destruct (EntryIsDir e); [|by eapply IH].
      destruct (ReadDir tree _) as [dirEntry [err|]]; [done|]. by eapply IH.
Qed.

Lemma expand_mono items recursed level recursed' level' err k :
  expand tree includeHidden items recursed level = (recursed', level', err) →
  is_Some (level !! k) → is_Some (level' !! k).
Proof.
  revert recursed level. induction items as [|[dir dirContents] rest IH]; intros recursed level.
  - cbn. by intros [= <- <- <-].
  - cbn [expand]. case_bool_decide; [apply IH|].
    destruct (if includeHidden then _ else _) as [visible [e|]]; [by intros [= <- <- <-]|].
    destruct (read_subdirs tree dir visible level) as [level1 [e|]] eqn:Hsub.
    + intros [= <- <- <-]. by eapply read_subdirs_mono.
    + intros Hrun Hk. eapply IH; [done|]. by eapply read_subdirs_mono.
Qed.

(** What a run of [expand] without an error has done: the directories
    expanded are the ones of before and the directories of [items]; for
    each of the latter that was not expanded before, the subdirectories the
    walk looks at are in the level. *)
Lemma expand_done items recursed level recursed' level' :
  expand tree includeHidden items recursed level = (recursed', level', None) →
  (∀ k, k ∈ recursed' ↔ k ∈ recursed ∨ k ∈ items.*1)
  ∧ ∀ dir dirContents e,
      (dir, dirContents) ∈ items → NoDup items.*1 → dir ∉ recursed →
      e ∈ dirContents → shown includeHidden dir e →
      is_Some (level' !! filepath.Join [dir; Name e]).
Proof.
  revert recursed level. induction items as [|[dir dirContents] rest IH]; intros recursed level.
  - cbn. intros [= <- <-]. split.
    + intros k. rewrite elem_of_nil. tauto.
    + intros ? ? ? Hin. by apply elem_of_nil in Hin.
  - cbn [expand]. case_bool_decide as Hseen.
    + intros Hrun. destruct (IH _ _ Hrun) as [Hrec Hlev]. split.
      * intros k. rewrite Hrec. cbn. rewrite elem_of_cons.
        split; [intros [?|?]; auto|intros [?|[->|?]]; auto].
      * intros d c e Hin Hnd Hnot He Hshown.
        apply NoDup_cons in Hnd as [_ Hnd].
        apply elem_of_cons in Hin as [[= -> ->]|Hin]; [done|]. by eapply Hlev.
    + destruct (if includeHidden then _ else _) as [visible [e|]] eqn:Hvis; [done|].
      destruct (read_subdirs tree dir visible level) as [level1 [e|]] eqn:Hsub; [done|].
      intros Hrun. destruct (IH _ _ Hrun) as [Hrec Hlev]. split.
      * intros k. rewrite Hrec. cbn. rewrite elem_of_app, list_elem_of_singleton, elem_of_cons.
        tauto.
      * intros d c e Hin Hnd Hnot He Hshown.
        apply NoDup_cons in Hnd as [Hfresh Hnd].
        apply elem_of_cons in Hin as [[= -> ->]|Hin].
        -- eapply expand_mono; [done|].
           eapply read_subdirs_reads; [done| |by destruct Hshown].
           by apply (shown_entries _ _ _ Hvis).
        -- eapply Hlev; try done.
           intros [?| ->%list_elem_of_singleton]%elem_of_app; [done|].
           apply Hfresh. apply list_elem_of_fmap. by exists (dir, c).
Qed.


End descent.

Section walk_results.
Variables (tree : node) (includeHidden : bool).




Lemma pass_complete maxDepth st :
  (maxDepth ≤ 0)%Z → complete_so_far tree includeHidden st →
  match pass tree maxDepth includeHidden st with
  | Again st' =>
      complete_so_far tree includeHidden st' ∧ ∀ k v, paths st !! k = Some v → paths st' !! k = Some v
  | Return st' None =>
      paths st' = paths st ∧ ∀ k, is_Some (paths st !! k) → closed_at includeHidden (paths st) k
  | Return _ (Some _) => True
  end.
Proof.
  intros Hmax (Hlevel & Hfull & Hrec). unfold pass. rewrite Hlevel.
  destruct (expand _ _ _ _ _) as [[recursed level] [e|]] eqn:Hexp; [done|].
  destruct (expand_done _ _ _ _ _ _ _ Hexp) as [Hrecursed Hread].
  assert (Hlevelfull : full tree level).
  { intros k v Hk.
    destruct (expand_keys _ _ _ _ _ _ _ _ _ _ Hexp Hk) as [Hempty|(_ & _ & _ & _ & _ & _ & _ & ?)];
      [by rewrite lookup_empty in Hempty|done]. }
  assert (Hnew : ∀ k v e, paths st !! k = Some v → k ∉ recursedPaths st →
            e ∈ v → shown includeHidden k e →
            is_Some (level !! filepath.Join [k; Name e])).
  { intros k v e Hk Hnot He Hshown.
    eapply Hread; try done; [by apply elem_of_map_to_list|apply NoDup_fst_map_to_list]. }
  case_decide as Hsize.
  - rewrite bool_decide_eq_false_2 by lia. cbn [andb negb].
    assert (Hmono : ∀ k v, paths st !! k = Some v → (level ∪ paths st) !! k = Some v).
    { intros k v Hk. apply lookup_union_Some_raw.
      destruct (level !! k) as [v'|] eqn:Hl; [left|by right].
      apply Hlevelfull in Hl. apply Hfull in Hk. congruence. }
    split; [|done]. split; [done|]. cbn [paths recursedPaths]. split.
    { intros k v [Hk|[_ Hk]]%lookup_union_Some_raw; [by apply Hlevelfull|by apply Hfull]. }
    intros k Hk.
    assert (Hdom : is_Some (paths st !! k)).
    { apply Hrecursed in Hk as [Hk|Hk]; [by apply Hrec|].
      apply list_elem_of_fmap in Hk as ([k' v] & -> & Hin).
      apply elem_of_map_to_list in Hin. by eexists. }
    destruct Hdom as [v0 Hv0]. split; [exists v0; by apply Hmono|].
    intros v e Hv He Hshown.
    rewrite (Hmono _ _ Hv0) in Hv. injection Hv as <-.
    apply lookup_union_is_Some.
    destruct (decide (k ∈ recursedPaths st)) as [Hold|Hfresh].
    + right. by eapply (proj2 (Hrec k Hold)).
    + left. by eapply Hnew.
  - assert (Hempty : level = ∅) by (apply map_size_empty_inv; lia).
    subst level. cbn [paths]. split; [done|].
    intros k [v0 Hv0].
    destruct (decide (k ∈ recursedPaths st)) as [Hold|Hfresh]; [by apply Hrec|].
    intros v e Hv He Hshown.
    destruct (Hnew k v e Hv Hfresh He Hshown) as [? Hno]. by rewrite lookup_empty in Hno.
Qed.

Lemma walk_from_complete fuel maxDepth st st' :
  (maxDepth ≤ 0)%Z → complete_so_far tree includeHidden st →
  walk_from fuel tree maxDepth includeHidden st = Some (st', None) →
  (∀ k v, paths st !! k = Some v → paths st' !! k = Some v)
  ∧ full tree (paths st')
  ∧ ∀ k, is_Some (paths st' !! k) → closed_at includeHidden (paths st') k.
Proof.
  intros Hmax. revert st. induction fuel as [|fuel IH]; intros st Hinv; [done|].
  cbn [walk_from].
  pose proof (pass_complete maxDepth st Hmax Hinv) as Hpass.
  destruct (pass tree maxDepth includeHidden st) as [st1|st1 [e|]]; [|done|].
  - destruct Hpass as [Hinv1 Hmono]. intros Hrun.
    destruct (IH st1 Hinv1 Hrun) as (Hmono' & Hfull' & Hclosed).
    split; [auto|done].
  - destruct Hpass as [Heq Hclosed]. intros [= <-]. rewrite Heq.
    split; [done|]. split; [apply Hinv|done].
Qed.

(** X22.  A walk without a bound, started on full listings and returning without
    an error, has read every directory below the ones it started with: the
    listings it started with are kept, and for every entry of the collection
    that is a directory, and is not hidden unless hidden entries are included,
    the collection holds the listing of that directory. *)
Theorem walk_without_a_bound_reads_every_directory (fuel : nat) (start : Collection)
    (maxDepth : Z) (st : state) :
  (maxDepth ≤ 0)%Z →
  (∀ k v, start !! k = Some v → ReadDir tree k = (v, None)) →
  walk fuel tree start maxDepth includeHidden = Some (st, None) →
  (∀ k v, start !! k = Some v → paths st !! k = Some v)
  ∧ ∀ dir dirContents entry,
      paths st !! dir = Some dirContents → entry ∈ dirContents →
      EntryIsDir entry = true →
      (includeHidden = false → (isHidden (Name entry) dir).1 = false) →
      ∃ entries,
        paths st !! filepath.Join [dir; Name entry] = Some entries
        ∧ ReadDir tree (filepath.Join [dir; Name entry]) = (entries, None).
Proof.
  intros Hmax Hfull Hrun. unfold walk in Hrun.
  apply walk_from_complete in Hrun as (Hmono & Hfull' & Hclosed); [|done|].
  2:{ split; [done|]. split; [done|]. cbn. intros k Hk. by apply elem_of_nil in Hk. }
  split; [done|]. intros dir dirContents entry Hdir Hin Hisdir Hshown.
  destruct (Hclosed dir (ex_intro _ _ Hdir) dirContents entry Hdir Hin (conj Hisdir Hshown))
    as [entries Hentries].
  exists entries. split; [done|]. by apply Hfull'.
Qed.

End walk_results.
Lemma searchPaths_reports_entries_of_the_tree_witness :
  let found : Collection :=
    {[ "." := [ {| Name := ".h"; EntryIsDir := true |};
                {| Name := "a"; EntryIsDir := true |};
                {| Name := "c"; EntryIsDir := false |} ];
       ".h" := [ {| Name := "hid"; EntryIsDir := true |} ];
       "a" := [ {| Name := "b"; EntryIsDir := true |};
                {| Name := "f"; EntryIsDir := false |} ] ]} in
  searchPaths 1 examples.deep ["."] 1 true true = Some (Some found, None)
  ∧ ∀ path dirEntry, found !! path = Some dirEntry →
      (ReadDir examples.deep path).2 = None
      ∧ (∀ entry, entry ∈ dirEntry → entry ∈ (ReadDir examples.deep path).1)
      ∧ NoDup (Name <$> dirEntry).
Proof.
  intros found.
  assert (Hrun : searchPaths 1 examples.deep ["."] 1 true true = Some (Some found, None))
    by (vm_compute; reflexivity).
  split; [exact Hrun|].
  exact (searchPaths_reports_entries_of_the_tree examples.deep 1 ["."] 1 true true found Hrun).
Defined.


Lemma walk_without_a_bound_reads_every_directory_witness :
  let start : Collection := {[ "." := (ReadDir examples.deep ".").1 ]} in
  ∃ st,
    (0 ≤ 0)%Z
    ∧ (∀ k v, start !! k = Some v → ReadDir examples.deep k = (v, None))
    ∧ walk 5 examples.deep start 0 true = Some (st, None)
    ∧ ∀ dir dirContents entry,
        paths st !! dir = Some dirContents → entry ∈ dirContents →
        EntryIsDir entry = true →
        (true = false → (isHidden (Name entry) dir).1 = false) →
        ∃ entries,
          paths st !! filepath.Join [dir; Name entry] = Some entries
          ∧ ReadDir examples.deep (filepath.Join [dir; Name entry]) = (entries, None).
Proof.
  intros start.
  assert (Hfull : ∀ k v, start !! k = Some v → ReadDir examples.deep k = (v, None)).
  { intros k v [<- <-]%lookup_singleton_Some. vm_compute. reflexivity. }
  destruct (walk 5 examples.deep start 0 true) as [[st [e|]]|] eqn:Hrun;
    [by vm_compute in Hrun| |by vm_compute in Hrun].
  exists st. split; [reflexivity|]. split; [exact Hfull|]. split; [reflexivity|].
  exact (proj2 (walk_without_a_bound_reads_every_directory examples.deep true 5 start 0 st
                  (Z.le_refl 0) Hfull Hrun)).
Defined.

End discovery.

(** ** The backup files of other working directories *)

Section other_backups.

Import file rename spec.

Section sorted.
Context `{!Sorts}.

Lemma backupChanges_other conf changes cwd w p :
  p ≠ backup_path (data w) cwd →
  xdg.files (data (backupChanges conf changes cwd w).1) !! p = xdg.files (data w) !! p.
Proof.
  intros Hp.
  destruct (xdg.dirs_creatable (data w)) eqn:Hdirs;
    [destruct (xdg.writable (data w)) eqn:Hwr|].
  - rewrite backupChanges_writes by done. cbn. by rewrite lookup_insert_ne.
  - by rewrite backupChanges_fails by auto.
  - by rewrite backupChanges_fails by auto.
Qed.

Lemma commit_other conf changes w p :
  p ≠ backup_path (data w) (config.WorkingDir conf) →
  xdg.files (data (commit changes conf w).1.1) !! p = xdg.files (data w) !! p.
Proof.
  intros Hp. unfold commit, rename.
  destruct (rename_from 0 changes w) as [w1 after] eqn:Hrun.
  destruct (rename_from_frame 0 changes w) as (Hd & _ & _). rewrite Hrun in Hd.
  cbn [fst snd] in *.
  set (w2 := if config.Verbose conf then _ else _).
  assert (Hw2 : data w2 = data w) by (unfold w2; by destruct (config.Verbose conf)).
  destruct (config.Revert conf); cbn [negb fst snd]; [by rewrite Hw2|].
  pose proof (backupChanges_other conf after (config.WorkingDir conf) w2 p) as Hother.
  rewrite Hw2 in Hother. specialize (Hother Hp).
  by destruct (backupChanges _ _ _ _) as [w3 [e|]].
Qed.

(** X23.  [commit] keeps the place of the data directory and removes no file
    from it, and touches no backup file but the one of the working directory:
    every other file of the data directory is as it was. *)
Theorem commit_leaves_other_backups_alone (conf : config.Config) (changes : list Change)
    (w : World) :
  xdg.DataHome (data (commit changes conf w).1.1) = xdg.DataHome (data w)
  ∧ (∀ path, is_Some (xdg.files (data w) !! path) →
             is_Some (xdg.files (data (commit changes conf w).1.1) !! path))
  ∧ ∀ path, path ≠ backup_path (data w) (config.WorkingDir conf) →
      xdg.files (data (commit changes conf w).1.1) !! path = xdg.files (data w) !! path.
Proof.
  destruct (commit_store conf changes w) as [Hhome Hkept].
  split; [done|]. split; [done|]. intros path. apply commit_other.
Qed.

Lemma Undo_dry_data conf w :
  config.Exec conf = false → data (Undo conf w).1 = data w.
Proof.
  intros Hexec. unfold Undo.
  destruct (xdg.SearchDataFile _ _) as [path [e|]]; [done|].
  destruct (xdg.ReadFile _ _) as [bytes [e|]]; [done|].
  destruct (json.Unmarshal bytes) as [e|v]; [done|].
  destruct (internaljson.unmarshal_Changes v) as [e|o]; [done|].
  set (l := FilesBeforeDirs _ _).
  pose proof (Rename_no_exec conf l w Hexec) as Hr.
  destruct (Rename_dry conf l w Hexec) as [ev Hw].
  destruct (Rename conf l w) as [[w1 cs] r]. cbn in Hr, Hw. subst r w1.
  by rewrite Hexec.
Qed.

(** X24.  [Undo] keeps the place of the data directory and touches no backup
    file but the one of the working directory, whatever it returns. *)
Theorem Undo_leaves_other_backups_alone (conf : config.Config) (w : World) :
  xdg.DataHome (data (Undo conf w).1) = xdg.DataHome (data w)
  ∧ ∀ path, path ≠ backup_path (data w) (config.WorkingDir conf) →
      xdg.files (data (Undo conf w).1) !! path = xdg.files (data w) !! path.
Proof.
  pose proof (Undo_cases conf w) as Hcases.
  pose proof (loaded_cases conf w) as Hload. cbn zeta in Hload.
  destruct (loaded conf w) as [e|[p cs]] eqn:Hl; [by rewrite Hcases|].
  destruct Hload as [-> Hsome].
  destruct (inverse_commit conf w) as [[[w1 c1] ret]|] eqn:Hic.
  - destruct Hcases as [Hexec Hcases].
    destruct (inverse_commit_store _ _ _ _ _ Hic) as (Hhome & _ & _).
    assert (Hw1 : ∀ path, path ≠ backup_path (data w) (config.WorkingDir conf) →
              xdg.files (data w1) !! path = xdg.files (data w) !! path).
    { intros path Hp. unfold inverse_commit in Hic. rewrite Hl, Hexec in Hic.
      fold (announced conf (inverse_batch conf cs) w) in Hic. injection Hic as Hc.
      pose proof (commit_other conf (inverse_batch conf cs)
                    (announced conf (inverse_batch conf cs) w) path) as Hother.
      rewrite Hc, announced_data in Hother. by apply Hother. }
    destruct (is_nil ret); [|by rewrite Hcases].
    unfold xdg.Remove in Hcases.
    destruct (xdg.files (data w1) !! _); [|by rewrite Hcases].
    destruct (xdg.writable (data w1)); rewrite Hcases; [|done].
    cbn. split; [done|]. intros path Hp. rewrite lookup_delete_ne by done. by apply Hw1.
  - destruct Hcases as [Hexec _]. by rewrite Undo_dry_data.
Qed.

End sorted.

Lemma commit_leaves_other_backups_alone_witness :
  let conf := examples.conf true false in
  let other := "/home/u/.local/share/f2/backups/_other.json" in
  let w := with_data (examples.world examples.one_file)
             (xdg.with_files examples.store
                {[ other := snapshot_file
                              (snapshot conf [] [examples.change EmptyString "old" "new"]) ]}) in
  let changes := [examples.change EmptyString "a.txt" "b.txt"] in
  other ≠ backup_path (data w) (config.WorkingDir conf)
  ∧ is_Some (xdg.files (data (@commit examples.sorts changes conf w).1.1)
               !! backup_path (data w) (config.WorkingDir conf))
  ∧ xdg.files (data (@commit examples.sorts changes conf w).1.1) !! other
    = xdg.files (data w) !! other.
Proof.
  intros conf other w changes.
  assert (Hother : other ≠ backup_path (data w) (config.WorkingDir conf))
    by (intros Heq; vm_compute in Heq; discriminate).
  split; [exact Hother|]. split; [vm_compute; eexists; reflexivity|].
  exact (proj2 (proj2 (@commit_leaves_other_backups_alone examples.sorts conf changes w))
           other Hother).
Defined.

Lemma Undo_leaves_other_backups_alone_witness :
  let conf := examples.conf true true in
  let other := "/home/u/.local/share/f2/backups/_other.json" in
  let w := examples.world_with_backup (os.Dir {[ "new" := os.File "x" ]}) in
  other ≠ backup_path (data w) (config.WorkingDir conf)
  ∧ xdg.files (data (@Undo examples.sorts conf w).1) !! other = xdg.files (data w) !! other.
Proof.
  intros conf other w.
  assert (Hother : other ≠ backup_path (data w) (config.WorkingDir conf))
    by (intros Heq; vm_compute in Heq; discriminate).
  split; [exact Hother|].
  exact (proj2 (@Undo_leaves_other_backups_alone examples.sorts conf w) other Hother).
Defined.

End other_backups.

(** ** The paths given to [searchPaths] *)

Section arguments.

Import os find spec.

Section tree_arguments.
Variable tree : node.

Lemma seed_app l1 l2 paths :
  seed tree (l1 ++ l2) paths
  = match seed tree l1 paths with
    | (paths1, None) => seed tree l2 paths1
    | r => r
    end.
Proof.
  revert paths. induction l1 as [|path rest IH]; intros paths; [done|].
  cbn [app seed]. cbn zeta. case_decide; [apply IH|].
  destruct (Stat tree (filepath.Clean path)) as [[fileInfo|] [e|]]; try done.
  destruct (EntryIsDir fileInfo).
  - destruct (ReadDir tree (filepath.Clean path)) as [entries [e|]]; [done|]. apply IH.
  - destruct (ReadDir tree (filepath.Dir (filepath.Clean path))) as [dirEntry [e|]]; [done|].
    destruct (List.find _ dirEntry); [|apply IH].
    destruct (existsb _ _); apply IH.
Qed.

Lemma seed_keys pathsToSearch paths paths' err k :
  seed tree pathsToSearch paths = (paths', err) →
  is_Some (paths' !! k) →
  is_Some (paths !! k)
  ∨ ∃ p, p ∈ pathsToSearch
         ∧ (k = filepath.Clean p ∨ k = filepath.Dir (filepath.Clean p)).
Proof.
  revert paths. induction pathsToSearch as [|path rest IH]; intros paths.
  - cbn. intros [= <- <-] ?. by left.
  - cbn [seed]. cbn zeta.
    assert (Hrest : ∀ paths1,
              (∀ k, is_Some (paths1 !! k) →
                    is_Some (paths !! k)
                    ∨ k = filepath.Clean path ∨ k = filepath.Dir (filepath.Clean path)) →
              seed tree rest paths1 = (paths', err) →
              is_Some (paths' !! k) →
              is_Some (paths !! k)
              ∨ ∃ p, p ∈ path :: rest
                     ∧ (k = filepath.Clean p ∨ k = filepath.Dir (filepath.Clean p))).
    { intros paths1 Hone Hrun Hk.
      destruct (IH _ Hrun Hk) as [Hk1|(p & Hp & Hkp)].
      - destruct (Hone k Hk1) as [?|?]; [by left|]. right. exists path. split; [left|done].
      - right. exists p. split; [by right|done]. }
    assert (Hdone : (paths, err) = (paths', err) →
              is_Some (paths' !! k) →
              is_Some (paths !! k)
              ∨ ∃ p, p ∈ path :: rest
                     ∧ (k = filepath.Clean p ∨ k = filepath.Dir (filepath.Clean p))).
    { intros [= <-] ?. by left. }
    case_decide; [apply Hrest; auto|].
    destruct (Stat tree (filepath.Clean path)) as [[fileInfo|] [e|]];
      try (intros [= <- <-] ?; by left).
    destruct (EntryIsDir fileInfo).
    + destruct (ReadDir tree (filepath.Clean path)) as [entries [e|]];
        [intros [= <- <-] ?; by left|].
      apply Hrest. intros k'. rewrite lookup_insert_is_Some. intros [<-|[_ ?]]; auto.
    + destruct (ReadDir tree (filepath.Dir (filepath.Clean path))) as [dirEntry [e|]];
        [intros [= <- <-] ?; by left|].
      destruct (List.find _ dirEntry); [|apply Hrest; auto].
      destruct (existsb _ _); [apply Hrest; auto|].
      apply Hrest. intros k'. rewrite lookup_insert_is_Some. intros [<-|[_ ?]]; auto.
Qed.

(** X25.  Without recursion [searchPaths] returns whatever the fuel, and lists
    nothing that was not asked for: every path of the collection is the cleaned
    form of one of the paths given, or the directory of one; with no path given,
    it is the current directory. *)
Theorem searchPaths_lists_what_was_asked_for (fuel : nat) (pathsToSearch : list string)
    (maxDepth : Z) (includeHidden : bool) :
  ∃ found err,
    searchPaths fuel tree pathsToSearch maxDepth false includeHidden = Some (found, err)
    ∧ ∀ paths k, found = Some paths → is_Some (paths !! k) →
        ∃ p, (p ∈ pathsToSearch ∨ (pathsToSearch = [] ∧ p = "."))
             ∧ (k = filepath.Clean p ∨ k = filepath.Dir (filepath.Clean p)).
Proof.
  unfold searchPaths. cbn zeta.
  set (args := if decide (length pathsToSearch = 0) then _ else _).
  assert (Hargs : ∀ p, p ∈ args → p ∈ pathsToSearch ∨ (pathsToSearch = [] ∧ p = ".")).
  { unfold args. intros p. case_decide as Hlen; [|by left].
    apply nil_length_inv in Hlen as ->. intros ->%list_elem_of_singleton. by right. }
  destruct (seed tree args ∅) as [paths [e|]] eqn:Hseed.
  { eexists _, _. split; [done|]. by intros ? ? [= ]. }
  eexists _, _. split; [done|]. intros ? k [= <-] Hk.
  destruct (seed_keys _ _ _ _ _ Hseed Hk) as [Hempty|(p & Hp & Hkp)].
  - rewrite lookup_empty in Hempty. by destruct Hempty.
  - exists p. split; [by apply Hargs|done].
Qed.

Lemma ReadDir_Stat k : (ReadDir tree k).2 = None → (Stat tree k).2 = None.
Proof.
  unfold ReadDir, Stat. by destruct (stat tree (resolve k)) as [e|[c|es]].
Qed.

Lemma seed_missing pathsToSearch paths p err :
  listed tree paths →
  p ∈ pathsToSearch → (Stat tree (filepath.Clean p)).2 = Some err →
  ∃ paths' err', seed tree pathsToSearch paths = (paths', Some err').
Proof.
  intros Hl Hp Hstat.
  apply list_elem_of_split in Hp as (l1 & l2 & ->).
  rewrite seed_app.
  destruct (seed tree l1 paths) as [paths1 [e|]] eqn:Hl1; [by eexists _, _|].
  pose proof (seed_listed tree _ _ _ Hl1 Hl) as Hl'.
  cbn [seed]. cbn zeta. case_decide as Hseen.
  { destruct Hseen as [v Hv]. destruct (Hl' _ _ Hv) as [Hread _].
    apply ReadDir_Stat in Hread. congruence. }
  destruct (Stat tree (filepath.Clean p)) as [[fileInfo|] [e|]]; try done; by eexists _, _.
Qed.

(** X26.  A path that cannot be examined is not passed over: when one of the
    paths given does not exist, or cannot be reached, [searchPaths] returns an
    error and no collection. *)
Theorem searchPaths_fails_on_a_missing_path (fuel : nat) (pathsToSearch : list string)
    (maxDepth : Z) (recursive includeHidden : bool) (p : string) (err : error) :
  p ∈ pathsToSearch →
  (Stat tree (filepath.Clean p)).2 = Some err →
  ∃ err', searchPaths fuel tree pathsToSearch maxDepth recursive includeHidden
          = Some (None, Some err').
Proof.
  intros Hp Hstat. unfold searchPaths. cbn zeta.
  rewrite decide_False by (intros Hlen; apply nil_length_inv in Hlen; subst;
                           by apply elem_of_nil in Hp).
  destruct (seed_missing pathsToSearch ∅ p err) as (paths' & err' & ->); try done.
  by exists err'.
Qed.

End tree_arguments.

Lemma searchPaths_fails_on_a_missing_path_witness :
  "missing" ∈ ["a.txt"; "missing"]
  ∧ (Stat examples.one_file (filepath.Clean "missing")).2 = Some ENOENT
  ∧ ∃ err', searchPaths 1 examples.one_file ["a.txt"; "missing"] 0 true false
            = Some (None, Some err').
Proof.
  assert (Hin : "missing" ∈ ["a.txt"; "missing"]) by (right; left).
  split; [exact Hin|]. split; [vm_compute; reflexivity|].
  apply (searchPaths_fails_on_a_missing_path examples.one_file 1 ["a.txt"; "missing"] 0
           true false "missing" ENOENT Hin).
  vm_compute. reflexivity.
Defined.

End arguments.

(** ** [Find] *)

Section find_results.

Import os find spec.

Section patterns.
Context `{!Patterns}.
Variable handleCSV :
  node → string → list string → list string → option Collection * option error.

Lemma searchPaths_listed tree fuel pathsToSearch maxDepth recursive includeHidden found :
  searchPaths fuel tree pathsToSearch maxDepth recursive includeHidden
  = Some (Some found, None) →
  listed tree found.
Proof.
  unfold searchPaths. cbn zeta.
  set (args := if decide (length pathsToSearch = 0) then _ else _).
  destruct (seed tree args ∅) as [paths [e|]] eqn:Hseed; [done|].
  assert (Hl : listed tree paths).
  { eapply seed_listed; [done|]. intros k l Hk. by rewrite lookup_empty in Hk. }
  destruct recursive; [|intros [= <-]; apply Hl].
  unfold walk.
  destruct (walk_from _ _ _ _ _) as [[st [e|]]|] eqn:Hwalk; try done.
  intros [= <-]. eapply walk_from_listed; [..|done]; done.
Qed.

(** X27.  What [Find] returns without a CSV file is in the tree and matches:
    every path of the collection is a directory that can be read; the entries
    under it are entries of that directory, at least one and none twice, each
    matched by the search pattern and, when the exclusion pattern is not empty,
    not matched by it. *)
Theorem Find_returns_matches_of_the_tree (fuel : nat) (tree : node)
    (conf : findconfig.Config) (excludeMatchRegex : regexp.Regexp) (found : Collection) :
  findconfig.CSVFilename conf = EmptyString →
  Compile (strings.Join (findconfig.ExcludeFilter conf) "|") = inr excludeMatchRegex →
  Find handleCSV fuel tree conf = Some (Some found, None) →
  ∀ path kept, found !! path = Some kept →
    kept ≠ []
    ∧ (ReadDir tree path).2 = None
    ∧ NoDup (Name <$> kept)
    ∧ ∀ entry, entry ∈ kept →
        entry ∈ (ReadDir tree path).1
        ∧ regexp.MatchString (findconfig.SearchRegex conf)
            (matched_name (findconfig.IgnoreExt conf) entry) = true
        ∧ (strings.Join (findconfig.ExcludeFilter conf) "|" ≠ EmptyString →
           regexp.MatchString excludeMatchRegex
             (matched_name (findconfig.IgnoreExt conf) entry) = false).
Proof.
  intros Hcsv Hc. unfold Find. rewrite Hcsv. cbn [negb bool_decide decide_rel].
  rewrite bool_decide_eq_true_2 by done. cbn [negb].
  destruct (searchPaths _ _ _ _ _ _) as [[o [e|]]|] eqn:Hsearch; try done.
  destruct o as [paths|].
  2:{ cbn [from_option id].
      destruct (filterMatches_compiled ∅ (findconfig.PathsToFilesOrDirs conf)
                  (findconfig.SearchRegex conf) (findconfig.ExcludeFilter conf)
                  excludeMatchRegex (findconfig.IncludeDir conf)
                  (findconfig.IncludeHidden conf) (findconfig.OnlyDir conf)
                  (findconfig.IgnoreExt conf) Hc) as (filtered & -> & Hlook).
      intros [= <-] path kept. by rewrite Hlook, lookup_empty. }
  cbn [from_option id].
  pose proof (searchPaths_listed _ _ _ _ _ _ _ Hsearch) as Hlisted.
  destruct (filterMatches_compiled paths (findconfig.PathsToFilesOrDirs conf)
              (findconfig.SearchRegex conf) (findconfig.ExcludeFilter conf)
              excludeMatchRegex (findconfig.IncludeDir conf)
              (findconfig.IncludeHidden conf) (findconfig.OnlyDir conf)
              (findconfig.IgnoreExt conf) Hc) as (filtered & -> & Hlook).
  intros [= <-] path kept. rewrite Hlook.
  destruct (paths !! path) as [dirEntry|] eqn:Hpath; [|done]. cbn.
  destruct (Hlisted path dirEntry Hpath) as (Hread & Hsub & Hnd).
  unfold filtered_entries. cbn zeta. case_decide as Hz; [done|]. intros [= <-].
  split; [by intros Hnil; rewrite Hnil in Hz|]. split; [done|].
  split.
  { eapply sublist_NoDup; [done|]. apply fmap_sublist, sublist_filter. }
  intros entry [Hkeep Hin]%list_elem_of_filter. split; [by apply Hsub|].
  unfold survives in Hkeep.
  repeat (apply andb_prop_elim in Hkeep as [Hkeep ?]).
  repeat match goal with H : Is_true _ |- _ => apply Is_true_true in H end.
  split; [done|].
  intros Hne. rewrite bool_decide_eq_false_2 in * by done.
  by destruct (regexp.MatchString excludeMatchRegex _).
Qed.

End patterns.

Lemma Find_returns_matches_of_the_tree_witness :
  let conf :=
    {| findconfig.CSVFilename := EmptyString;
       findconfig.FindSlice := [];
       findconfig.ReplacementSlice := [];
       findconfig.PathsToFilesOrDirs := ["."];
       findconfig.MaxDepth := 0;
       findconfig.Recursive := true;
       findconfig.IncludeHidden := false;
       findconfig.SearchRegex := {| regexp.MatchString name := String.prefix EmptyString name |};
       findconfig.ExcludeFilter := ["c"];
       findconfig.IncludeDir := false;
       findconfig.OnlyDir := false;
       findconfig.IgnoreExt := false |} in
  let handleCSV : node → string → list string → list string
                  → option Collection * option error := λ _ _ _ _, (None, None) in
  let excludeMatchRegex := {| regexp.MatchString name := String.prefix "c" name |} in
  let found : Collection :=
    {[ "a" := [ {| Name := "f"; EntryIsDir := false |} ];
       "a/b/c" := [ {| Name := "deep"; EntryIsDir := false |} ] ]} in
  findconfig.CSVFilename conf = EmptyString
  ∧ @Compile examples.patterns (strings.Join (findconfig.ExcludeFilter conf) "|")
    = inr excludeMatchRegex
  ∧ @Find examples.patterns handleCSV 5 examples.deep conf = Some (Some found, None)
  ∧ ∀ path kept, found !! path = Some kept →
      kept ≠ []
      ∧ (ReadDir examples.deep path).2 = None
      ∧ NoDup (Name <$> kept)
      ∧ ∀ entry, entry ∈ kept →
          entry ∈ (ReadDir examples.deep path).1
          ∧ regexp.MatchString (findconfig.SearchRegex conf)
              (@matched_name examples.patterns (findconfig.IgnoreExt conf) entry) = true
          ∧ (strings.Join (findconfig.ExcludeFilter conf) "|" ≠ EmptyString →
             regexp.MatchString excludeMatchRegex
               (@matched_name examples.patterns (findconfig.IgnoreExt conf) entry) = false).
Proof.
  intros conf handleCSV excludeMatchRegex found.
  assert (Hrun : @Find examples.patterns handleCSV 5 examples.deep conf
                 = Some (Some found, None)) by (vm_compute; reflexivity).
  split; [reflexivity|]. split; [reflexivity|]. split; [exact Hrun|].
  exact (@Find_returns_matches_of_the_tree examples.patterns handleCSV 5 examples.deep conf
           excludeMatchRegex found eq_refl eq_refl Hrun).
Defined.

End find_results.
